(** * Ear-training application: note table, detection session, training loop

    A shallow embedding of [constants/Notes.ts], [utils/AudioUtils.ts] and
    the [TrainingScreen] component, together with the properties stated for
    them.

    Modelling conventions.
    - A TypeScript [number] holding a frequency, a volume or a variance is
      an exact rational ([Q]); comparisons are the boolean tests [Qltb] and
      [Qleb] below.  Counts, indices and settings entered through
      [parseInt] are [Z] or [nat].
    - [Math.random()] is an oracle: every draw is an argument of the
      function that consumes it, constrained to [0 <= r < 1] where a
      theorem needs it.
    - A timer callback ([setInterval]) is a function from the session
      object and the tick's inputs to the new session object and the list
      of [(note, volume)] pairs handed to the registered callback.
    - An [async] method of the session object is a function on the session
      object; React state setters are recorded as a list of actions that is
      then applied in order (batched updates).
    - A note that React compares with [Object.is] carries the identity of
      its object ([Training.NoteObject]): an effect runs only when its
      dependency has become another value.
    - Binary64 rounding is not modelled: arithmetic on [Q] is exact. *)

From Stdlib Require Import QArith Qabs Qround Lqa Lia ZArith List String Bool.
From Stdlib Require Import Ascii Permutation Sorted.
Import ListNotations.
Open Scope Q_scope.

(** ** Boolean comparisons on rationals *)

Definition Qltb (x y : Q) : bool := (Qnum x * QDen y <? Qnum y * QDen x)%Z.
Definition Qleb (x y : Q) : bool := (Qnum x * QDen y <=? Qnum y * QDen x)%Z.

(** ** constants/Notes.ts *)

Module Notes.

Record Note : Type := mkNote {
  name : string;
  frequency : Q;
  audioFile : string
}.

Definition GUITAR_NOTES : list Note := [
  mkNote "E2" 82.41 "e2.mp3";
  mkNote "F2" 87.31 "f2.mp3";
  mkNote "F#2/Gb2" 92.50 "f-2.mp3";
  mkNote "G2" 98.00 "g2.mp3";
  mkNote "G#2/Ab2" 103.83 "g-2.mp3";
  mkNote "A2" 110.00 "a2.mp3";
  mkNote "A#2/Bb2" 116.54 "a-2.mp3";
  mkNote "B2" 123.47 "b2.mp3";
  mkNote "C3" 130.81 "c3.mp3";
  mkNote "C#3/Db3" 138.59 "c-3.mp3";
  mkNote "D3" 146.83 "d3.mp3";
  mkNote "D#3/Eb3" 155.56 "d-3.mp3";
  mkNote "E3" 164.81 "e3.mp3";
  mkNote "F3" 174.61 "f3.mp3";
  mkNote "F#3/Gb3" 185.00 "f-3.mp3";
  mkNote "G3" 196.00 "g3.mp3";
  mkNote "G#3/Ab3" 207.65 "g-3.mp3";
  mkNote "A3" 220.00 "a3.mp3";
  mkNote "A#3/Bb3" 233.08 "a-3.mp3";
  mkNote "B3" 246.94 "b3.mp3";
  mkNote "C4" 261.63 "c4.mp3";
  mkNote "C#4/Db4" 277.18 "c-4.mp3";
  mkNote "D4" 293.66 "d4.mp3";
  mkNote "D#4/Eb4" 311.13 "d-4.mp3";
  mkNote "E4" 329.63 "e4.mp3";
  mkNote "F4" 349.23 "f4.mp3";
  mkNote "F#4/Gb4" 369.99 "f-4.mp3";
  mkNote "G4" 392.00 "g4.mp3";
  mkNote "G#4/Ab4" 415.30 "g-4.mp3";
  mkNote "A4" 440.00 "a4.mp3";
  mkNote "A#4/Bb4" 466.16 "a-4.mp3";
  mkNote "B4" 493.88 "b4.mp3";
  mkNote "C5" 523.25 "c5.mp3";
  mkNote "C#5/Db5" 554.37 "c-5.mp3";
  mkNote "D5" 587.33 "d5.mp3";
  mkNote "D#5/Eb5" 622.25 "d-5.mp3";
  mkNote "E5" 659.26 "e5.mp3";
  mkNote "F5" 698.46 "f5.mp3";
  mkNote "F#5/Gb5" 739.99 "f-5.mp3";
  mkNote "G5" 783.99 "g5.mp3";
  mkNote "G#5/Ab5" 830.61 "g-5.mp3";
  mkNote "A5" 880.00 "a5.mp3";
  mkNote "A#5/Bb5" 932.33 "a-5.mp3";
  mkNote "B5" 987.77 "b5.mp3"
]%string.

(** [Math.abs(frequency - note.frequency)]. *)
Definition difference (f : Q) (n : Note) : Q := Qabs (f - frequency n).

(** One iteration of the [for] loop of [findClosestNote]: the pair is
    [(closestNote, minDifference)]. *)
Definition scan_step (f : Q) (best : Note * Q) (n : Note) : Note * Q :=
  let d := difference f n in
  if Qltb d (snd best) then (n, d) else best.

(** The loop from [i = 1], started at [GUITAR_NOTES[0]]. *)
Definition scan (f : Q) (first : Note) (rest : list Note) : Note * Q :=
  fold_left (scan_step f) rest (first, difference f first).

(** [findClosestNote] over an arbitrary table; the table of the source is
    never empty, so the [nil] case (an exception in the source) is never
    taken by [findClosestNote]. *)
Definition findClosestIn (table : list Note) (f : Q) : option Note :=
  if Qleb f 0 then None
  else match table with
       | [] => None
       | first :: rest =>
           let '(closestNote, minDifference) := scan f first rest in
           if Qltb (frequency closestNote * 0.05) minDifference
           then None
           else Some closestNote
       end.

Definition findClosestNote (f : Q) : option Note :=
  findClosestIn GUITAR_NOTES f.

(** [GUITAR_NOTES.findIndex(note => note.name === n)]: [None] is [-1]. *)
Fixpoint findIndexFrom (l : list Note) (nm : string) (i : nat) : option nat :=
  match l with
  | [] => None
  | n :: l' => if String.eqb (name n) nm then Some i
               else findIndexFrom l' nm (S i)
  end.

Definition findIndex (nm : string) : option nat :=
  findIndexFrom GUITAR_NOTES nm 0.

(** [calculateSemitones]. *)
Definition calculateSemitones (note1 note2 : Note) : Z :=
  match findIndex (name note1), findIndex (name note2) with
  | Some i1, Some i2 => Z.abs (Z.of_nat i2 - Z.of_nat i1)
  | _, _ => 0%Z
  end.

(** [GUITAR_NOTES[i]] for an integer [i]; [None] is [undefined]. *)
Definition noteAt (i : Z) : option Note :=
  if (i <? 0)%Z then None else nth_error GUITAR_NOTES (Z.to_nat i).

(** [getRandomNote], with [r] the value drawn by [Math.random()]. *)
Definition getRandomNote (r : Q) : option Note :=
  let randomIndex := Qfloor (r * inject_Z (Z.of_nat (List.length GUITAR_NOTES))) in
  noteAt randomIndex.

(** [getRandomNoteWithinInterval]. *)
Definition getRandomNoteWithinInterval
    (referenceNote : Note) (maxInterval : Z) (r : Q) : option Note :=
  match findIndex (name referenceNote) with
  | None => getRandomNote r
  | Some referenceIndex =>
      let ri := Z.of_nat referenceIndex in
      let minIndex := Z.max 0 (ri - maxInterval) in
      let maxIndex :=
        Z.min (Z.of_nat (List.length GUITAR_NOTES) - 1) (ri + maxInterval) in
      let randomIndex :=
        (minIndex + Qfloor (r * inject_Z (maxIndex - minIndex + 1)))%Z in
      noteAt randomIndex
  end.

End Notes.

(** ** utils/AudioUtils.ts: the detection session object *)

Module AudioUtils.
Import Notes.

(** [Platform.OS]. *)
Inductive PlatformOS : Type := web | ios | android | windows | macos.

(** What the host environment answers while detection is started. *)
Record Env : Type := mkEnv {
  OS : PlatformOS;
  permissionGranted : bool;   (* [Audio.requestPermissionsAsync] *)
  webAudioSupported : bool;   (* [window.AudioContext] exists *)
  getUserMediaOk : bool;      (* [getUserMedia] resolves *)
  audioModeOk : bool          (* [Audio.setAudioModeAsync] resolves *)
}.

(** A [setInterval] handle, named after the callback it runs.  The
    simulated loop closes over its local variable [lastNote]. *)
Inductive Timer : Type :=
| WebLoop            (* installed by [startWebPitchDetection] *)
| ResumedWebLoop     (* installed by [resumePitchDetection] *)
| NativeLoop         (* installed by [startNativePitchDetection] *)
| EnhancedLoop       (* installed by [startEnhancedSimulatedDetection] *)
| SimulatedLoop (lastNote : string).

(** The fields of the [AudioUtils] object that detection reads or writes.
    An object-valued field is [true] when it is not [null]. *)
Record t : Type := mk {
  pitchDetectionInterval : option Timer;
  mobileRecordingInterval : option Timer;
  onPitchDetected : bool;
  audioContext : bool;
  analyser : bool;
  mediaStreamSource : bool;
  recordingDataArray : bool;
  pitchDetector : bool;
  isInitialized : bool;
  volumeThreshold : Q;
  detectionHistory : list Q;
  historySize : nat;
  minFrequency : Q;
  maxFrequency : Q;
  isMobileListening : bool;
  isPitchDetectionPaused : bool;
  pitchDetectionWasRunning : bool
}.

(** The field initialisers of the class. *)
Definition initial : t := {|
  pitchDetectionInterval := None;
  mobileRecordingInterval := None;
  onPitchDetected := false;
  audioContext := false;
  analyser := false;
  mediaStreamSource := false;
  recordingDataArray := false;
  pitchDetector := false;
  isInitialized := false;
  volumeThreshold := 0.01;
  detectionHistory := [];
  historySize := 5;
  minFrequency := 80;
  maxFrequency := 1200;
  isMobileListening := false;
  isPitchDetectionPaused := false;
  pitchDetectionWasRunning := false
|}.

Definition set_history (s : t) (h : list Q) : t :=
  mk (pitchDetectionInterval s) (mobileRecordingInterval s)
     (onPitchDetected s) (audioContext s) (analyser s) (mediaStreamSource s)
     (recordingDataArray s) (pitchDetector s) (isInitialized s)
     (volumeThreshold s) h (historySize s) (minFrequency s) (maxFrequency s)
     (isMobileListening s) (isPitchDetectionPaused s)
     (pitchDetectionWasRunning s).

Definition set_timers (s : t) (p m : option Timer) : t :=
  mk p m
     (onPitchDetected s) (audioContext s) (analyser s) (mediaStreamSource s)
     (recordingDataArray s) (pitchDetector s) (isInitialized s)
     (volumeThreshold s) (detectionHistory s) (historySize s)
     (minFrequency s) (maxFrequency s)
     (isMobileListening s) (isPitchDetectionPaused s)
     (pitchDetectionWasRunning s).

Definition set_flags (s : t) (mobile paused wasRunning : bool) : t :=
  mk (pitchDetectionInterval s) (mobileRecordingInterval s)
     (onPitchDetected s) (audioContext s) (analyser s) (mediaStreamSource s)
     (recordingDataArray s) (pitchDetector s) (isInitialized s)
     (volumeThreshold s) (detectionHistory s) (historySize s)
     (minFrequency s) (maxFrequency s)
     mobile paused wasRunning.

Definition set_web_resources (s : t) (b : bool) : t :=
  mk (pitchDetectionInterval s) (mobileRecordingInterval s)
     (onPitchDetected s) b b b b b (isInitialized s)
     (volumeThreshold s) (detectionHistory s) (historySize s)
     (minFrequency s) (maxFrequency s)
     (isMobileListening s) (isPitchDetectionPaused s)
     (pitchDetectionWasRunning s).

Definition set_callback (s : t) (b : bool) : t :=
  mk (pitchDetectionInterval s) (mobileRecordingInterval s)
     b (audioContext s) (analyser s) (mediaStreamSource s)
     (recordingDataArray s) (pitchDetector s) (isInitialized s)
     (volumeThreshold s) (detectionHistory s) (historySize s)
     (minFrequency s) (maxFrequency s)
     (isMobileListening s) (isPitchDetectionPaused s)
     (pitchDetectionWasRunning s).

Definition set_initialized (s : t) (b : bool) : t :=
  mk (pitchDetectionInterval s) (mobileRecordingInterval s)
     (onPitchDetected s) (audioContext s) (analyser s) (mediaStreamSource s)
     (recordingDataArray s) (pitchDetector s) b
     (volumeThreshold s) (detectionHistory s) (historySize s)
     (minFrequency s) (maxFrequency s)
     (isMobileListening s) (isPitchDetectionPaused s)
     (pitchDetectionWasRunning s).

(** [setVolumeThreshold]. *)
Definition setVolumeThreshold (s : t) (threshold : Q) : t :=
  mk (pitchDetectionInterval s) (mobileRecordingInterval s)
     (onPitchDetected s) (audioContext s) (analyser s) (mediaStreamSource s)
     (recordingDataArray s) (pitchDetector s) (isInitialized s)
     threshold (detectionHistory s) (historySize s)
     (minFrequency s) (maxFrequency s)
     (isMobileListening s) (isPitchDetectionPaused s)
     (pitchDetectionWasRunning s).

(** A timer is installed: the sampling cadence is running. *)
Definition listening (s : t) : bool :=
  match pitchDetectionInterval s, mobileRecordingInterval s with
  | None, None => false
  | _, _ => true
  end.

(** *** The Detection Window *)

(** [detectionHistory.push(x)] followed by the bounded [shift()]. *)
Definition pushHistory (size : nat) (h : list Q) (x : Q) : list Q :=
  let h' := h ++ [x] in
  if (size <? List.length h')%nat then tl h' else h'.

(** [values.reduce((a, b) => a + b, 0)]. *)
Definition sum (values : list Q) : Q := fold_left Qplus values 0.

(** [sum / values.length]. *)
Definition average (values : list Q) : Q :=
  sum values / inject_Z (Z.of_nat (List.length values)).

(** [calculateVariance]. *)
Definition calculateVariance (values : list Q) (mean : Q) : Q :=
  if (List.length values <? 2)%nat then 0
  else
    let squareDiffs := map (fun value => let diff := value - mean in diff * diff)
                           values in
    sum squareDiffs / inject_Z (Z.of_nat (List.length squareDiffs)).

(** *** Timer callbacks *)

(** What one tick reads from outside the object: the RMS of the frame and
    the three detector results for the Web loops ([None] is [null], also
    after a detector threw), and the successive [Math.random()] draws of
    the simulated loops. *)
Record TickInput : Type := mkInput {
  rms : Q;
  pitch1 : option Q;
  pitch2 : option Q;
  pitch3 : option Q;
  draw : nat -> Q
}.

(** One call of [onPitchDetected(note, volume)]. *)
Definition Emission : Type := (option Note * Q)%type.

(** [if (this.onPitchDetected) this.onPitchDetected(note, volume)]. *)
Definition emit (s : t) (note : option Note) (volume : Q) : list Emission :=
  if onPitchDetected s then [(note, volume)] else [].

Definition inRange (s : t) (p : Q) : bool :=
  Qltb (minFrequency s) p && Qltb p (maxFrequency s).

(** [[pitch1, pitch2, pitch3].filter(non-null).map(number).filter(range)]. *)
Definition validPitches (s : t) (i : TickInput) : list Q :=
  filter (inRange s)
    (flat_map (fun p => match p with Some v => [v] | None => [] end)
              [pitch1 i; pitch2 i; pitch3 i]).

(** The callback installed by [startWebPitchDetection]. *)
Definition webTick (s : t) (i : TickInput) : t * list Emission :=
  if negb (analyser s && recordingDataArray s && pitchDetector s) then (s, [])
  else if Qltb (volumeThreshold s) (rms i) then
    let valid := validPitches s i in
    if (0 <? List.length valid)%nat then
      let pitch := average valid in
      if inRange s pitch then
        let s' := set_history s
                    (pushHistory (historySize s) (detectionHistory s) pitch) in
        let averagePitch := average (detectionHistory s') in
        let variance := calculateVariance (detectionHistory s') averagePitch in
        let isStable := Qltb variance 5 in
        if isStable && (3 <=? List.length (detectionHistory s'))%nat then
          match findClosestNote averagePitch with
          | Some detectedNote => (s', emit s' (Some detectedNote) (rms i))
          | None => (s', [])
          end
        else (s', emit s' None (rms i))
      else (s, [])
    else (s, emit s None (rms i))
  else
    (match detectionHistory s with
     | [] => s
     | _ :: _ => set_history s []
     end,
     emit s None (rms i)).

(** The callback installed by [resumePitchDetection] on the Web. *)
Definition resumedWebTick (s : t) (i : TickInput) : t * list Emission :=
  if negb (analyser s && recordingDataArray s) then (s, [])
  else
    let volumeOnly := emit s None (rms i) in
    if Qleb (volumeThreshold s) (rms i) then
      let valid := validPitches s i in
      if (0 <? List.length valid)%nat then
        let pitch := average valid in
        if inRange s pitch then
          let s' := set_history s
                      (pushHistory (historySize s) (detectionHistory s) pitch) in
          let averagePitch := average (detectionHistory s') in
          let variance :=
            calculateVariance (detectionHistory s') averagePitch in
          let isStable := Qltb variance 5 in
          if isStable && (3 <=? List.length (detectionHistory s'))%nat then
            match findClosestNote averagePitch with
            | Some detectedNote =>
                (s', volumeOnly ++ emit s' (Some detectedNote) (rms i))
            | None => (s', volumeOnly)
            end
          else (s', volumeOnly)
        else (s, volumeOnly)
      else (s, volumeOnly)
    else (s, volumeOnly).

(** [baseFrequencies] of the native loop.  [Math.random() < 1] keeps the
    index inside the table; the default of [nth] stands for the
    [undefined] entry that only a draw outside [0, 1) could reach. *)
Definition nativeBaseFrequencies : list Q :=
  [220; 246.94; 261.63; 293.66; 329.63; 349.23; 392; 415.30; 440].

Definition randomEntry (table : list Q) (r : Q) : Q :=
  nth (Z.to_nat (Qfloor (r * inject_Z (Z.of_nat (List.length table)))))
      table 0.

(** The callback installed by [startNativePitchDetection]. *)
Definition nativeTick (s : t) (i : TickInput) : t * list Emission :=
  if negb (isMobileListening s) || negb (onPitchDetected s) then (s, [])
  else
    let simulatedRMS := draw i 0%nat * 0.1 in
    if Qltb (volumeThreshold s) simulatedRMS then
      let baseFreq := randomEntry nativeBaseFrequencies (draw i 1%nat) in
      let simulatedFrequency := baseFreq + (draw i 2%nat * 4 - 2) in
      let s' := set_history s
                  (pushHistory (historySize s) (detectionHistory s)
                               simulatedFrequency) in
      if (3 <=? List.length (detectionHistory s'))%nat then
        let averagePitch := average (detectionHistory s') in
        let variance := calculateVariance (detectionHistory s') averagePitch in
        let isStable := Qltb variance 5 in
        if isStable then
          match findClosestNote averagePitch with
          | Some detectedNote => (s', [(Some detectedNote, simulatedRMS)])
          | None => (s', [(None, simulatedRMS)])
          end
        else (s', [(None, simulatedRMS)])
      else (s', [(None, simulatedRMS)])
    else
      (match detectionHistory s with
       | [] => s
       | _ :: _ => set_history s []
       end,
       [(None, simulatedRMS)]).

Definition enhancedBaseFrequencies : list Q :=
  [261.63; 293.66; 329.63; 349.23; 392.00; 440.00; 493.88].

(** The callback installed by [startEnhancedSimulatedDetection]. *)
Definition enhancedTick (s : t) (i : TickInput) : t * list Emission :=
  if negb (isMobileListening s) || negb (onPitchDetected s) then (s, [])
  else
    let simulatedRMS := draw i 0%nat * 0.2 + 0.05 in
    if Qltb 0.2 (draw i 1%nat) then
      let baseFreq := randomEntry enhancedBaseFrequencies (draw i 2%nat) in
      let simulatedFrequency := baseFreq + (draw i 3%nat * 2 - 1) in
      let s' := set_history s
                  (pushHistory (historySize s) (detectionHistory s)
                               simulatedFrequency) in
      if (2 <=? List.length (detectionHistory s'))%nat then
        let averagePitch := average (detectionHistory s') in
        let variance := calculateVariance (detectionHistory s') averagePitch in
        let isStable := Qltb variance 10 in
        if isStable then
          match findClosestNote averagePitch with
          | Some detectedNote => (s', [(Some detectedNote, simulatedRMS)])
          | None => (s', [(None, simulatedRMS)])
          end
        else (s', [(None, simulatedRMS)])
      else (s', [(None, simulatedRMS)])
    else (s, [(None, simulatedRMS)]).

(** [String.prototype.toLowerCase] on ASCII letters. *)
Definition lowerAscii (c : Ascii.ascii) : Ascii.ascii :=
  let n := Ascii.nat_of_ascii c in
  if ((65 <=? n) && (n <=? 90))%nat then Ascii.ascii_of_nat (n + 32) else c.

Fixpoint toLowerCase (x : string) : string :=
  match x with
  | EmptyString => EmptyString
  | String c x' => String (lowerAscii c) (toLowerCase x')
  end.

Definition simulatedNoteNames : list string :=
  ["C"; "D"; "E"; "F"; "G"; "A"; "B"]%string.

(** The decimal numeral of the octave; the draws give 3 or 4. *)
Definition octaveDigit (octave : Z) : string :=
  if (octave =? 3)%Z then "3"%string else "4"%string.

(** The callback installed by [startSimulatedPitchDetection]; [lastNote]
    is the local variable the callback closes over. *)
Definition simulatedTick (lastNote : string) (s : t) (i : TickInput)
  : string * list Emission :=
  if Qltb 0.8 (draw i 0%nat) then
    let noteIndex := Z.to_nat (Qfloor (draw i 1%nat * 7)) in
    let octave := (Qfloor (draw i 2%nat * 2) + 3)%Z in
    let noteName :=
      (nth noteIndex simulatedNoteNames "" ++ octaveDigit octave)%string in
    if String.eqb noteName lastNote then (lastNote, [])
    else
      let simulatedNote :=
        mkNote noteName 440 (toLowerCase noteName ++ ".mp3")%string in
      let simulatedVolume := volumeThreshold s + draw i 3%nat * 0.05 in
      (noteName, emit s (Some simulatedNote) simulatedVolume)
  else
    let simulatedVolume := draw i 1%nat * 0.05 in
    (lastNote, emit s None simulatedVolume).

(** One tick of a timer. *)
Definition tick (tm : Timer) (s : t) (i : TickInput) : t * list Emission :=
  match tm with
  | WebLoop => webTick s i
  | ResumedWebLoop => resumedWebTick s i
  | NativeLoop => nativeTick s i
  | EnhancedLoop => enhancedTick s i
  | SimulatedLoop lastNote =>
      let '(lastNote', out) := simulatedTick lastNote s i in
      (set_timers s
         (match pitchDetectionInterval s with
          | Some (SimulatedLoop _) => Some (SimulatedLoop lastNote')
          | other => other
          end)
         (mobileRecordingInterval s),
       out)
  end.

(** A run of the cadence: each step is one tick of the named timer on
    its input; the emissions are concatenated in order. *)
Fixpoint run (s : t) (steps : list (Timer * TickInput))
  : t * list Emission :=
  match steps with
  | [] => (s, [])
  | (tm, i) :: rest =>
      let '(s1, out1) := tick tm s i in
      let '(s2, out2) := run s1 rest in
      (s2, out1 ++ out2)
  end.

(** *** Session control *)

Definition startSimulatedPitchDetection (s : t) : t :=
  set_timers s (Some (SimulatedLoop "")) (mobileRecordingInterval s).

Definition startEnhancedSimulatedDetection (s : t) : t :=
  set_timers
    (set_flags s true (isPitchDetectionPaused s) (pitchDetectionWasRunning s))
    (pitchDetectionInterval s) (Some EnhancedLoop).

Definition startNativePitchDetection (s : t) : t :=
  set_timers
    (set_flags s true (isPitchDetectionPaused s) (pitchDetectionWasRunning s))
    (pitchDetectionInterval s) (Some NativeLoop).

(** [startWebPitchDetection]: without Web Audio, or when [getUserMedia]
    rejects (before the audio context is created), the simulated loop is
    started instead. *)
Definition startWebPitchDetection (env : Env) (s : t) : t :=
  if negb (webAudioSupported env) then startSimulatedPitchDetection s
  else if negb (getUserMediaOk env) then startSimulatedPitchDetection s
  else
    set_timers (set_web_resources s true)
               (Some WebLoop) (mobileRecordingInterval s).

(** [startPitchDetection(onPitchDetected)]. *)
Definition startPitchDetection (env : Env) (s : t) : t :=
  let s := set_history (set_callback s true) [] in
  if negb (permissionGranted env) then startSimulatedPitchDetection s
  else
    match OS env with
    | web => startWebPitchDetection env s
    | android => startEnhancedSimulatedDetection s
    | _ => startNativePitchDetection s
    end.

(** [stopPitchDetection]. *)
Definition stopPitchDetection (s : t) : t :=
  let s := set_timers s None None in
  let s := set_flags s false (isPitchDetectionPaused s)
                     (pitchDetectionWasRunning s) in
  let s := set_history s [] in
  set_web_resources s false.

(** [pausePitchDetection]. *)
Definition pausePitchDetection (s : t) : t :=
  let wasRunning :=
    match pitchDetectionInterval s, mobileRecordingInterval s with
    | None, None => false
    | _, _ => true
    end in
  let s := set_flags s (isMobileListening s) (isPitchDetectionPaused s)
                     wasRunning in
  if negb (pitchDetectionWasRunning s) then s
  else
    let s := set_timers s None None in
    set_flags s (isMobileListening s) true (pitchDetectionWasRunning s).

(** [resumePitchDetection]. *)
Definition resumePitchDetection (env : Env) (s : t) : t :=
  if negb (isPitchDetectionPaused s) || negb (pitchDetectionWasRunning s)
  then s
  else
    let s :=
      match OS env with
      | web =>
          if audioContext s && analyser s && recordingDataArray s
          then set_timers s (Some ResumedWebLoop) (mobileRecordingInterval s)
          else s
      | ios => startNativePitchDetection s
      | android => startEnhancedSimulatedDetection s
      | _ => s
      end in
    set_flags s (isMobileListening s) false false.

End AudioUtils.

(** ** Playback: the [async] methods that pause and resume detection *)

Module Playback.
Import Notes AudioUtils.

(** What a playback routine does besides changing the session object. *)
Inductive Event : Type :=
| PauseCalled
| ResumeCalled
| SoundPlayed (file : string)
| SoundFailed (file : string)
| Waited (ms : Z)
| SequenceInProgress (b : bool).

(** The session object, the trace so far and the number of
    [SoundManager.playSound] calls made. *)
Record World : Type := mkWorld {
  session : AudioUtils.t;
  trace : list Event;
  plays : nat
}.

(** An [await]ed computation either returns or throws. *)
Inductive Result (A : Type) : Type :=
| Returned (a : A)
| Thrown.
Arguments Returned {A} a.
Arguments Thrown {A}.

Definition M (A : Type) : Type := World -> Result A * World.

Definition ret {A} (a : A) : M A := fun w => (Returned a, w).

Definition bind {A B} (m : M A) (k : A -> M B) : M B :=
  fun w => match m w with
           | (Returned a, w') => k a w'
           | (Thrown, w') => (Thrown, w')
           end.

Notation "x <- m ;; k" := (bind m (fun x => k))
  (at level 61, m at next level, right associativity).
Notation "m ;; k" := (bind m (fun _ => k))
  (at level 61, right associativity).

(** [try { body } catch { handler }]. *)
Definition tryCatch {A} (body handler : M A) : M A :=
  fun w => match body w with
           | (Returned a, w') => (Returned a, w')
           | (Thrown, w') => handler w'
           end.

(** [try { body } finally { fin }]. *)
Definition tryFinally {A} (body : M A) (fin : M unit) : M A :=
  fun w => match body w with
           | (r, w') =>
               match fin w' with
               | (Returned _, w'') => (r, w'')
               | (Thrown, w'') => (Thrown, w'')
               end
           end.

Definition when (b : bool) (m : M unit) : M unit :=
  if b then m else ret tt.

Definition record (e : Event) : M unit :=
  fun w => (Returned tt, mkWorld (session w) (trace w ++ [e]) (plays w)).

Definition getSession : M AudioUtils.t := fun w => (Returned (session w), w).

Definition onSession (f : AudioUtils.t -> AudioUtils.t) : M unit :=
  fun w => (Returned tt, mkWorld (f (session w)) (trace w) (plays w)).

(** [await new Promise(resolve => setTimeout(resolve, ms))]. *)
Definition wait (ms : Z) : M unit := record (Waited ms).

Section WithEnvironment.

Variable env : Env.
(** Whether the [n]-th call of [SoundManager.playSound] rejects. *)
Variable soundFails : nat -> bool.

Definition playSound (file : string) : M unit :=
  fun w =>
    let w' := mkWorld (session w)
                (trace w ++ [if soundFails (plays w) then SoundFailed file
                             else SoundPlayed file])
                (S (plays w)) in
    (if soundFails (plays w) then Thrown else Returned tt, w').

Definition pause : M unit :=
  record PauseCalled ;; onSession pausePitchDetection.

Definition resume : M unit :=
  record ResumeCalled ;; onSession (resumePitchDetection env).

(** [init]: a rejected [setAudioModeAsync] is caught inside. *)
Definition init : M bool :=
  if audioModeOk env
  then onSession (fun s => set_initialized s true) ;; ret true
  else ret false.

Definition ensureInitialized : M unit :=
  s <- getSession ;;
  if isInitialized s then ret tt else (init ;; ret tt).

(** [playNote]. *)
Definition playNote (note : Note) : M unit :=
  tryCatch
    (ensureInitialized ;;
     s <- getSession ;;
     let wasPitchDetectionPaused := isPitchDetectionPaused s in
     when (negb wasPitchDetectionPaused) pause ;;
     tryFinally
       (playSound (audioFile note))
       (when (negb wasPitchDetectionPaused) resume))
    (ret tt).

(** The [for] loop of [playSequence]. *)
Fixpoint playEach (notes : list Note) (delayBetweenNotes : Z) : M unit :=
  match notes with
  | [] => ret tt
  | note :: rest =>
      playNote note ;;
      when (match rest with [] => false | _ => true end)
           (wait delayBetweenNotes) ;;
      playEach rest delayBetweenNotes
  end.

(** [playSequence]. *)
Definition playSequence (notes : list Note) (delayBetweenNotes : Z) : M unit :=
  tryCatch
    (ensureInitialized ;;
     s <- getSession ;;
     let wasPitchDetectionPaused := isPitchDetectionPaused s in
     when (negb wasPitchDetectionPaused) pause ;;
     tryFinally
       (playEach notes delayBetweenNotes)
       (when (negb wasPitchDetectionPaused) resume))
    (ret tt).

(** [playCurrentSequenceWithNotes] of the training screen: the sequence
    is played three times, 1500 ms apart. *)
Definition playCurrentSequenceWithNotes (notes : list Note) : M unit :=
  match notes with
  | [] => ret tt
  | _ :: _ =>
      record (SequenceInProgress true) ;;
      pause ;;
      tryFinally
        (playSequence notes 1000 ;; wait 1500 ;;
         playSequence notes 1000 ;; wait 1500 ;;
         playSequence notes 1000)
        (resume ;; record (SequenceInProgress false))
  end.

(** [GUITAR_NOTES.find(note => note.name === nm) || GUITAR_NOTES[k]]. *)
Definition findOr (nm : string) (k : nat) : option Note :=
  match find (fun note => String.eqb (name note) nm) GUITAR_NOTES with
  | Some note => Some note
  | None => nth_error GUITAR_NOTES k
  end.

Definition successNotes : list (option Note) :=
  [findOr "C4" 20; findOr "E4" 24; findOr "G4" 27; findOr "C5" 32].

(** [AudioUtils.playNote(successNotes[k])].  The four names are in the
    table, so no entry is [undefined]; on an [undefined] entry the property
    access would throw again from the [catch] clause of [playNote]. *)
Definition playSuccessNote (k : nat) : M unit :=
  match nth k successNotes None with
  | Some note => playNote note
  | None => fun w => (Thrown, w)
  end.

(** [playSuccessSound] of the training screen. *)
Definition playSuccessSound : M unit :=
  tryCatch
    (pause ;;
     tryFinally
       (playSuccessNote 0 ;; wait 150 ;;
        playSuccessNote 1 ;; wait 150 ;;
        playSuccessNote 2 ;; wait 150 ;;
        playSuccessNote 3 ;; wait 600)
       resume)
    resume.

End WithEnvironment.

Definition start (session0 : AudioUtils.t) : World := mkWorld session0 [] 0.

End Playback.

(** ** The training screen: sequence generation and the trial state machine *)

Module Training.
Import Notes.

(** [AppSettings], without the instrument. *)
Record Settings : Type := mkSettings {
  notesPerTurn : Z;
  maxInterval : Z;
  repetitionsRequired : Z;
  showSuccessIndicator : bool;
  showNotes : bool;
  totalSequences : Z;
  volumeThreshold : Q
}.

Definition defaultSettings : Settings :=
  mkSettings 1 5 3 true true 10 0.01.

(** The loop [for (i = 1; i < notesPerTurn; i++)] of
    [generateNewSequence], with [remaining] iterations left.  [rand i] is
    the draw used by iteration [i]; [None] stands for an [undefined] array
    element, which only a draw outside [0, 1) produces. *)
Fixpoint generateRest (maxInterval : Z) (rand : nat -> Q)
    (remaining i : nat) (newNotes : list Note) : option (list Note) :=
  match remaining with
  | O => Some newNotes
  | S remaining' =>
      match nth_error newNotes (i - 1) with
      | None => None
      | Some prevNote =>
          match getRandomNoteWithinInterval prevNote maxInterval (rand i) with
          | None => None
          | Some newNote =>
              generateRest maxInterval rand remaining' (S i)
                           (newNotes ++ [newNote])
          end
      end
  end.

(** [generateNewSequence]. *)
Definition generateNewSequence (settings : Settings) (rand : nat -> Q)
  : option (list Note) :=
  match getRandomNote (rand 0%nat) with
  | None => None
  | Some firstNote =>
      generateRest (maxInterval settings) rand
                   (Z.to_nat (notesPerTurn settings - 1)) 1 [firstNote]
  end.

(** Which object a delivered note is.  [findClosestNote] returns the
    entry of [GUITAR_NOTES] itself, so the loops with a window deliver the
    same object whenever they deliver the same entry; the simulated loop
    builds a new object literal on every emission. *)
Inductive Identity : Type :=
| TableEntry (index : nat)
| ObjectLiteral (serial : nat).

(** A note as the detection callback receives it: the object and what it
    holds. *)
Record NoteObject : Type := mkNoteObject {
  identity : Identity;
  content : Note
}.

Definition sameIdentity (a b : Identity) : bool :=
  match a, b with
  | TableEntry i, TableEntry j => (i =? j)%nat
  | ObjectLiteral i, ObjectLiteral j => (i =? j)%nat
  | _, _ => false
  end.

(** [Object.is] on two values of [detectedNote]: [null] is [null], and an
    object is only itself. *)
Definition sameValue (a b : option NoteObject) : bool :=
  match a, b with
  | None, None => true
  | Some x, Some y => sameIdentity (identity x) (identity y)
  | _, _ => false
  end.

(** The object that [findClosestNote] returns when it returns the entry at
    [index]. *)
Definition tableObject (index : nat) : option NoteObject :=
  option_map (mkNoteObject (TableEntry index)) (nth_error GUITAR_NOTES index).

(** The React state of [TrainingScreen] that the trial logic uses, with
    [currentSequence] of the application context. *)
Record State : Type := mkState {
  currentNotes : list Note;
  detectedNote : option NoteObject;
  notesPlayed : list nat;
  correctSequencesPlayed : Z;
  isTrainingComplete : bool;
  sequenceInProgress : bool;
  isInitializing : bool;
  currentSequence : Z
}.

(** A callback handed to [setTimeout]. *)
Inductive Callback : Type :=
| OnFinish
| NextSequence
| PlaySequenceWithNotes (notes : list Note).

(** What a handler does, in program order. *)
Inductive Action : Type :=
| ShowSuccessFlash
| SetNotesPlayed (played : list nat)
| SetCorrectSequencesPlayed (count : Z)
| SetSequenceInProgress (b : bool)
| PlaySuccessSound
| SetIsTrainingComplete (b : bool)
| IncrementSequence
| SetCurrentNotes (notes : list Note)
| SetTimeout (cb : Callback) (ms : Z).

(** [handleTrainingStepComplete]. *)
Definition handleTrainingStepComplete (settings : Settings) (st : State)
  : list Action :=
  [SetSequenceInProgress false; PlaySuccessSound] ++
  if ((0 <? totalSequences settings) &&
      (totalSequences settings <=? currentSequence st))%Z
  then [SetIsTrainingComplete true; SetTimeout OnFinish 3000]
  else [IncrementSequence; SetTimeout NextSequence 2000].

(** [handleSequenceCompleted]. *)
Definition handleSequenceCompleted (settings : Settings) (st : State)
  : list Action :=
  let newCount := (correctSequencesPlayed st + 1)%Z in
  SetCorrectSequencesPlayed newCount ::
  if (repetitionsRequired settings <=? newCount)%Z
  then handleTrainingStepComplete settings st
  else [SetNotesPlayed []].

(** The condition of the detection effect:
    [expectedNoteIndex < currentNotes.length &&
     detectedNote.name === currentNotes[expectedNoteIndex].name]. *)
Definition matchesExpected (st : State) (detected : Note) : bool :=
  let expectedNoteIndex := List.length (notesPlayed st) in
  (expectedNoteIndex <? List.length (currentNotes st))%nat &&
  match nth_error (currentNotes st) expectedNoteIndex with
  | Some expected => String.eqb (name detected) (name expected)
  | None => false
  end.

(** The body of the effect that depends on [detectedNote]. *)
Definition detectionEffect (settings : Settings) (st : State) : list Action :=
  match detectedNote st with
  | None => []
  | Some detected =>
      if isInitializing st then []
      else
        let expectedNoteIndex := List.length (notesPlayed st) in
        if matchesExpected st (content detected) then
          (if showSuccessIndicator settings then [ShowSuccessFlash] else []) ++
          [SetNotesPlayed (notesPlayed st ++ [expectedNoteIndex])] ++
          (if (Z.of_nat expectedNoteIndex =?
               Z.of_nat (List.length (currentNotes st)) - 1)%Z
           then handleSequenceCompleted settings st
           else [])
        else []
  end.

(** The callback of the two-second timer of [handleTrainingStepComplete]. *)
Definition nextSequence (settings : Settings) (rand : nat -> Q)
  : list Action :=
  match generateNewSequence settings rand with
  | None => []
  | Some newSequence =>
      [SetCurrentNotes newSequence;
       SetNotesPlayed [];
       SetCorrectSequencesPlayed 0;
       SetTimeout (PlaySequenceWithNotes newSequence) 200]
  end.

(** The state change of one action; the setters of one handler are
    applied in order. *)
Definition applyAction (st : State) (a : Action) : State :=
  match a with
  | SetNotesPlayed played =>
      mkState (currentNotes st) (detectedNote st) played
              (correctSequencesPlayed st) (isTrainingComplete st)
              (sequenceInProgress st) (isInitializing st) (currentSequence st)
  | SetCorrectSequencesPlayed count =>
      mkState (currentNotes st) (detectedNote st) (notesPlayed st)
              count (isTrainingComplete st)
              (sequenceInProgress st) (isInitializing st) (currentSequence st)
  | SetSequenceInProgress b =>
      mkState (currentNotes st) (detectedNote st) (notesPlayed st)
              (correctSequencesPlayed st) (isTrainingComplete st)
              b (isInitializing st) (currentSequence st)
  | SetIsTrainingComplete b =>
      mkState (currentNotes st) (detectedNote st) (notesPlayed st)
              (correctSequencesPlayed st) b
              (sequenceInProgress st) (isInitializing st) (currentSequence st)
  | IncrementSequence =>
      mkState (currentNotes st) (detectedNote st) (notesPlayed st)
              (correctSequencesPlayed st) (isTrainingComplete st)
              (sequenceInProgress st) (isInitializing st)
              (currentSequence st + 1)
  | SetCurrentNotes notes =>
      mkState notes (detectedNote st) (notesPlayed st)
              (correctSequencesPlayed st) (isTrainingComplete st)
              (sequenceInProgress st) (isInitializing st) (currentSequence st)
  | ShowSuccessFlash | PlaySuccessSound | SetTimeout _ _ => st
  end.

Definition applyActions (st : State) (acts : list Action) : State :=
  fold_left applyAction acts st.

(** [setDetectedNote(note)] by the detection callback. *)
Definition setDetectedNote (st : State) (note : option NoteObject) : State :=
  mkState (currentNotes st) note (notesPlayed st)
          (correctSequencesPlayed st) (isTrainingComplete st)
          (sequenceInProgress st) (isInitializing st) (currentSequence st).

(** One detection event: the callback calls [setDetectedNote(note)].  The
    effect has the dependency list [[detectedNote]]: when the value is the
    stored one under [Object.is], nothing changes and the effect does not
    run; otherwise the value is stored, the effect runs for it and React
    applies its state updates. *)
Definition detect (settings : Settings) (st : State)
    (note : option NoteObject) : State * list Action :=
  if sameValue (detectedNote st) note then (st, [])
  else
    let st1 := setDetectedNote st note in
    let acts := detectionEffect settings st1 in
    (applyActions st1 acts, acts).

(** A series of detection events; all actions taken, in order. *)
Fixpoint feed (settings : Settings) (st : State)
    (events : list (option NoteObject)) : State * list Action :=
  match events with
  | [] => (st, [])
  | e :: rest =>
      let '(st1, acts1) := detect settings st e in
      let '(st2, acts2) := feed settings st1 rest in
      (st2, acts1 ++ acts2)
  end.

(** The state once a sequence has been stored and initialisation is over. *)
Definition awaiting (notes : list Note) : State :=
  mkState notes None [] 0 false false false 1.

(** A sequence is generated by [nextSequence] only, after the timer that
    [handleTrainingStepComplete] sets. *)
Definition schedulesNextSequence (a : Action) : bool :=
  match a with
  | SetTimeout NextSequence _ => true
  | _ => false
  end.

End Training.

(** ** Predicates used to state the properties *)

Module Spec.
Import Notes AudioUtils.

(** The loop invariant of [findClosestNote]: the scanned prefix splits
    around the current best, with strictly larger differences before it
    and no smaller difference after it. *)
Definition first_closest (f : Q) (scanned : list Note) (best : Note * Q)
  : Prop :=
  snd best = difference f (fst best) /\
  exists before after,
    scanned = before ++ fst best :: after /\
    (forall m, In m before -> snd best < difference f m) /\
    (forall m, In m after -> snd best <= difference f m).

(** Frequencies increase strictly along the table and the gap between
    neighbours is at most twice the tolerance of the lower one. *)
Fixpoint wellSpaced (table : list Note) : bool :=
  match table with
  | a :: (b :: _) as rest =>
      Qltb (frequency a) (frequency b) &&
      Qleb (frequency b - frequency a) (2 * (frequency a * 0.05)) &&
      wellSpaced rest
  | _ => true
  end.

(** A note is an element of the table, found again under its own name. *)
Definition catalogued (n : Note) (k : nat) : Prop :=
  nth_error GUITAR_NOTES k = Some n /\ findIndex (name n) = Some k.

(** Every two neighbours of the sequence are table notes whose indices
    differ by at most [bound]. *)
Definition adjacentWithin (bound : Z) (notes : list Note) : Prop :=
  forall k a b,
    nth_error notes k = Some a -> nth_error notes (S k) = Some b ->
    exists ia ib,
      catalogued a ia /\ catalogued b ib /\
      (Z.abs (Z.of_nat ia - Z.of_nat ib) <= bound)%Z.

(** The table entry at [k] is found again at [k] under its name. *)
Definition indexedAt (k : nat) : bool :=
  match nth_error GUITAR_NOTES k with
  | Some n => match findIndex (name n) with
              | Some k' => (k' =? k)%nat
              | None => false
              end
  | None => false
  end.

(** What a tick may do to the window. *)
Inductive window_step (s s' : AudioUtils.t) : Prop :=
| window_kept : detectionHistory s' = detectionHistory s -> window_step s s'
| window_cleared : detectionHistory s' = [] -> window_step s s'
| window_pushed x :
    detectionHistory s' =
      pushHistory (historySize s) (detectionHistory s) x ->
    window_step s s'.

(** A browser with Web Audio and a granted microphone. *)
Definition webEnv : Env := mkEnv web true true true true.

(** A browser in which the microphone permission is denied. *)
Definition deniedWebEnv : Env := mkEnv web false true true true.

(** A frame of the Web loops: its RMS and the result of the first
    detector, the other two returning [null]. *)
Definition frame (volume : Q) (pitch : option Q) : TickInput :=
  mkInput volume pitch None None (fun _ => 0).

(** The session after [startPitchDetection] in [webEnv] and [n] ticks of
    the Web loop that each hear [pitch] at volume [0.02]. *)
Definition heard (pitch : Q) (n : nat) : AudioUtils.t :=
  fst (run (startPitchDetection webEnv initial)
           (repeat (WebLoop, frame 0.02 (Some pitch)) n)).

(** [resumePitchDetection] has a branch that reinstalls a timer. *)
Definition resumable (env : Env) (s : AudioUtils.t) : bool :=
  match OS env with
  | web => audioContext s && analyser s && recordingDataArray s
  | ios | android => true
  | _ => false
  end.

(** The session differs at most by [isInitialized] having become true. *)
Definition initOnly (s s' : AudioUtils.t) : Prop :=
  s' = s \/ s' = set_initialized s true.

(** The notes and settings of the two-note trial. *)
Definition C4 : Note := mkNote "C4" 261.63 "c4.mp3".
Definition E4 : Note := mkNote "E4" 329.63 "e4.mp3".

Definition trialSettings : Training.Settings :=
  Training.mkSettings 2 12 2 true true 1 0.01.

(** The same two notes as [findClosestNote] delivers them: the entries 20
    and 24 of the table. *)
Definition heardC4 : Training.NoteObject :=
  Training.mkNoteObject (Training.TableEntry 20) C4.
Definition heardE4 : Training.NoteObject :=
  Training.mkNoteObject (Training.TableEntry 24) E4.

(** Every event delivers another value than the one before it, starting
    from the stored one: each of them makes the detection effect run. *)
Fixpoint changing (stored : option Training.NoteObject)
    (events : list (option Training.NoteObject)) : bool :=
  match events with
  | [] => true
  | e :: rest => negb (Training.sameValue stored e) && changing e rest
  end.

(** What a trial has become once the last required repetition is
    complete, from the completion flag [tc] and the sequence counter [cs]
    it started with. *)
Definition completedFrom (settings : Training.Settings) (notes : list Note)
    (tc : bool) (cs : Z) (st : Training.State) : Prop :=
  Training.correctSequencesPlayed st = Training.repetitionsRequired settings /\
  Training.notesPlayed st = seq 0 (List.length notes) /\
  Training.currentNotes st = notes /\
  Training.isTrainingComplete st
    = (((0 <? Training.totalSequences settings) &&
        (Training.totalSequences settings <=? cs))%Z || tc) /\
  Training.currentSequence st
    = (if ((0 <? Training.totalSequences settings) &&
           (Training.totalSequences settings <=? cs))%Z
       then cs else cs + 1)%Z.

(** The names of the notes among the events, silence left out. *)
Definition heardNames (events : list (option Training.NoteObject))
  : list string :=
  flat_map (fun e => match e with
                     | Some d => [name (Training.content d)]
                     | None => []
                     end) events.

End Spec.

(** ** Further predicates *)

Module SpecMore.
Import Notes AudioUtils.

(** The smallest window and the variance bound under which a loop locks
    a note; the simulated loop has no window. *)
Definition lockRule (tm : Timer) : option (nat * Q) :=
  match tm with
  | WebLoop | ResumedWebLoop | NativeLoop => Some (3%nat, 5)
  | EnhancedLoop => Some (2%nat, 10)
  | SimulatedLoop _ => None
  end.

(** The volume a loop with a window reports on a tick. *)
Definition reportedVolume (tm : Timer) (i : TickInput) : Q :=
  match tm with
  | NativeLoop => draw i 0%nat * 0.1
  | EnhancedLoop => draw i 0%nat * 0.2 + 0.05
  | _ => rms i
  end.

(** The entries at [i] and [j] of the table are the same entry, or their
    frequencies are more than 4% of the second one apart. *)
Definition apart (i j : nat) : bool :=
  (i =? j)%nat ||
  match nth_error GUITAR_NOTES i, nth_error GUITAR_NOTES j with
  | Some a, Some b =>
      Qltb (0.04 * frequency b) (Qabs (frequency a - frequency b))
  | _, _ => false
  end.

(** The Web resources that the Web callbacks test are present. *)
Definition webReady (s : AudioUtils.t) : bool :=
  analyser s && recordingDataArray s && pitchDetector s.

(** The files handed to [SoundManager.playSound], in order, whether the
    sound played or failed. *)
Definition soundsOf (events : list Playback.Event) : list string :=
  flat_map (fun e => match e with
                     | Playback.SoundPlayed file
                     | Playback.SoundFailed file => [file]
                     | _ => []
                     end) events.

(** A playback computation that returns normally from every world. *)
Definition neverThrows {A} (m : Playback.M A) : Prop :=
  forall w, exists a w', m w = (Playback.Returned a, w').

(** An iPhone with a granted microphone. *)
Definition iosEnv : Env := mkEnv ios true false false true.

End SpecMore.

(** ** constants/AppContext.tsx *)

Module AppContext.

Inductive InstrumentType : Type := synth | guitar.

Record AppSettings : Type := mkAppSettings {
  notesPerTurn : Z;
  maxInterval : Z;
  repetitionsRequired : Z;
  showSuccessIndicator : bool;
  showNotes : bool;
  totalSequences : Z;
  instrument : InstrumentType;
  volumeThreshold : Q
}.

Definition defaultSettings : AppSettings :=
  mkAppSettings 1 5 3 true true 10 guitar 0.01.

(** [Partial<AppSettings>]: an absent key is [None]. *)
Record PartialSettings : Type := mkPartial {
  newNotesPerTurn : option Z;
  newMaxInterval : option Z;
  newRepetitionsRequired : option Z;
  newShowSuccessIndicator : option bool;
  newShowNotes : option bool;
  newTotalSequences : option Z;
  newInstrument : option InstrumentType;
  newVolumeThreshold : option Q
}.

Definition orKeep {A} (new : option A) (prev : A) : A :=
  match new with Some v => v | None => prev end.

(** [updateSettings]: [{ ...prev, ...newSettings }]. *)
Definition updateSettings (prev : AppSettings) (newSettings : PartialSettings)
  : AppSettings :=
  mkAppSettings
    (orKeep (newNotesPerTurn newSettings) (notesPerTurn prev))
    (orKeep (newMaxInterval newSettings) (maxInterval prev))
    (orKeep (newRepetitionsRequired newSettings) (repetitionsRequired prev))
    (orKeep (newShowSuccessIndicator newSettings) (showSuccessIndicator prev))
    (orKeep (newShowNotes newSettings) (showNotes prev))
    (orKeep (newTotalSequences newSettings) (totalSequences prev))
    (orKeep (newInstrument newSettings) (instrument prev))
    (orKeep (newVolumeThreshold newSettings) (volumeThreshold prev)).

(** [resetSettings]. *)
Definition resetSettings (prev : AppSettings) : AppSettings := defaultSettings.

(** [incrementSequence] and [resetSequence] on [currentSequence]. *)
Definition incrementSequence (currentSequence : Z) : Z :=
  (currentSequence + 1)%Z.
Definition resetSequence (currentSequence : Z) : Z := 1%Z.

(** The settings as the training screen reads them. *)
Definition forTraining (s : AppSettings) : Training.Settings :=
  Training.mkSettings (notesPerTurn s) (maxInterval s)
    (repetitionsRequired s) (showSuccessIndicator s) (showNotes s)
    (totalSequences s) (volumeThreshold s).

End AppContext.

(** ** The settings screen *)

Module SettingsScreen.
Import AppContext.

(** The local state of the form: the four number inputs hold text. *)
Record Form : Type := mkForm {
  notesPerTurnText : string;
  maxIntervalText : string;
  repetitionsRequiredText : string;
  totalSequencesText : string;
  selectedInstrument : InstrumentType;
  showSuccess : bool;
  threshold : Q
}.

Section WithParseInt.

(** The global [parseInt]: [None] is [NaN]. *)
Variable parseInt : string -> option Z.

(** [handleNumberChange(value, setter, min, max)]: the text the input
    holds afterwards, [current] being the text it held. *)
Definition handleNumberChange
    (value current : string) (min : Z) (max : option Z) : string :=
  if String.eqb value "" then value
  else match parseInt value with
       | Some numValue =>
           if (min <=? numValue)%Z &&
              match max with
              | None => true
              | Some m => (numValue <=? m)%Z
              end
           then value else current
       | None => current
       end.

(** [parseInt(text) || fallback]: [NaN] and [0] are falsy. *)
Definition parsedOr (text : string) (fallback : Z) : Z :=
  match parseInt text with
  | Some 0%Z | None => fallback
  | Some n => n
  end.

(** What the user does on the form. *)
Inductive Edit : Type :=
| TypeNotesPerTurn (value : string)
| TypeMaxInterval (value : string)
| TypeRepetitionsRequired (value : string)
| TypeTotalSequences (value : string)
| PickInstrument (value : InstrumentType)
| SwitchSuccessIndicator (value : bool)
| SlideVolumeThreshold (value : Q).

Definition applyEdit (f : Form) (e : Edit) : Form :=
  match e with
  | TypeNotesPerTurn value =>
      mkForm (handleNumberChange value (notesPerTurnText f) 1 (Some 5%Z))
             (maxIntervalText f) (repetitionsRequiredText f)
             (totalSequencesText f) (selectedInstrument f) (showSuccess f)
             (threshold f)
  | TypeMaxInterval value =>
      mkForm (notesPerTurnText f)
             (handleNumberChange value (maxIntervalText f) 1 (Some 12%Z))
             (repetitionsRequiredText f)
             (totalSequencesText f) (selectedInstrument f) (showSuccess f)
             (threshold f)
  | TypeRepetitionsRequired value =>
      mkForm (notesPerTurnText f) (maxIntervalText f)
             (handleNumberChange value (repetitionsRequiredText f) 1
                                 (Some 10%Z))
             (totalSequencesText f) (selectedInstrument f) (showSuccess f)
             (threshold f)
  | TypeTotalSequences value =>
      mkForm (notesPerTurnText f) (maxIntervalText f)
             (repetitionsRequiredText f)
             (handleNumberChange value (totalSequencesText f) 0 (Some 100%Z))
             (selectedInstrument f) (showSuccess f) (threshold f)
  | PickInstrument value =>
      mkForm (notesPerTurnText f) (maxIntervalText f)
             (repetitionsRequiredText f) (totalSequencesText f)
             value (showSuccess f) (threshold f)
  | SwitchSuccessIndicator value =>
      mkForm (notesPerTurnText f) (maxIntervalText f)
             (repetitionsRequiredText f) (totalSequencesText f)
             (selectedInstrument f) value (threshold f)
  | SlideVolumeThreshold value =>
      mkForm (notesPerTurnText f) (maxIntervalText f)
             (repetitionsRequiredText f) (totalSequencesText f)
             (selectedInstrument f) (showSuccess f) value
  end.

(** The argument of [updateSettings] in [handleStart]. *)
Definition handleStart (f : Form) : PartialSettings :=
  mkPartial
    (Some (parsedOr (notesPerTurnText f) 1))
    (Some (parsedOr (maxIntervalText f) 3))
    (Some (parsedOr (repetitionsRequiredText f) 3))
    (Some (showSuccess f))
    None
    (Some (parsedOr (totalSequencesText f) 0))
    (Some (selectedInstrument f))
    (Some (threshold f)).

(** The text is empty or parses to a number between the bounds. *)
Definition acceptable (min max : Z) (text : string) : Prop :=
  text = ""%string \/
  exists n, parseInt text = Some n /\ (min <= n <= max)%Z.

Definition acceptableForm (f : Form) : Prop :=
  acceptable 1 5 (notesPerTurnText f) /\
  acceptable 1 12 (maxIntervalText f) /\
  acceptable 1 10 (repetitionsRequiredText f) /\
  acceptable 0 100 (totalSequencesText f).

End WithParseInt.

End SettingsScreen.

(** ** utils/SoundImporter.ts *)

Module SoundManager.
Import AppContext.

(** [s.endsWith(suffix)]. *)
Fixpoint endsWith (s suffix : string) : bool :=
  String.eqb s suffix ||
  match s with
  | EmptyString => false
  | String _ rest => endsWith rest suffix
  end.

(** [s.split('/')[0]]: the text before the first slash. *)
Fixpoint beforeSlash (s : string) : string :=
  match s with
  | EmptyString => EmptyString
  | String c rest =>
      if Ascii.eqb c "/"%char then EmptyString
      else String c (beforeSlash rest)
  end.

(** [s.replace('#', '-')]: the first [#] only. *)
Fixpoint replaceFirstSharp (s : string) : string :=
  match s with
  | EmptyString => EmptyString
  | String c rest =>
      if Ascii.eqb c "#"%char then String "-"%char rest
      else String c (replaceFirstSharp rest)
  end.

(** [getNoteFileName]; [toLowerCase] as in [AudioUtils], on ASCII. *)
Definition getNoteFileName (noteName : string) : string :=
  if endsWith noteName ".mp3" then noteName
  else
    let parts := beforeSlash noteName in
    let cleanName := replaceFirstSharp (AudioUtils.toLowerCase parts) in
    (cleanName ++ ".mp3")%string.

(** The [case] labels of [getSpecificSoundAsset]; each returns the synth
    sample of the same name. *)
Definition synthSamples : list string := [
  "a2.mp3"; "a-2.mp3"; "b2.mp3"; "e2.mp3"; "f2.mp3"; "f-2.mp3"; "g2.mp3";
  "g-2.mp3";
  "a3.mp3"; "a-3.mp3"; "b3.mp3"; "c3.mp3"; "c-3.mp3"; "d3.mp3"; "d-3.mp3";
  "e3.mp3"; "f3.mp3"; "f-3.mp3"; "g3.mp3"; "g-3.mp3";
  "a4.mp3"; "a-4.mp3"; "b4.mp3"; "c4.mp3"; "c-4.mp3"; "d4.mp3"; "d-4.mp3";
  "e4.mp3"; "f4.mp3"; "f-4.mp3"; "g4.mp3"; "g-4.mp3";
  "a5.mp3"; "a-5.mp3"; "b5.mp3"; "c5.mp3"; "c-5.mp3"; "d5.mp3"; "d-5.mp3";
  "e5.mp3"; "f5.mp3"; "f-5.mp3"; "g5.mp3"; "g-5.mp3";
  "c6.mp3"
]%string.

(** [getSpecificSoundAsset]: the synth sample that is loaded, by its file
    name under [assets/sounds/synth]. *)
Definition getSpecificSoundAsset
    (currentInstrument : InstrumentType) (noteName : string) : string :=
  let fileName := getNoteFileName noteName in
  match currentInstrument with
  | synth =>
      if existsb (String.eqb fileName) synthSamples then fileName
      else "c4.mp3"%string
  | guitar => "c4.mp3"%string
  end.

(** The sound cache: the keys in insertion order (the order of
    [Object.keys]) with their [lastUsed] time. *)
Definition Cache : Type := list (string * Z).

Definition cached (key : string) (cache : Cache) : bool :=
  existsb (fun entry => String.eqb (fst entry) key) cache.

(** [delete this.soundCache[key]]. *)
Definition deleteKey (key : string) (cache : Cache) : Cache :=
  filter (fun entry => negb (String.eqb (fst entry) key)) cache.

(** [keys.sort((a, b) => lastUsed[a] - lastUsed[b])]: ascending and
    stable.  Each key is inserted into the sorted rest of the keys after
    it, in front of the first key that is not older: keys of equal
    [lastUsed] keep the order they had. *)
Fixpoint insertByLastUsed (entry : string * Z) (sorted : Cache) : Cache :=
  match sorted with
  | [] => [entry]
  | e :: rest =>
      if (snd entry <=? snd e)%Z then entry :: sorted
      else e :: insertByLastUsed entry rest
  end.

Definition sortByLastUsed (cache : Cache) : Cache :=
  fold_right insertByLastUsed [] cache.

(** The keys the loop [for (i = 0; i < keys.length / 2; i++)] deletes. *)
Definition victims (cache : Cache) : list string :=
  map fst (firstn ((List.length cache + 1) / 2) (sortByLastUsed cache)).

(** [manageCacheSize]. *)
Definition manageCacheSize (cacheLimit : nat) (cache : Cache) : Cache :=
  if (cacheLimit <=? List.length cache)%nat
  then fold_left (fun c key => deleteKey key c) (victims cache) cache
  else cache.

(** [this.soundCache[key].lastUsed = now] on a cached key. *)
Definition touch (key : string) (now : Z) (cache : Cache) : Cache :=
  map (fun entry => if String.eqb (fst entry) key then (key, now) else entry)
      cache.

(** What [playSound] does to the cache: a cached sound is stamped; a new
    one makes room first and is stored once [createAsync] has succeeded
    ([loaded]). *)
Definition cacheAfterPlay
    (cacheLimit : nat) (cache : Cache) (key : string) (now : Z)
    (loaded : bool) : Cache :=
  if cached key cache then touch key now cache
  else
    let cache := manageCacheSize cacheLimit cache in
    if loaded then cache ++ [(key, now)] else cache.

(** [setInstrument] on the pair of instrument and cache. *)
Definition setInstrument
    (state : InstrumentType * Cache) (instrument : InstrumentType)
  : InstrumentType * Cache :=
  match fst state, instrument with
  | synth, synth | guitar, guitar => state
  | _, _ => (instrument, [])
  end.

(** The entries are in ascending order of [lastUsed]. *)
Definition oldestFirst (cache : Cache) : Prop :=
  StronglySorted (fun a b => (snd a <= snd b)%Z) cache.

(** The key under which [playSound] caches a note. *)
Definition cacheKey (currentInstrument : InstrumentType) (noteName : string)
  : string :=
  ((match currentInstrument with synth => "synth" | guitar => "guitar" end)
   ++ "_" ++ noteName)%string.

End SoundManager.

(** * Properties *)

(** ** Boolean comparisons *)

Lemma Qltb_lt x y : Qltb x y = true <-> x < y.
Proof. unfold Qltb, Qlt. apply Z.ltb_lt. Qed.

Lemma Qltb_ge x y : Qltb x y = false <-> y <= x.
Proof. unfold Qltb, Qle. rewrite Z.ltb_ge. reflexivity. Qed.

Lemma Qleb_le x y : Qleb x y = true <-> x <= y.
Proof. unfold Qleb, Qle. apply Z.leb_le. Qed.

Lemma Qleb_gt x y : Qleb x y = false <-> y < x.
Proof. unfold Qleb, Qlt. rewrite Z.leb_gt. reflexivity. Qed.

Ltac qbool :=
  repeat match goal with
  | H : Qltb _ _ = true |- _ => apply Qltb_lt in H
  | H : Qltb _ _ = false |- _ => apply Qltb_ge in H
  | H : Qleb _ _ = true |- _ => apply Qleb_le in H
  | H : Qleb _ _ = false |- _ => apply Qleb_gt in H
  end.

(** ** The note table *)

Section NoteTable.
Import Notes Spec.

Lemma scan_step_first_closest f scanned best n :
  first_closest f scanned best ->
  first_closest f (scanned ++ [n]) (scan_step f best n).
Proof.
  intros [Hd (before & after & Hsplit & Hb & Ha)].
  unfold scan_step. destruct (Qltb (difference f n) (snd best)) eqn:E; qbool.
  - split; [reflexivity|]. exists scanned, []. cbn [fst snd].
    split; [reflexivity|]. split; [|intros m []].
    intros m Hm. subst scanned. apply in_app_or in Hm.
    destruct Hm as [Hm|[<-|Hm]].
    + specialize (Hb m Hm). lra.
    + rewrite <- Hd. exact E.
    + specialize (Ha m Hm). lra.
  - split; [exact Hd|]. exists before, (after ++ [n]).
    split; [subst scanned; rewrite <- app_assoc; reflexivity|].
    split; [exact Hb|].
    intros m Hm. apply in_app_or in Hm. destruct Hm as [Hm|[<-|[]]]; auto.
Qed.

Lemma fold_scan_first_closest f rest :
  forall scanned best,
    first_closest f scanned best ->
    first_closest f (scanned ++ rest) (fold_left (scan_step f) rest best).
Proof.
  induction rest as [|n rest IH]; intros scanned best H; cbn [fold_left].
  - rewrite app_nil_r. exact H.
  - replace (scanned ++ n :: rest) with ((scanned ++ [n]) ++ rest)
      by (rewrite <- app_assoc; reflexivity).
    apply IH, scan_step_first_closest, H.
Qed.

Lemma scan_first_closest f first rest :
  first_closest f (first :: rest) (scan f first rest).
Proof.
  apply (fold_scan_first_closest f rest [first]).
  split; [reflexivity|]. exists [], []. cbn.
  repeat split; intros m [].
Qed.

Lemma first_closest_minimal f table best :
  first_closest f table best ->
  In (fst best) table /\
  forall m, In m table -> difference f (fst best) <= difference f m.
Proof.
  intros [Hd (before & after & -> & Hb & Ha)]. split.
  - apply in_or_app. right. left. reflexivity.
  - intros m Hm. rewrite <- Hd. apply in_app_or in Hm.
    destruct Hm as [Hm|[<-|Hm]].
    + apply Qlt_le_weak, Hb, Hm.
    + rewrite Hd. apply Qle_refl.
    + apply Ha, Hm.
Qed.

Example findClosestNote_A4 :
  findClosestNote 440 = Some (mkNote "A4" 440.00 "a4.mp3").
Proof. reflexivity. Qed.

Example findClosestNote_between :
  findClosestNote 450 = Some (mkNote "A4" 440.00 "a4.mp3") /\
  findClosestNote 455 = Some (mkNote "A#4/Bb4" 466.16 "a-4.mp3").
Proof. split; reflexivity. Qed.

Example findClosestNote_out_of_tolerance :
  findClosestNote 60 = None /\ findClosestNote 1100 = None.
Proof. split; reflexivity. Qed.

Lemma findClosestIn_positive table f :
  table <> [] -> 0 < f ->
  exists n,
    In n table /\
    (forall m, In m table -> difference f n <= difference f m) /\
    findClosestIn table f =
      if Qltb (frequency n * 0.05) (difference f n) then None else Some n.
Proof.
  intros Hne Hf. destruct table as [|first rest]; [contradiction|].
  unfold findClosestIn. apply Qleb_gt in Hf. rewrite Hf.
  pose proof (scan_first_closest f first rest) as H.
  destruct (scan f first rest) as [closestNote minDifference].
  pose proof (first_closest_minimal _ _ _ H) as [Hin Hmin].
  destruct H as [Hd _]. cbn [fst snd] in *. subst minDifference.
  exists closestNote. split; [exact Hin|]. split; [exact Hmin|reflexivity].
Qed.

(** C1.  A frequency that is zero or negative resolves to no note.  A
    positive frequency resolves to a note [n] of the table whose
    difference [|f - n.frequency|] is minimal over the table, unless that
    difference exceeds [0.05 * n.frequency], in which case it resolves to
    no note. *)
Theorem findClosestNote_spec (f : Q) :
  (f <= 0 -> findClosestNote f = None) /\
  (0 < f ->
   exists n,
     In n GUITAR_NOTES /\
     (forall m, In m GUITAR_NOTES -> difference f n <= difference f m) /\
     findClosestNote f =
       if Qltb (frequency n * 0.05) (difference f n) then None else Some n).
Proof.
  split; intros Hf.
  - unfold findClosestNote, findClosestIn.
    apply Qleb_le in Hf. rewrite Hf. reflexivity.
  - apply findClosestIn_positive; [discriminate|exact Hf].
Qed.

Lemma findClosestNote_spec_witness :
  findClosestNote 0 = None /\
  exists n,
    In n GUITAR_NOTES /\
    (forall m, In m GUITAR_NOTES -> difference 440 n <= difference 440 m) /\
    findClosestNote 440 =
      if Qltb (frequency n * 0.05) (difference 440 n) then None else Some n.
Proof.
  split.
  - apply (proj1 (findClosestNote_spec 0)). apply Qle_refl.
  - apply (proj2 (findClosestNote_spec 440)). reflexivity.
Defined.

Lemma Qabs_cases (x : Q) :
  (0 <= x /\ Qabs x == x) \/ (x <= 0 /\ Qabs x == - x).
Proof.
  apply Qabs_case; intros H; [left|right]; split;
    solve [exact H | reflexivity].
Qed.

(** Case analysis on the sign under every [difference] in sight. *)
Ltac split_differences :=
  unfold difference in *;
  repeat match goal with
  | H : context [Qabs ?x] |- _ =>
      let A := fresh "A" in
      destruct (Qabs_cases x) as [[? A]|[? A]];
      generalize dependent (Qabs x); intros
  | |- context [Qabs ?x] =>
      let A := fresh "A" in
      destruct (Qabs_cases x) as [[? A]|[? A]];
      generalize dependent (Qabs x); intros
  end.

Lemma wellSpaced_tail a table :
  wellSpaced (a :: table) = true -> wellSpaced table = true.
Proof.
  destruct table as [|b table]; [reflexivity|]. cbn [wellSpaced].
  intros H. apply andb_prop in H. apply H.
Qed.

Lemma wellSpaced_head_lt a table m :
  wellSpaced (a :: table) = true -> In m table -> frequency a < frequency m.
Proof.
  revert a. induction table as [|b table IH]; intros a H Hm; [destruct Hm|].
  pose proof (wellSpaced_tail _ _ H) as Ht.
  cbn [wellSpaced] in H. apply andb_prop in H. destruct H as [H _].
  apply andb_prop in H. destruct H as [Hlt _]. qbool.
  destruct Hm as [<-|Hm]; [exact Hlt|].
  specialize (IH b Ht Hm). lra.
Qed.

Lemma wellSpaced_split before n after m :
  wellSpaced (before ++ n :: after) = true ->
  In m after -> frequency n < frequency m.
Proof.
  induction before as [|b before IH]; cbn [app]; intros H Hm.
  - eapply wellSpaced_head_lt; eassumption.
  - apply IH; [eapply wellSpaced_tail; eassumption|exact Hm].
Qed.

Lemma wellSpaced_nth_lt table :
  forall i j a b,
    wellSpaced table = true -> (i < j)%nat ->
    nth_error table i = Some a -> nth_error table j = Some b ->
    frequency a < frequency b.
Proof.
  induction table as [|c table IH]; intros i j a b H Hij Ha Hb.
  - destruct i; discriminate.
  - destruct j as [|j]; [lia|]. cbn [nth_error] in Hb.
    destruct i as [|i]; cbn [nth_error] in Ha.
    + injection Ha as <-. eapply wellSpaced_head_lt; [exact H|].
      eapply nth_error_In, Hb.
    + eapply (IH i j); eauto using wellSpaced_tail. lia.
Qed.

Lemma wellSpaced_nth_gap table :
  forall i a b,
    wellSpaced table = true ->
    nth_error table i = Some a -> nth_error table (S i) = Some b ->
    frequency b - frequency a <= 2 * (frequency a * 0.05).
Proof.
  induction table as [|c table IH]; intros i a b H Ha Hb.
  - destruct i; discriminate.
  - destruct i as [|i]; cbn [nth_error] in Ha, Hb.
    + injection Ha as <-. destruct table as [|d table]; [discriminate|].
      cbn [nth_error] in Hb. injection Hb as <-.
      cbn [wellSpaced] in H. apply andb_prop in H. destruct H as [H _].
      apply andb_prop in H. destruct H as [_ H]. qbool. exact H.
    + eapply (IH i); eauto using wellSpaced_tail.
Qed.

Lemma GUITAR_NOTES_wellSpaced : wellSpaced GUITAR_NOTES = true.
Proof. vm_compute. reflexivity. Qed.

Lemma findClosestIn_tie table f i j ni nj :
  wellSpaced table = true ->
  0 < f ->
  (i < j)%nat ->
  nth_error table i = Some ni ->
  nth_error table j = Some nj ->
  difference f ni == difference f nj ->
  (forall m, In m table -> difference f ni <= difference f m) ->
  findClosestIn table f = Some ni.
Proof.
  intros Hws Hf Hij Hi Hj Htie Hmin.
  pose proof (wellSpaced_nth_lt _ _ _ _ _ Hws Hij Hi Hj) as Hlt.
  assert (exists q, nth_error table (S i) = Some q) as [q Hq].
  { destruct (nth_error table (S i)) eqn:E; [eauto|].
    apply nth_error_None in E.
    assert (j < List.length table)%nat
      by (apply nth_error_Some; congruence). lia. }
  pose proof (wellSpaced_nth_gap _ _ _ _ Hws Hi Hq) as Hgap.
  pose proof (wellSpaced_nth_lt _ i (S i) _ _ Hws (Nat.lt_succ_diag_r i) Hi Hq)
    as Hiq.
  pose proof (Hmin q (nth_error_In _ _ Hq)) as Hqmin.
  destruct table as [|first rest]; [destruct i; discriminate|].
  unfold findClosestIn. apply Qleb_gt in Hf. rewrite Hf.
  pose proof (scan_first_closest f first rest) as H.
  destruct (scan f first rest) as [n d].
  pose proof (first_closest_minimal _ _ _ H) as [Hin Hn].
  destruct H as [Hd (before & after & Hsplit & Hb & Ha)].
  cbn [fst snd] in *. subst d.
  pose proof (Hn ni (nth_error_In _ _ Hi)) as Hn_i.
  pose proof (Hmin n Hin) as Hi_n.
  assert (n = ni) as ->.
  { pose proof (nth_error_In _ _ Hi) as Hini. rewrite Hsplit in Hini.
    apply in_app_or in Hini. destruct Hini as [Hini|[E|Hini]].
    - specialize (Hb ni Hini). lra.
    - exact E.
    - rewrite Hsplit in Hws.
      pose proof (wellSpaced_split _ _ _ _ Hws Hini) as Hni.
      exfalso. clear - Hni Hlt Htie Hn_i Hi_n.
      split_differences; lra. }
  assert (difference f ni <= frequency ni * 0.05) as Htol.
  { clear - Hlt Htie Hgap Hiq Hqmin. split_differences; lra. }
  apply Qltb_ge in Htol. rewrite Htol. reflexivity.
Qed.

(** C10.  When two notes of the table are at the same, minimal
    difference from a positive frequency, [findClosestNote] returns the one
    with the smaller index. *)
Theorem findClosestNote_tie_lowest_index (f : Q) (i j : nat) (ni nj : Note) :
  0 < f ->
  (i < j)%nat ->
  nth_error GUITAR_NOTES i = Some ni ->
  nth_error GUITAR_NOTES j = Some nj ->
  difference f ni == difference f nj ->
  (forall m, In m GUITAR_NOTES -> difference f ni <= difference f m) ->
  findClosestNote f = Some ni.
Proof.
  intros. eapply findClosestIn_tie; eauto using GUITAR_NOTES_wellSpaced.
Qed.

Lemma forallb_closest f n table :
  forallb (fun m => Qleb (difference f n) (difference f m)) table = true ->
  forall m, In m table -> difference f n <= difference f m.
Proof.
  intros H m Hm. rewrite forallb_forall in H. apply Qleb_le, H, Hm.
Qed.

Lemma findClosestNote_tie_lowest_index_witness :
  difference 84.86 (mkNote "E2" 82.41 "e2.mp3") ==
  difference 84.86 (mkNote "F2" 87.31 "f2.mp3") /\
  findClosestNote 84.86 = Some (mkNote "E2" 82.41 "e2.mp3").
Proof.
  split; [reflexivity|].
  apply (findClosestNote_tie_lowest_index 84.86 0 1
           (mkNote "E2" 82.41 "e2.mp3") (mkNote "F2" 87.31 "f2.mp3")).
  - reflexivity.
  - lia.
  - reflexivity.
  - reflexivity.
  - reflexivity.
  - apply forallb_closest. vm_compute. reflexivity.
Defined.

End NoteTable.

(** ** The sequence generator *)

Section SequenceGenerator.
Import Notes Spec Training.

Lemma floor_of_draw (r : Q) (n : Z) :
  0 <= r -> r < 1 -> (0 < n)%Z ->
  (0 <= Qfloor (r * inject_Z n) < n)%Z.
Proof.
  intros H0 H1 Hn.
  assert (0 < inject_Z n) as Hn'
    by (change 0 with (inject_Z 0); rewrite <- Zlt_Qlt; exact Hn).
  split.
  - change 0%Z with (Qfloor 0). apply Qfloor_resp_le. nra.
  - rewrite Zlt_Qlt. eapply Qle_lt_trans; [apply Qfloor_le|]. nra.
Qed.

Lemma indexedAt_all :
  forallb indexedAt (seq 0 (List.length GUITAR_NOTES)) = true.
Proof. vm_compute. reflexivity. Qed.

Lemma noteAt_catalogued (i : Z) :
  (0 <= i < Z.of_nat (List.length GUITAR_NOTES))%Z ->
  exists n, noteAt i = Some n /\ catalogued n (Z.to_nat i).
Proof.
  intros Hi. unfold noteAt.
  destruct (i <? 0)%Z eqn:E; [apply Z.ltb_lt in E; lia|].
  pose proof indexedAt_all as H. rewrite forallb_forall in H.
  specialize (H (Z.to_nat i)). unfold indexedAt in H.
  destruct (nth_error GUITAR_NOTES (Z.to_nat i)) as [n|] eqn:En.
  - exists n. split; [reflexivity|]. split; [exact En|].
    destruct (findIndex (name n)) as [k|].
    + f_equal. apply Nat.eqb_eq, H, in_seq. lia.
    + discriminate H. apply in_seq. lia.
  - apply nth_error_None in En. lia.
Qed.

Lemma catalogued_bound n k :
  catalogued n k -> (k < List.length GUITAR_NOTES)%nat.
Proof. intros [H _]. apply nth_error_Some. congruence. Qed.

Lemma getRandomNote_catalogued (r : Q) :
  0 <= r -> r < 1 -> exists n k, getRandomNote r = Some n /\ catalogued n k.
Proof.
  intros H0 H1. unfold getRandomNote.
  destruct (noteAt_catalogued
              (Qfloor (r * inject_Z (Z.of_nat (List.length GUITAR_NOTES)))))
    as (n & Hn & Hc).
  - apply floor_of_draw; [assumption..|]. cbn. lia.
  - eauto.
Qed.

Lemma getRandomNoteWithinInterval_catalogued ref kref bound r :
  catalogued ref kref -> (0 <= bound)%Z -> 0 <= r -> r < 1 ->
  exists n k,
    getRandomNoteWithinInterval ref bound r = Some n /\ catalogued n k /\
    (Z.abs (Z.of_nat kref - Z.of_nat k) <= bound)%Z.
Proof.
  intros Href Hb H0 H1. pose proof (catalogued_bound _ _ Href) as Hk.
  unfold getRandomNoteWithinInterval. destruct Href as [_ ->].
  set (len := Z.of_nat (List.length GUITAR_NOTES)) in *.
  set (minIndex := Z.max 0 (Z.of_nat kref - bound)).
  set (maxIndex := Z.min (len - 1) (Z.of_nat kref + bound)).
  assert (0 <= minIndex <= Z.of_nat kref)%Z by (unfold minIndex; lia).
  assert (Z.of_nat kref <= maxIndex <= len - 1)%Z
    by (unfold maxIndex, len; lia).
  pose proof (floor_of_draw r (maxIndex - minIndex + 1) H0 H1 ltac:(lia))
    as Hfloor.
  set (offset := Qfloor _) in *.
  destruct (noteAt_catalogued (minIndex + offset)) as (n & Hn & Hc);
    [fold len; lia|].
  exists n, (Z.to_nat (minIndex + offset)).
  split; [exact Hn|]. split; [exact Hc|].
  unfold minIndex, maxIndex in *. lia.
Qed.

Lemma adjacentWithin_snoc bound notes a ka b kb :
  adjacentWithin bound notes ->
  nth_error notes (List.length notes - 1) = Some a ->
  catalogued a ka -> catalogued b kb ->
  (Z.abs (Z.of_nat ka - Z.of_nat kb) <= bound)%Z ->
  adjacentWithin bound (notes ++ [b]).
Proof.
  intros Hadj Hlast Ha Hb Hd k x y Hx Hy.
  assert (k < List.length notes)%nat as Hk.
  { assert (S k < List.length (notes ++ [b]))%nat
      by (apply nth_error_Some; congruence).
    rewrite length_app in H. cbn in H. lia. }
  rewrite nth_error_app1 in Hx by exact Hk.
  destruct (Nat.eq_dec (S k) (List.length notes)) as [E|E].
  - rewrite nth_error_app2 in Hy by lia.
    replace (S k - List.length notes)%nat with 0%nat in Hy by lia.
    injection Hy as <-.
    replace (List.length notes - 1)%nat with k in Hlast by lia.
    rewrite Hlast in Hx. injection Hx as <-. eauto.
  - rewrite nth_error_app1 in Hy by lia. eapply Hadj; eassumption.
Qed.

Lemma generateRest_spec bound rand :
  (0 <= bound)%Z -> (forall k, 0 <= rand k /\ rand k < 1) ->
  forall remaining i newNotes,
    List.length newNotes = i -> (1 <= i)%nat ->
    Forall (fun n => exists k, catalogued n k) newNotes ->
    adjacentWithin bound newNotes ->
    exists notes,
      generateRest bound rand remaining i newNotes = Some notes /\
      List.length notes = (i + remaining)%nat /\
      Forall (fun n => exists k, catalogued n k) notes /\
      adjacentWithin bound notes.
Proof.
  intros Hb Hr. induction remaining as [|remaining IH];
    intros i newNotes Hlen Hi Hall Hadj; cbn [generateRest].
  - exists newNotes. rewrite Nat.add_0_r. auto.
  - destruct (nth_error newNotes (i - 1)) as [prevNote|] eqn:Eprev.
    2:{ apply nth_error_None in Eprev. lia. }
    pose proof (nth_error_In _ _ Eprev) as Hin.
    rewrite Forall_forall in Hall. destruct (Hall _ Hin) as [kp Hkp].
    destruct (Hr i) as [H0 H1].
    destruct (getRandomNoteWithinInterval_catalogued
                prevNote kp bound (rand i) Hkp Hb H0 H1)
      as (newNote & kn & -> & Hkn & Hd).
    destruct (IH (S i) (newNotes ++ [newNote])) as (notes & Hg & Hl & Ha & Hw).
    + rewrite length_app. cbn. lia.
    + lia.
    + apply Forall_app. split; [apply Forall_forall, Hall|].
      constructor; [eauto|constructor].
    + apply (adjacentWithin_snoc bound newNotes prevNote kp newNote kn);
        try assumption. rewrite Hlen. exact Eprev.
    + exists notes. split; [exact Hg|]. split; [lia|]. auto.
Qed.

Lemma generateNewSequence_returns (settings : Settings) (rand : nat -> Q) :
  (1 <= notesPerTurn settings)%Z ->
  (0 <= maxInterval settings)%Z ->
  (forall k, 0 <= rand k /\ rand k < 1) ->
  exists notes,
    generateNewSequence settings rand = Some notes /\
    List.length notes = Z.to_nat (notesPerTurn settings) /\
    Forall (fun n => exists k, catalogued n k) notes /\
    adjacentWithin (maxInterval settings) notes.
Proof.
  intros HL HM Hr. unfold generateNewSequence.
  destruct (Hr 0%nat) as [H0 H1].
  destruct (getRandomNote_catalogued _ H0 H1) as (firstNote & k0 & -> & Hk0).
  destruct (generateRest_spec (maxInterval settings) rand HM Hr
              (Z.to_nat (notesPerTurn settings - 1)) 1 [firstNote])
    as (notes & Hg & Hl & Ha & Hw).
  - reflexivity.
  - lia.
  - constructor; [eauto|constructor].
  - intros k a b Hx Hy. destruct k; discriminate Hy.
  - exists notes. split; [exact Hg|]. split; [lia|]. auto.
Qed.

(** C5.  With [notesPerTurn = L >= 1], [maxInterval = M >= 0] and draws
    in [0, 1), [generateNewSequence] returns a sequence of exactly [L]
    notes, each one an element of the table, in which the table indices of
    every two neighbours differ by at most [M]. *)
Theorem generateNewSequence_spec (settings : Settings) (rand : nat -> Q) :
  (1 <= notesPerTurn settings)%Z ->
  (0 <= maxInterval settings)%Z ->
  (forall k, 0 <= rand k /\ rand k < 1) ->
  exists notes,
    generateNewSequence settings rand = Some notes /\
    Z.of_nat (List.length notes) = notesPerTurn settings /\
    Forall (fun n => In n GUITAR_NOTES) notes /\
    adjacentWithin (maxInterval settings) notes.
Proof.
  intros HL HM Hr.
  destruct (generateNewSequence_returns settings rand HL HM Hr)
    as (notes & Hg & Hl & Ha & Hw).
  exists notes. split; [exact Hg|]. split; [lia|]. split; [|exact Hw].
  eapply Forall_impl; [|exact Ha].
  intros n [k [Hn _]]. eapply nth_error_In, Hn.
Qed.

Lemma generateNewSequence_spec_witness :
  exists notes,
    generateNewSequence (mkSettings 3 2 3 true true 10 0.01)
                        (fun k => 1 # Pos.of_succ_nat (S k)) = Some notes /\
    Z.of_nat (List.length notes) = 3%Z /\
    Forall (fun n => In n GUITAR_NOTES) notes /\
    adjacentWithin 2 notes.
Proof.
  apply (generateNewSequence_spec (mkSettings 3 2 3 true true 10 0.01)
           (fun k => 1 # Pos.of_succ_nat (S k))).
  - cbn. lia.
  - cbn. lia.
  - intros k. split.
    + unfold Qle. cbn. lia.
    + unfold Qlt. cbn. lia.
Defined.

End SequenceGenerator.

(** ** The Detection Window *)

Section DetectionWindow.
Import Notes AudioUtils Spec.

Lemma pushHistory_length size h x :
  (List.length h <= size)%nat ->
  (List.length (pushHistory size h x) <= size)%nat.
Proof.
  intros H. unfold pushHistory.
  destruct (size <? List.length (h ++ [x]))%nat eqn:E.
  - destruct h as [|y h]; cbn in *; [lia|].
    rewrite length_app in *. cbn in *. lia.
  - apply Nat.ltb_ge in E. exact E.
Qed.

Lemma pushHistory_at_capacity size oldest rest x :
  List.length (oldest :: rest) = size ->
  pushHistory size (oldest :: rest) x = rest ++ [x].
Proof.
  intros H. unfold pushHistory.
  destruct (size <? List.length ((oldest :: rest) ++ [x]))%nat eqn:E.
  - reflexivity.
  - apply Nat.ltb_ge in E. rewrite length_app in E. cbn in *. lia.
Qed.

Lemma pushHistory_below_capacity size h x :
  (List.length h < size)%nat -> pushHistory size h x = h ++ [x].
Proof.
  intros H. unfold pushHistory.
  destruct (size <? List.length (h ++ [x]))%nat eqn:E; [|reflexivity].
  apply Nat.ltb_lt in E. rewrite length_app in E. cbn in E. lia.
Qed.

Ltac tick_cases :=
  repeat match goal with
  | |- context [if ?b then _ else _] => destruct b
  | |- context [match findClosestNote ?f with _ => _ end] =>
      destruct (findClosestNote f)
  | |- context [match detectionHistory ?s with _ => _ end] =>
      destruct (detectionHistory s) eqn:?
  | |- context [match pitchDetectionInterval ?s with _ => _ end] =>
      destruct (pitchDetectionInterval s) as [[]|]
  | |- context [let '(_, _) := ?p in _] => destruct p
  end.

Lemma tick_window tm s i :
  historySize (fst (tick tm s i)) = historySize s /\
  window_step s (fst (tick tm s i)).
Proof.
  destruct tm; cbn [tick];
    unfold webTick, resumedWebTick, nativeTick, enhancedTick;
    tick_cases; cbn [fst set_history set_timers historySize detectionHistory];
    split; try reflexivity;
    solve [ apply window_kept; reflexivity
          | apply window_kept; congruence
          | apply window_cleared; reflexivity
          | eapply window_pushed; reflexivity ].
Qed.

Lemma tick_bounded tm s i :
  (List.length (detectionHistory s) <= historySize s)%nat ->
  (List.length (detectionHistory (fst (tick tm s i))) <=
   historySize (fst (tick tm s i)))%nat.
Proof.
  intros H. destruct (tick_window tm s i) as [-> [E|E|x E]]; rewrite E.
  - exact H.
  - cbn. lia.
  - apply pushHistory_length, H.
Qed.

Lemma run_bounded steps :
  forall s,
    (List.length (detectionHistory s) <= historySize s)%nat ->
    (List.length (detectionHistory (fst (run s steps))) <=
     historySize (fst (run s steps)))%nat.
Proof.
  induction steps as [|[tm i] steps IH]; intros s H; cbn [run]; [exact H|].
  pose proof (tick_bounded tm s i H) as H1.
  destruct (tick tm s i) as [s1 out1]. cbn [fst] in H1.
  specialize (IH s1 H1). destruct (run s1 steps) as [s2 out2]. exact IH.
Qed.

Lemma startPitchDetection_window env s :
  detectionHistory (startPitchDetection env s) = [].
Proof.
  unfold startPitchDetection, startWebPitchDetection.
  destruct (permissionGranted env), (OS env), (webAudioSupported env),
    (getUserMediaOk env); reflexivity.
Qed.

(** C4.  A push keeps a window that fits within [historySize] within
    [historySize]; below capacity it appends, at capacity it drops the
    oldest sample and appends the new one at the end.  Every tick of every
    loop leaves the window as it is, clears it, or pushes one sample this
    way, and never changes [historySize]; so after [startPitchDetection]
    the window never holds more than [historySize] samples, whatever
    ticks follow. *)
Theorem detection_window_fifo_bounded :
  (forall size h x,
     (List.length h <= size)%nat ->
     (List.length (pushHistory size h x) <= size)%nat) /\
  (forall size oldest rest x,
     List.length (oldest :: rest) = size ->
     pushHistory size (oldest :: rest) x = rest ++ [x]) /\
  (forall size h x,
     (List.length h < size)%nat -> pushHistory size h x = h ++ [x]) /\
  (forall tm s i,
     historySize (fst (tick tm s i)) = historySize s /\
     (detectionHistory (fst (tick tm s i)) = detectionHistory s \/
      detectionHistory (fst (tick tm s i)) = [] \/
      exists x, detectionHistory (fst (tick tm s i)) =
                pushHistory (historySize s) (detectionHistory s) x)) /\
  (forall env s0 steps,
     let s := fst (run (startPitchDetection env s0) steps) in
     (List.length (detectionHistory s) <= historySize s)%nat).
Proof.
  split; [exact pushHistory_length|].
  split; [exact pushHistory_at_capacity|].
  split; [exact pushHistory_below_capacity|].
  split.
  - intros tm s i. destruct (tick_window tm s i) as [Hs [E|E|x E]];
      (split; [exact Hs|]); eauto.
  - intros env s0 steps. apply run_bounded.
    rewrite startPitchDetection_window. cbn. lia.
Qed.

Lemma detection_window_fifo_bounded_witness :
  pushHistory 5 [440; 441; 439; 440; 442] 443 = [441; 439; 440; 442; 443] /\
  pushHistory 5 [440; 441] 439 = [440; 441; 439] /\
  (List.length (pushHistory 5 [440; 441; 439; 440; 442]%Q 443%Q) <= 5)%nat.
Proof.
  destruct detection_window_fifo_bounded as (Hlen & Hfull & Hbelow & _).
  split; [|split].
  - apply (Hfull 5%nat 440 [441; 439; 440; 442] 443). reflexivity.
  - apply (Hbelow 5%nat [440; 441] 439). cbn. lia.
  - apply (Hlen 5%nat [440; 441; 439; 440; 442] 443). cbn. lia.
Defined.

End DetectionWindow.

(** ** The detection loops *)

Section DetectionLoops.
Import Notes AudioUtils Spec.

(** The native loop reports the volume on every tick it processes. *)
Lemma nativeTick_reports_volume s i :
  isMobileListening s = true -> onPitchDetected s = true ->
  exists note, snd (nativeTick s i) = [(note, draw i 0%nat * 0.1)].
Proof.
  intros Hm Hc. unfold nativeTick. rewrite Hm, Hc. cbn [negb orb].
  repeat match goal with
  | |- context [if ?b then _ else _] => destruct b
  | |- context [match findClosestNote ?f with _ => _ end] =>
      destruct (findClosestNote f)
  end; cbn [snd]; eauto.
Qed.

(** The loop installed by [resumePitchDetection] reports the volume
    first on every tick it processes. *)
Lemma resumedWebTick_reports_volume s i :
  analyser s = true -> recordingDataArray s = true ->
  onPitchDetected s = true ->
  exists more, snd (resumedWebTick s i) = (None, rms i) :: more.
Proof.
  intros Ha Hr Hc. unfold resumedWebTick, emit. rewrite Ha, Hr, Hc.
  cbn [negb andb].
  repeat match goal with
  | |- context [if ?b then _ else _] => destruct b
  | |- context [match findClosestNote ?f with _ => _ end] =>
      destruct (findClosestNote f)
  end; cbn [snd app]; eauto.
Qed.

(** The stability examples: a steady window locks A4, a scattered one
    locks nothing. *)
Example stable_window_locks_A4 :
  let window := [440; 441; 439; 440; 440] in
  Qltb (calculateVariance window (average window)) 5 = true /\
  findClosestNote (average window) = Some (mkNote "A4" 440.00 "a4.mp3").
Proof. vm_compute. split; reflexivity. Qed.

Example scattered_window_is_unstable :
  let window := [440; 500; 380; 420; 460] in
  Qltb (calculateVariance window (average window)) 5 = false.
Proof. vm_compute. reflexivity. Qed.

(** C2, at the failing input.  The Web loop has heard 1100 Hz twice;
    on the third such frame the window is [1100; 1100; 1100], its variance
    is below 5 and it holds three samples, the mean resolves to no note,
    and the callback is not called at all on that tick. *)
Theorem webTick_unresolved_mean_emits_nothing :
  let s := heard 1100 2 in
  let i := frame 0.02 (Some 1100) in
  onPitchDetected s = true /\
  detectionHistory (fst (webTick s i)) = [1100; 1100; 1100] /\
  Qltb (calculateVariance [1100; 1100; 1100] (average [1100; 1100; 1100])) 5
    = true /\
  findClosestNote (average [1100; 1100; 1100]) = None /\
  snd (webTick s i) = [].
Proof. vm_compute. repeat split; reflexivity. Qed.

(** Below the threshold the loop of [startWebPitchDetection] reports
    [(none, rms)] and clears the window. *)
Lemma webTick_below_threshold s i :
  analyser s = true -> recordingDataArray s = true -> pitchDetector s = true ->
  onPitchDetected s = true ->
  rms i < AudioUtils.volumeThreshold s ->
  snd (webTick s i) = [(None, rms i)] /\
  detectionHistory (fst (webTick s i)) = [].
Proof.
  intros Ha Hr Hp Hc Hv. unfold webTick, emit. rewrite Ha, Hr, Hp, Hc.
  cbn [negb andb].
  destruct (Qltb (AudioUtils.volumeThreshold s) (rms i)) eqn:E;
    [qbool; lra|].
  cbn [fst snd]. split; [reflexivity|].
  destruct (detectionHistory s) eqn:Eh; [exact Eh|reflexivity].
Qed.

(** So does the loop of [startNativePitchDetection]. *)
Lemma nativeTick_below_threshold s i :
  isMobileListening s = true -> onPitchDetected s = true ->
  draw i 0%nat * 0.1 < AudioUtils.volumeThreshold s ->
  snd (nativeTick s i) = [(None, draw i 0%nat * 0.1)] /\
  detectionHistory (fst (nativeTick s i)) = [].
Proof.
  intros Hm Hc Hv. unfold nativeTick. rewrite Hm, Hc. cbn [negb orb].
  destruct (Qltb (AudioUtils.volumeThreshold s) (draw i 0%nat * 0.1)) eqn:E;
    [qbool; lra|].
  cbn [fst snd]. split; [reflexivity|].
  destruct (detectionHistory s) eqn:Eh; [exact Eh|reflexivity].
Qed.

(** C3, at the failing input.  The Web loop has heard 440 Hz three
    times; detection is paused and resumed, which installs the loop of
    [resumePitchDetection].  A frame of volume 0.001, below the threshold
    0.01, is reported as [(none, 0.001)], and the window still holds the
    three samples. *)
Theorem resumedWebTick_below_threshold_keeps_window :
  let s := resumePitchDetection webEnv (pausePitchDetection (heard 440 3)) in
  let i := frame 0.001 None in
  pitchDetectionInterval s = Some ResumedWebLoop /\
  Qltb (rms i) (AudioUtils.volumeThreshold s) = true /\
  snd (tick ResumedWebLoop s i) = [(None, 0.001)] /\
  detectionHistory (fst (tick ResumedWebLoop s i)) = [440; 440; 440].
Proof. vm_compute. repeat split; reflexivity. Qed.

End DetectionLoops.

(** ** Pause and resume *)

Section PauseResume.
Import Notes AudioUtils Spec.

(** A session that is neither listening nor marked as running before a
    pause is left as it is by [pausePitchDetection]. *)
Lemma pause_stopped_noop s :
  listening s = false -> pitchDetectionWasRunning s = false ->
  pausePitchDetection s = s.
Proof.
  destruct s as [p m]. cbn. intros Hl ->.
  destruct p, m; try discriminate. reflexivity.
Qed.

(** C7, at the failing input.  Detection is started on the Web and
    paused; it is then not listening, and [resumePitchDetection] would
    restart it.  A second [pausePitchDetection] in that state changes the
    session object, and after it [resumePitchDetection] no longer restarts
    listening. *)
Theorem pause_while_paused_disables_resume :
  let s := pausePitchDetection (startPitchDetection webEnv initial) in
  listening s = false /\
  listening (resumePitchDetection webEnv s) = true /\
  pitchDetectionWasRunning s = true /\
  pitchDetectionWasRunning (pausePitchDetection s) = false /\
  pausePitchDetection s <> s /\
  listening (resumePitchDetection webEnv (pausePitchDetection s)) = false.
Proof.
  vm_compute. repeat split; try reflexivity. discriminate.
Qed.

End PauseResume.

(** ** Demonstrations *)

Section Demonstration.
Import Notes AudioUtils Spec Playback.

Variable env : Env.
Variable soundFails : nat -> bool.

Lemma initOnly_refl s : initOnly s s.
Proof. left. reflexivity. Qed.

Lemma initOnly_trans s1 s2 s3 :
  initOnly s1 s2 -> initOnly s2 s3 -> initOnly s1 s3.
Proof.
  intros [->| ->] [->| ->]; unfold initOnly; auto.
Qed.

Lemma initOnly_paused s s' :
  initOnly s s' -> isPitchDetectionPaused s' = isPitchDetectionPaused s.
Proof. intros [->| ->]; reflexivity. Qed.

Lemma ensureInitialized_run w :
  exists s', initOnly (session w) s' /\
    ensureInitialized env w = (Returned tt, mkWorld s' (trace w) (plays w)).
Proof.
  destruct w as [s tr k]. unfold ensureInitialized, bind, getSession, init.
  cbn [session trace plays]. destruct (isInitialized s).
  - exists s. split; [apply initOnly_refl|reflexivity].
  - destruct (audioModeOk env).
    + exists (set_initialized s true). split; [right|]; reflexivity.
    + exists s. split; [apply initOnly_refl|reflexivity].
Qed.

(** While detection is marked as paused, playing a note neither pauses
    nor resumes it, and returns whether or not the sound fails. *)
Lemma playNote_paused note w :
  isPitchDetectionPaused (session w) = true ->
  exists s' tr k, initOnly (session w) s' /\
    playNote env soundFails note w = (Returned tt, mkWorld s' tr k).
Proof.
  intros Hp. destruct (ensureInitialized_run w) as (s' & Hs & E).
  pose proof (initOnly_paused _ _ Hs) as Hp'. rewrite Hp in Hp'.
  unfold playNote, tryCatch, tryFinally, bind at 1. rewrite E.
  unfold bind, getSession, when, playSound, ret. cbn [session trace plays].
  rewrite Hp'. cbn [negb session trace plays].
  destruct (soundFails (plays w)); eauto.
Qed.

Lemma playEach_paused notes delay :
  forall w,
    isPitchDetectionPaused (session w) = true ->
    exists s' tr k, initOnly (session w) s' /\
      playEach env soundFails notes delay w = (Returned tt, mkWorld s' tr k).
Proof.
  induction notes as [|note rest IH]; intros w Hp; cbn [playEach].
  - destruct w as [s tr k]. exists s, tr, k.
    split; [apply initOnly_refl|reflexivity].
  - destruct (playNote_paused note w Hp) as (s1 & tr1 & k1 & H1 & E1).
    unfold bind at 1. rewrite E1.
    assert (exists tr2,
              when (match rest with [] => false | _ => true end) (wait delay)
                   (mkWorld s1 tr1 k1) = (Returned tt, mkWorld s1 tr2 k1))
      as [tr2 E2]
      by (destruct rest; unfold when, wait, record, ret; cbn; eauto).
    unfold bind at 1. rewrite E2.
    destruct (IH (mkWorld s1 tr2 k1)) as (s3 & tr3 & k3 & H3 & E3).
    + cbn [session]. rewrite (initOnly_paused _ _ H1). exact Hp.
    + rewrite E3. exists s3, tr3, k3. split; [|reflexivity].
      eapply initOnly_trans; eassumption.
Qed.

Lemma playSequence_paused notes delay w :
  isPitchDetectionPaused (session w) = true ->
  exists s' tr k, initOnly (session w) s' /\
    playSequence env soundFails notes delay w = (Returned tt, mkWorld s' tr k).
Proof.
  intros Hp. destruct (ensureInitialized_run w) as (s1 & H1 & E1).
  pose proof (initOnly_paused _ _ H1) as Hp1. rewrite Hp in Hp1.
  unfold playSequence, tryCatch, tryFinally, bind at 1. rewrite E1.
  unfold bind at 1, getSession. cbn [session]. rewrite Hp1. cbn [negb when].
  unfold bind at 1, ret at 1.
  destruct (playEach_paused notes delay (mkWorld s1 (trace w) (plays w)) Hp1)
    as (s2 & tr2 & k2 & H2 & E2).
  rewrite E2. unfold ret. exists s2, tr2, k2. split; [|reflexivity].
  eapply initOnly_trans; eassumption.
Qed.

Lemma resume_after_pause s s' :
  listening s = true -> resumable env s = true ->
  initOnly (pausePitchDetection s) s' ->
  listening (resumePitchDetection env s') = true /\
  isPitchDetectionPaused (resumePitchDetection env s') = false.
Proof.
  intros Hl Hr Hs. destruct s as [p m]. unfold resumable in Hr.
  cbn in Hl, Hr.
  assert (pausePitchDetection
            (mk p m onPitchDetected0 audioContext0 analyser0
                mediaStreamSource0 recordingDataArray0 pitchDetector0
                isInitialized0 volumeThreshold0 detectionHistory0
                historySize0 minFrequency0 maxFrequency0 isMobileListening0
                isPitchDetectionPaused0 pitchDetectionWasRunning0) =
          mk None None onPitchDetected0 audioContext0 analyser0
             mediaStreamSource0 recordingDataArray0 pitchDetector0
             isInitialized0 volumeThreshold0 detectionHistory0
             historySize0 minFrequency0 maxFrequency0 isMobileListening0
             true true) as E
    by (destruct p, m; try discriminate Hl; reflexivity).
  rewrite E in Hs. clear E.
  destruct Hs as [->| ->]; unfold resumePitchDetection; cbn;
    destruct (OS env); try discriminate Hr; cbn; try rewrite Hr; cbn;
    split; reflexivity.
Qed.

Lemma three_times_paused notes w :
  isPitchDetectionPaused (session w) = true ->
  exists s' tr k, initOnly (session w) s' /\
    (playSequence env soundFails notes 1000 ;; wait 1500 ;;
     playSequence env soundFails notes 1000 ;; wait 1500 ;;
     playSequence env soundFails notes 1000) w
    = (Returned tt, mkWorld s' tr k).
Proof.
  intros Hp0.
  destruct (playSequence_paused notes 1000 w Hp0)
    as (s1 & tr1 & k1 & H1 & E1).
  unfold bind at 1. rewrite E1. unfold bind at 1, wait at 1, record at 1.
  cbn [session trace plays].
  set (w1 := mkWorld s1 _ _).
  assert (isPitchDetectionPaused (session w1) = true) as Hp1
    by (cbn; rewrite (initOnly_paused _ _ H1); exact Hp0).
  destruct (playSequence_paused notes 1000 w1 Hp1)
    as (s2 & tr2 & k2 & H2 & E2).
  unfold bind at 1. rewrite E2. unfold bind at 1, wait at 1, record at 1.
  cbn [session trace plays].
  set (w2 := mkWorld s2 _ _).
  assert (isPitchDetectionPaused (session w2) = true) as Hp2
    by (cbn; rewrite (initOnly_paused _ _ H2); exact Hp1).
  destruct (playSequence_paused notes 1000 w2 Hp2)
    as (s3 & tr3 & k3 & H3 & E3).
  rewrite E3. exists s3, tr3, k3. split; [|reflexivity].
  eapply initOnly_trans; [exact H1|].
  eapply initOnly_trans; [exact H2|exact H3].
Qed.

(** Whatever sounds fail, a demonstration that starts while detection is
    listening on a strategy that [resumePitchDetection] can restart
    returns with detection listening again. *)
Lemma demonstration_resumes notes s :
  listening s = true -> isPitchDetectionPaused s = false ->
  resumable env s = true ->
  exists s' tr k,
    playCurrentSequenceWithNotes env soundFails notes (start s)
    = (Returned tt, mkWorld s' tr k) /\
    listening s' = true /\
    isPitchDetectionPaused s' = false.
Proof.
  intros Hl Hp Hr. destruct notes as [|note rest].
  - exists s, [], 0%nat. cbn. auto.
  - assert (isPitchDetectionPaused (pausePitchDetection s) = true) as Hp0.
    { destruct s as [p m]. cbn in Hl |- *.
      destruct p, m; try discriminate Hl; reflexivity. }
    unfold playCurrentSequenceWithNotes, start.
    unfold bind at 1, record at 1. cbn [session trace plays].
    unfold bind at 1, pause at 1, bind at 1, record at 1, onSession at 1.
    cbn [session trace plays].
    set (w0 := mkWorld (pausePitchDetection s) _ _).
    unfold tryFinally.
    destruct (three_times_paused (note :: rest) w0 Hp0)
      as (s3 & tr3 & k3 & H3 & E3).
    rewrite E3.
    unfold bind, resume, record, onSession. cbn [session trace plays].
    eexists _, _, _. split; [reflexivity|].
    apply (resume_after_pause s); assumption.
Qed.

(** C8, at the failing input.  In a browser that denies the microphone,
    [startPitchDetection] falls back to the simulated loop and detection
    is listening.  The demonstration of [[C4]] then pauses it, plays (no
    sound fails), calls [resumePitchDetection] and returns; afterwards no
    timer is installed, and a further [resumePitchDetection] installs none
    either. *)
Theorem demonstration_halts_simulated_web_detection :
  let s := startPitchDetection deniedWebEnv initial in
  let out :=
    playCurrentSequenceWithNotes deniedWebEnv (fun _ => false)
      [mkNote "C4" 261.63 "c4.mp3"] (start s) in
  pitchDetectionInterval s = Some (SimulatedLoop "") /\
  listening s = true /\
  fst out = Returned tt /\
  trace (snd out) =
    [SequenceInProgress true; PauseCalled;
     SoundPlayed "c4.mp3"; Waited 1500;
     SoundPlayed "c4.mp3"; Waited 1500;
     SoundPlayed "c4.mp3";
     ResumeCalled; SequenceInProgress false] /\
  listening (session (snd out)) = false /\
  listening (resumePitchDetection deniedWebEnv (session (snd out))) = false.
Proof. vm_compute. repeat split; reflexivity. Qed.

End Demonstration.

(** ** The trial state machine *)

Section Trial.
Import Notes Spec Training.

Lemma name_neq_eqb (a b : Note) :
  name a <> name b -> String.eqb (name a) (name b) = false.
Proof. intros H. apply String.eqb_neq. exact H. Qed.

Lemma matchesExpected_true st d expected :
  nth_error (currentNotes st) (List.length (notesPlayed st)) = Some expected ->
  name d = name expected ->
  matchesExpected st d = true.
Proof.
  intros He Hn. unfold matchesExpected. rewrite He.
  apply andb_true_intro. split.
  - apply Nat.ltb_lt, nth_error_Some. congruence.
  - apply String.eqb_eq, Hn.
Qed.

Lemma matchesExpected_false st d :
  (forall expected,
     nth_error (currentNotes st) (List.length (notesPlayed st)) = Some expected ->
     name d <> name expected) ->
  matchesExpected st d = false.
Proof.
  intros H. unfold matchesExpected.
  destruct (nth_error (currentNotes st) (List.length (notesPlayed st)))
    as [expected|]; [|apply andb_false_r].
  rewrite (name_neq_eqb d expected) by (apply H; reflexivity).
  apply andb_false_r.
Qed.

(** With every position played, no detected note matches. *)
Lemma matchesExpected_complete st d :
  List.length (notesPlayed st) = List.length (currentNotes st) ->
  matchesExpected st d = false.
Proof.
  intros H. apply matchesExpected_false. intros expected He.
  assert (List.length (notesPlayed st) < List.length (currentNotes st))%nat
    by (apply nth_error_Some; congruence).
  lia.
Qed.

Lemma setDetectedNote_stored st : setDetectedNote st (detectedNote st) = st.
Proof. destruct st; reflexivity. Qed.

(** The value that is stored already: nothing runs. *)
Lemma detect_same settings st note :
  sameValue (detectedNote st) note = true ->
  detect settings st note = (st, []).
Proof. intros H. unfold detect. rewrite H. reflexivity. Qed.

(** Another value: it is stored and the effect runs for it. *)
Lemma detect_changed settings st note :
  sameValue (detectedNote st) note = false ->
  detect settings st note =
    (applyActions (setDetectedNote st note)
       (detectionEffect settings (setDetectedNote st note)),
     detectionEffect settings (setDetectedNote st note)).
Proof. intros H. unfold detect. rewrite H. reflexivity. Qed.

Lemma detectionEffect_mismatch settings st d :
  matchesExpected st (content d) = false ->
  detectionEffect settings (setDetectedNote st (Some d)) = [].
Proof.
  intros H. unfold detectionEffect. cbn [setDetectedNote detectedNote].
  destruct (isInitializing _); [reflexivity|].
  change (matchesExpected (setDetectedNote st (Some d)) (content d))
    with (matchesExpected st (content d)).
  rewrite H. reflexivity.
Qed.

(** An event without action changes at most the stored note. *)
Lemma detect_mismatch settings st d :
  matchesExpected st (content d) = false ->
  exists stored, detect settings st (Some d) = (setDetectedNote st stored, []).
Proof.
  intros H. destruct (sameValue (detectedNote st) (Some d)) eqn:E.
  - exists (detectedNote st).
    rewrite setDetectedNote_stored. apply detect_same, E.
  - exists (Some d).
    rewrite (detect_changed settings st (Some d) E).
    rewrite (detectionEffect_mismatch settings st d H). reflexivity.
Qed.

Lemma detect_silence settings st :
  exists stored, detect settings st None = (setDetectedNote st stored, []).
Proof.
  destruct (sameValue (detectedNote st) None) eqn:E.
  - exists (detectedNote st).
    rewrite setDetectedNote_stored. apply detect_same, E.
  - exists None. rewrite (detect_changed settings st None E). reflexivity.
Qed.

(** Once every position is played, detection events only change the
    stored note. *)
Lemma feed_complete_state settings events :
  forall st,
    List.length (notesPlayed st) = List.length (currentNotes st) ->
    exists stored,
      feed settings st events = (setDetectedNote st stored, []).
Proof.
  induction events as [|e events IH]; intros st H; cbn [feed].
  - exists (detectedNote st). rewrite setDetectedNote_stored. reflexivity.
  - assert (exists stored,
              detect settings st e = (setDetectedNote st stored, [])) as [x E].
    { destruct e as [d|]; [|apply detect_silence].
      apply detect_mismatch, matchesExpected_complete, H. }
    rewrite E. destruct (IH (setDetectedNote st x) H) as [y Ey].
    rewrite Ey. exists y. reflexivity.
Qed.

Lemma feed_complete settings events st :
  List.length (notesPlayed st) = List.length (currentNotes st) ->
  snd (feed settings st events) = [] /\
  isTrainingComplete (fst (feed settings st events)) = isTrainingComplete st.
Proof.
  intros H. destruct (feed_complete_state settings events st H) as [x E].
  rewrite E. split; reflexivity.
Qed.

Lemma detect_match settings st d :
  isInitializing st = false ->
  sameValue (detectedNote st) (Some d) = false ->
  matchesExpected st (content d) = true ->
  snd (detect settings st (Some d)) =
    (if showSuccessIndicator settings then [ShowSuccessFlash] else []) ++
    [SetNotesPlayed (notesPlayed st ++ [List.length (notesPlayed st)])] ++
    (if (Z.of_nat (List.length (notesPlayed st)) =?
         Z.of_nat (List.length (currentNotes st)) - 1)%Z
     then handleSequenceCompleted settings (setDetectedNote st (Some d))
     else []).
Proof.
  intros Hi Hs Hm. rewrite (detect_changed settings st (Some d) Hs).
  unfold detectionEffect.
  cbn [snd setDetectedNote detectedNote isInitializing notesPlayed
       currentNotes].
  rewrite Hi.
  change (matchesExpected (setDetectedNote st (Some d)) (content d))
    with (matchesExpected st (content d)).
  rewrite Hm. reflexivity.
Qed.

Lemma detect_fst settings st note :
  sameValue (detectedNote st) note = false ->
  fst (detect settings st note) =
  applyActions (setDetectedNote st note) (snd (detect settings st note)).
Proof. intros H. rewrite (detect_changed settings st note H). reflexivity. Qed.

Lemma applyActions_app st acts1 acts2 :
  applyActions st (acts1 ++ acts2) = applyActions (applyActions st acts1) acts2.
Proof. apply fold_left_app. Qed.

Lemma applyActions_flash st (b : bool) :
  applyActions st (if b then [ShowSuccessFlash] else []) = st.
Proof. destruct b; reflexivity. Qed.

(** C6, as stated, fails.  Against the one-note sequence [[C4]] with two
    repetitions required, the table's C4 is delivered twice in a row.  The
    first event counts a repetition and empties [notesPlayed].  The second
    delivers the object that is stored already: its name is the name of
    the expected note at position 0, yet nothing is compared and no
    position is appended. *)
Lemma repeated_note_object_is_not_compared :
  let st := fst (detect trialSettings (awaiting [C4]) (Some heardC4)) in
  tableObject 20 = Some heardC4 /\
  isInitializing st = false /\
  notesPlayed st = [] /\
  correctSequencesPlayed st = 1%Z /\
  nth_error (currentNotes st) (List.length (notesPlayed st)) = Some C4 /\
  name (content heardC4) = name C4 /\
  detect trialSettings st (Some heardC4) = (st, []) /\
  ~ In (SetNotesPlayed (notesPlayed st ++ [List.length (notesPlayed st)]))
       (snd (detect trialSettings st (Some heardC4))).
Proof.
  vm_compute. repeat (split; [reflexivity|]). intros H. exact H.
Qed.

(** C6, amended.  Outside initialisation, a detected note whose name
    differs from the expected note at position [len(notesPlayed)] (or that
    arrives when every position is played) causes no action: [notesPlayed]
    and [correctSequencesPlayed] are unchanged.  A detected note with the
    expected name, delivered as another value than the stored one, makes
    the handler set [notesPlayed] to itself with that position appended,
    and before the last position this is the whole change of progress.  An
    event that delivers the value already stored runs nothing, whatever
    its name.  Against a two-note sequence [[a; b]] of different names,
    the events [b, a] ignore [b] and match [a] at position 0: no position
    past 0 is played, no repetition is counted and no trial completes. *)
Theorem detection_event_progress :
  (forall settings st d,
     isInitializing st = false ->
     (forall expected,
        nth_error (currentNotes st) (List.length (notesPlayed st))
          = Some expected ->
        name (content d) <> name expected) ->
     snd (detect settings st (Some d)) = [] /\
     notesPlayed (fst (detect settings st (Some d))) = notesPlayed st /\
     correctSequencesPlayed (fst (detect settings st (Some d)))
       = correctSequencesPlayed st) /\
  (forall settings st d expected,
     isInitializing st = false ->
     sameValue (detectedNote st) (Some d) = false ->
     nth_error (currentNotes st) (List.length (notesPlayed st))
       = Some expected ->
     name (content d) = name expected ->
     In (SetNotesPlayed (notesPlayed st ++ [List.length (notesPlayed st)]))
        (snd (detect settings st (Some d))) /\
     (S (List.length (notesPlayed st)) < List.length (currentNotes st) ->
      notesPlayed (fst (detect settings st (Some d)))
        = notesPlayed st ++ [List.length (notesPlayed st)] /\
      correctSequencesPlayed (fst (detect settings st (Some d)))
        = correctSequencesPlayed st)%nat) /\
  (forall settings st note,
     sameValue (detectedNote st) note = true ->
     detect settings st note = (st, [])) /\
  (forall settings a b,
     name (content a) <> name (content b) ->
     sameIdentity (identity b) (identity a) = false ->
     let out := feed settings (awaiting [content a; content b])
                     [Some b; Some a] in
     notesPlayed (fst out) = [0%nat] /\
     Forall (fun position => position <= 0)%nat (notesPlayed (fst out)) /\
     correctSequencesPlayed (fst out) = 0%Z /\
     isTrainingComplete (fst out) = false /\
     snd out =
       (if showSuccessIndicator settings then [ShowSuccessFlash] else []) ++
       [SetNotesPlayed [0%nat]]).
Proof.
  split; [|split; [|split]].
  - intros settings st d Hi Hne.
    destruct (detect_mismatch settings st d
                (matchesExpected_false st (content d) Hne)) as [x E].
    rewrite E. cbn. auto.
  - intros settings st d expected Hi Hs He Hn.
    pose proof (matchesExpected_true st (content d) expected He Hn) as Hm.
    pose proof (detect_match settings st d Hi Hs Hm) as Ha.
    split.
    + rewrite Ha. apply in_or_app. right. left. reflexivity.
    + intros Hlast. rewrite (detect_fst settings st (Some d) Hs), Ha.
      destruct (Z.of_nat (List.length (notesPlayed st)) =?
                Z.of_nat (List.length (currentNotes st)) - 1)%Z eqn:E;
        [apply Z.eqb_eq in E; lia|].
      rewrite app_nil_r, applyActions_app, applyActions_flash. cbn. auto.
  - intros settings st note. apply detect_same.
  - intros settings a b Hab Hid out. subst out. cbn [feed].
    set (notes := [content a; content b]).
    rewrite (detect_changed settings (awaiting notes) (Some b) eq_refl).
    rewrite (detectionEffect_mismatch settings (awaiting notes) b).
    2:{ apply matchesExpected_false. cbn. intros expected [= <-].
        congruence. }
    cbn [applyActions fold_left].
    set (st1 := setDetectedNote (awaiting notes) (Some b)).
    assert (sameValue (detectedNote st1) (Some a) = false) as Hs
      by exact Hid.
    assert (matchesExpected st1 (content a) = true) as Hm
      by (apply (matchesExpected_true st1 (content a) (content a));
          reflexivity).
    pose proof (detect_match settings st1 a eq_refl Hs Hm) as Ha.
    pose proof (detect_fst settings st1 (Some a) Hs) as Hf.
    destruct (detect settings st1 (Some a)) as [st2 acts2].
    cbn [fst snd app] in *. subst acts2 st2. cbn [st1 notes List.length].
    rewrite app_nil_r, applyActions_app, applyActions_flash.
    cbn. repeat split; auto.
Qed.

Lemma detection_event_progress_witness :
  (let out := feed trialSettings (awaiting [C4; E4])
                   [Some heardE4; Some heardC4] in
   notesPlayed (fst out) = [0%nat] /\
   Forall (fun position => position <= 0)%nat (notesPlayed (fst out)) /\
   correctSequencesPlayed (fst out) = 0%Z /\
   isTrainingComplete (fst out) = false /\
   snd out = [ShowSuccessFlash; SetNotesPlayed [0%nat]]) /\
  snd (detect trialSettings (awaiting [C4; E4]) (Some heardE4)) = [] /\
  In (SetNotesPlayed [0%nat])
     (snd (detect trialSettings (awaiting [C4; E4]) (Some heardC4))).
Proof.
  destruct detection_event_progress as (Hmis & Hmatch & _ & Hpair).
  split; [|split].
  - apply (Hpair trialSettings heardC4 heardE4).
    + discriminate.
    + reflexivity.
  - apply (Hmis trialSettings (awaiting [C4; E4]) heardE4).
    + reflexivity.
    + cbn. intros expected [= <-]. discriminate.
  - apply (Hmatch trialSettings (awaiting [C4; E4]) heardC4 C4);
      reflexivity.
Defined.

Lemma handleTrainingStepComplete_finished settings st :
  totalSequences settings = 1%Z -> (1 <= currentSequence st)%Z ->
  handleTrainingStepComplete settings st =
    [SetSequenceInProgress false; PlaySuccessSound;
     SetIsTrainingComplete true; SetTimeout OnFinish 3000].
Proof.
  intros Ht Hc. unfold handleTrainingStepComplete. rewrite Ht.
  replace (1 <=? currentSequence st)%Z with true
    by (symmetry; apply Z.leb_le; exact Hc).
  reflexivity.
Qed.

Lemma handleTrainingStepComplete_continues settings st :
  ~ (0 < totalSequences settings <= currentSequence st)%Z ->
  handleTrainingStepComplete settings st =
    [SetSequenceInProgress false; PlaySuccessSound;
     IncrementSequence; SetTimeout NextSequence 2000].
Proof.
  intros H. unfold handleTrainingStepComplete.
  destruct ((0 <? totalSequences settings)%Z &&
            (totalSequences settings <=? currentSequence st)%Z) eqn:E;
    [|reflexivity].
  apply andb_prop in E. destruct E as [E1 E2].
  apply Z.ltb_lt in E1. apply Z.leb_le in E2. lia.
Qed.

Lemma applyAction_counter st a :
  (currentSequence st <= currentSequence (applyAction st a))%Z.
Proof. destruct a; cbn; lia. Qed.

Lemma applyActions_counter acts :
  forall st, (currentSequence st <= currentSequence (applyActions st acts))%Z.
Proof.
  induction acts as [|a acts IH]; intros st; cbn; [lia|].
  eapply Z.le_trans; [apply (applyAction_counter st a)|apply IH].
Qed.

(** The sequence counter starts at 1 and detection events never lower
    it. *)
Lemma feed_counter settings events :
  forall st,
    (1 <= currentSequence st)%Z ->
    (1 <= currentSequence (fst (feed settings st events)))%Z.
Proof.
  induction events as [|e events IH]; intros st H; cbn [feed]; [exact H|].
  assert (1 <= currentSequence (fst (detect settings st e)))%Z as H1.
  { destruct (sameValue (detectedNote st) e) eqn:E.
    - rewrite (detect_same settings st e E). exact H.
    - rewrite (detect_fst settings st e E).
      eapply Z.le_trans; [|apply applyActions_counter]. exact H. }
  destruct (detect settings st e) as [st1 acts1]. cbn [fst] in H1.
  specialize (IH st1 H1).
  destruct (feed settings st1 events) as [st2 acts2]. exact IH.
Qed.

(** The two-note trial: [C4, E4, C4, E4] against [[C4; E4]] with two
    repetitions required and a budget of one sequence. *)
Example two_note_trial_run :
  feed trialSettings (awaiting [C4; E4])
       [Some heardC4; Some heardE4; Some heardC4; Some heardE4]
  = (mkState [C4; E4] (Some heardE4) [0; 1]%nat 2 true false false 1,
     [ShowSuccessFlash; SetNotesPlayed [0%nat];
      ShowSuccessFlash; SetNotesPlayed [0; 1]%nat;
      SetCorrectSequencesPlayed 1; SetNotesPlayed [];
      ShowSuccessFlash; SetNotesPlayed [0%nat];
      ShowSuccessFlash; SetNotesPlayed [0; 1]%nat;
      SetCorrectSequencesPlayed 2;
      SetSequenceInProgress false; PlaySuccessSound;
      SetIsTrainingComplete true; SetTimeout OnFinish 3000]).
Proof. reflexivity. Qed.

(** C9.  With [totalSequences = 1] (and the sequence counter at least 1,
    as it is from its initial value 1 on), the handler of a completed
    trial sets the training complete and schedules only [onFinish]: the
    event that completes the last repetition (a note of the expected name
    at the last position, delivered as another value than the stored one,
    so that the effect runs) leaves the screen complete without scheduling
    a new sequence, and no later detection event causes any action.  When
    the budget is unbounded or not yet reached, the handler increments the
    sequence counter and sets the two-second timer whose callback
    generates a new sequence, stores it and resets [notesPlayed] and
    [correctSequencesPlayed]. *)
Theorem trial_complete_finishes_or_continues :
  (forall settings st,
     totalSequences settings = 1%Z -> (1 <= currentSequence st)%Z ->
     handleTrainingStepComplete settings st =
       [SetSequenceInProgress false; PlaySuccessSound;
        SetIsTrainingComplete true; SetTimeout OnFinish 3000]) /\
  (forall settings st d expected,
     totalSequences settings = 1%Z -> (1 <= currentSequence st)%Z ->
     isInitializing st = false ->
     sameValue (detectedNote st) (Some d) = false ->
     nth_error (currentNotes st) (List.length (notesPlayed st))
       = Some expected ->
     name (content d) = name expected ->
     S (List.length (notesPlayed st)) = List.length (currentNotes st) ->
     (repetitionsRequired settings <= correctSequencesPlayed st + 1)%Z ->
     let out := detect settings st (Some d) in
     In PlaySuccessSound (snd out) /\
     isTrainingComplete (fst out) = true /\
     existsb schedulesNextSequence (snd out) = false /\
     forall events,
       snd (feed settings (fst out) events) = [] /\
       isTrainingComplete (fst (feed settings (fst out) events)) = true) /\
  (forall settings st,
     ~ (0 < totalSequences settings <= currentSequence st)%Z ->
     handleTrainingStepComplete settings st =
       [SetSequenceInProgress false; PlaySuccessSound;
        IncrementSequence; SetTimeout NextSequence 2000] /\
     currentSequence
       (applyActions st (handleTrainingStepComplete settings st))
       = (currentSequence st + 1)%Z) /\
  (forall settings rand st,
     (1 <= notesPerTurn settings)%Z -> (0 <= maxInterval settings)%Z ->
     (forall k, 0 <= rand k /\ rand k < 1) ->
     exists newSequence,
       generateNewSequence settings rand = Some newSequence /\
       nextSequence settings rand =
         [SetCurrentNotes newSequence; SetNotesPlayed [];
          SetCorrectSequencesPlayed 0;
          SetTimeout (PlaySequenceWithNotes newSequence) 200] /\
       currentNotes (applyActions st (nextSequence settings rand))
         = newSequence /\
       notesPlayed (applyActions st (nextSequence settings rand)) = [] /\
       correctSequencesPlayed (applyActions st (nextSequence settings rand))
         = 0%Z).
Proof.
  split; [exact handleTrainingStepComplete_finished|].
  split; [|split].
  - intros settings st d expected Ht Hc Hi Hs He Hn Hlast Hrep out.
    pose proof (matchesExpected_true st (content d) expected He Hn) as Hm.
    pose proof (detect_match settings st d Hi Hs Hm) as Ha.
    pose proof (detect_fst settings st (Some d) Hs) as Hf.
    fold out in Ha, Hf. destruct out as [st' acts]. cbn [fst snd] in *.
    replace (Z.of_nat (List.length (notesPlayed st)) =?
             Z.of_nat (List.length (currentNotes st)) - 1)%Z with true in Ha
      by (symmetry; apply Z.eqb_eq; lia).
    unfold handleSequenceCompleted in Ha.
    cbn [setDetectedNote correctSequencesPlayed] in Ha.
    replace (repetitionsRequired settings <=? correctSequencesPlayed st + 1)%Z
      with true in Ha by (symmetry; apply Z.leb_le; exact Hrep).
    rewrite handleTrainingStepComplete_finished in Ha by assumption.
    subst acts.
    rewrite applyActions_app, applyActions_flash in Hf. cbn in Hf.
    subst st'. split; [|split; [reflexivity|split]].
    + apply in_or_app. right. cbn. auto.
    + destruct (showSuccessIndicator settings); reflexivity.
    + intros events.
      match goal with |- context [feed settings ?s events] =>
        destruct (feed_complete settings events s) as [E1 E2]
      end.
      * cbn. rewrite length_app. cbn. lia.
      * split; [exact E1|exact E2].
  - intros settings st H.
    rewrite (handleTrainingStepComplete_continues settings st H).
    split; reflexivity.
  - intros settings rand st HL HM Hr.
    destruct (generateNewSequence_returns settings rand HL HM Hr)
      as (newSequence & Hg & _).
    exists newSequence. unfold nextSequence. rewrite Hg.
    repeat split; reflexivity.
Qed.

Lemma trial_complete_finishes_or_continues_witness :
  (let out := feed trialSettings (awaiting [C4; E4])
                   [Some heardC4; Some heardE4; Some heardC4] in
   let last := detect trialSettings (fst out) (Some heardE4) in
   In PlaySuccessSound (snd last) /\
   isTrainingComplete (fst last) = true /\
   existsb schedulesNextSequence (snd last) = false /\
   forall events,
     snd (feed trialSettings (fst last) events) = [] /\
     isTrainingComplete (fst (feed trialSettings (fst last) events)) = true) /\
  handleTrainingStepComplete defaultSettings (awaiting [C4; E4]) =
    [SetSequenceInProgress false; PlaySuccessSound;
     IncrementSequence; SetTimeout NextSequence 2000].
Proof.
  destruct trial_complete_finishes_or_continues as (_ & Hend & Hnext & _).
  split.
  - apply (Hend trialSettings
             (fst (feed trialSettings (awaiting [C4; E4])
                        [Some heardC4; Some heardE4; Some heardC4]))
             heardE4 E4).
    + reflexivity.
    + vm_compute. discriminate.
    + reflexivity.
    + reflexivity.
    + reflexivity.
    + reflexivity.
    + reflexivity.
    + vm_compute. discriminate.
  - apply (Hnext defaultSettings (awaiting [C4; E4])).
    vm_compute. intros [_ H]. apply H. reflexivity.
Defined.

End Trial.

(** * Further properties *)

(** ** The note table, continued *)

Section NoteTableMore.
Import Notes Spec SpecMore.

Ltac by_sign :=
  unfold difference in *;
  repeat match goal with
  | H : context [Qabs ?x] |- _ =>
      let A := fresh "A" in
      destruct (Qabs_cases x) as [[? A]|[? A]];
      generalize dependent (Qabs x); intros
  | |- context [Qabs ?x] =>
      let A := fresh "A" in
      destruct (Qabs_cases x) as [[? A]|[? A]];
      generalize dependent (Qabs x); intros
  end.

Lemma table_frequency_bounds n :
  In n GUITAR_NOTES -> 82.41 <= frequency n /\ frequency n <= 987.77.
Proof.
  assert (forallb (fun n => Qleb 82.41 (frequency n) &&
                            Qleb (frequency n) 987.77) GUITAR_NOTES = true)
    as H by (vm_compute; reflexivity).
  rewrite forallb_forall in H. intros Hn.
  specialize (H n Hn). apply andb_prop in H. destruct H as [H1 H2].
  qbool. auto.
Qed.

(** Between the first and the last entry of a well spaced table every
    frequency lies between two neighbours. *)
Lemma wellSpaced_bracket f :
  forall table a,
    wellSpaced (a :: table) = true ->
    0 <= f -> frequency a <= f ->
    (exists z, In z (a :: table) /\ f <= frequency z) ->
    exists x y,
      In x (a :: table) /\ In y (a :: table) /\
      frequency x <= f /\ f <= frequency y /\
      frequency y - frequency x <= 2 * (frequency x * 0.05).
Proof.
  induction table as [|b table IH]; intros a Hws H0 Ha [z [Hz Hfz]].
  - destruct Hz as [Hz|[]]. subst z. exists a, a.
    split; [left; reflexivity|]. split; [left; reflexivity|].
    split; [exact Ha|]. split; [exact Hfz|]. lra.
  - destruct (Qlt_le_dec (frequency b) f) as [Hb|Hb].
    + destruct (IH b (wellSpaced_tail _ _ Hws) H0 (Qlt_le_weak _ _ Hb))
        as (x & y & Hx & Hy & H).
      * destruct Hz as [Hz|Hz]; [|eauto]. subst z.
        pose proof (wellSpaced_head_lt a (b :: table) b Hws
                      ltac:(left; reflexivity)).
        lra.
      * exists x, y. split; [right; exact Hx|]. split; [right; exact Hy|].
        exact H.
    + exists a, b. split; [left; reflexivity|].
      split; [right; left; reflexivity|].
      cbn [wellSpaced] in Hws. apply andb_prop in Hws.
      destruct Hws as [Hws _]. apply andb_prop in Hws.
      destruct Hws as [_ Hgap]. qbool. auto.
Qed.

(** The band of frequencies that resolve to a note: from 5% below the
    lowest entry to 5% above the highest, without a gap in between. *)
Theorem findClosestNote_resolves_iff (f : Q) :
  (exists n, findClosestNote f = Some n) <->
  78.2895 <= f /\ f <= 1037.1585.
Proof.
  split.
  - intros [n Hn].
    destruct (Qlt_le_dec 0 f) as [Hf|Hf].
    2:{ unfold findClosestNote, findClosestIn in Hn.
        apply Qleb_le in Hf. rewrite Hf in Hn. discriminate. }
    destruct (findClosestIn_positive GUITAR_NOTES f ltac:(discriminate) Hf)
      as (m & Hm & _ & E).
    unfold findClosestNote in Hn. rewrite E in Hn.
    destruct (Qltb (frequency m * 0.05) (difference f m)) eqn:Et;
      [discriminate|].
    destruct (table_frequency_bounds m Hm). qbool. clear - H H0 Et.
    by_sign; split; lra.
  - intros [Hlo Hhi].
    assert (0 < f) as Hf by lra.
    destruct (findClosestIn_positive GUITAR_NOTES f ltac:(discriminate) Hf)
      as (m & Hm & Hmin & E).
    unfold findClosestNote. rewrite E.
    destruct (table_frequency_bounds m Hm) as [Hm1 Hm2].
    assert (difference f m <= frequency m * 0.05) as Htol.
    { destruct (Qlt_le_dec f 82.41) as [Hl|Hl].
      - pose proof (Hmin (mkNote "E2" 82.41 "e2.mp3")
                      ltac:(left; reflexivity)) as H.
        cbn [frequency] in H. unfold difference in H. cbn [frequency] in H.
        clear - H Hl Hlo Hm1. by_sign; lra.
      - destruct (Qlt_le_dec 987.77 f) as [Hu|Hu].
        + assert (In (mkNote "B5" 987.77 "b5.mp3") GUITAR_NOTES) as Hin
            by (apply (nth_error_In _ 43); reflexivity).
          pose proof (Hmin _ Hin) as H.
          unfold difference in H. cbn [frequency] in H.
          clear - H Hu Hhi Hm2. by_sign; lra.
        + destruct (wellSpaced_bracket f (tl GUITAR_NOTES) (hd m GUITAR_NOTES))
            as (x & y & Hx & Hy & Hxf & Hfy & Hgap).
          * exact GUITAR_NOTES_wellSpaced.
          * lra.
          * exact Hl.
          * exists (mkNote "B5" 987.77 "b5.mp3"). split; [|exact Hu].
            apply (nth_error_In _ 43). reflexivity.
          * pose proof (Hmin x Hx) as H1. pose proof (Hmin y Hy) as H2.
            clear - H1 H2 Hxf Hfy Hgap. by_sign; lra. }
    apply Qltb_ge in Htol. rewrite Htol. eauto.
Qed.

Lemma findClosestNote_resolves_iff_witness :
  (exists n, findClosestNote 1000 = Some n) /\
  ~ (exists n, findClosestNote 1040 = Some n).
Proof.
  split.
  - apply (proj2 (findClosestNote_resolves_iff 1000)).
    split; unfold Qle; cbn; lia.
  - intros H. apply (proj1 (findClosestNote_resolves_iff 1040)) in H.
    destruct H as [_ H]. revert H. unfold Qle. cbn. lia.
Defined.

(** Every entry of the table is found again from its own frequency. *)
Theorem findClosestNote_table_round_trip (n : Note) :
  In n GUITAR_NOTES -> findClosestNote (frequency n) = Some n.
Proof.
  assert (Forall (fun n => findClosestNote (frequency n) = Some n)
                 GUITAR_NOTES) as H
    by (repeat (constructor; [vm_compute; reflexivity|]); constructor).
  rewrite Forall_forall in H. apply H.
Qed.

Lemma findClosestNote_table_round_trip_witness :
  findClosestNote (frequency (mkNote "G#3/Ab3" 207.65 "g-3.mp3"))
  = Some (mkNote "G#3/Ab3" 207.65 "g-3.mp3").
Proof.
  apply (findClosestNote_table_round_trip (mkNote "G#3/Ab3" 207.65 "g-3.mp3")).
  apply (nth_error_In _ 16). reflexivity.
Defined.

Lemma table_entries_apart :
  forallb (fun i => forallb (apart i) (seq 0 44)) (seq 0 44) = true.
Proof. vm_compute. reflexivity. Qed.

(** A pitch within 2% of the frequency of a table note resolves to that
    note: every other entry is further away, and the tolerance of 5% is
    kept with room to spare. *)
Lemma findClosestNote_near (p : Q) (n : Note) :
  In n GUITAR_NOTES -> Qabs (p - frequency n) <= 0.02 * frequency n ->
  findClosestNote p = Some n.
Proof.
  intros Hn Hp. destruct (table_frequency_bounds n Hn) as [Hn1 Hn2].
  assert (0 < p) as Hpos by (clear - Hp Hn1; by_sign; lra).
  destruct (findClosestIn_positive GUITAR_NOTES p ltac:(discriminate) Hpos)
    as (m & Hm & Hmin & E).
  unfold findClosestNote. rewrite E.
  pose proof (Hmin n Hn) as Hmn.
  destruct (In_nth_error _ _ Hm) as [i Hi].
  destruct (In_nth_error _ _ Hn) as [j Hj].
  assert (i < 44)%nat as Hi44
    by (apply (nth_error_Some GUITAR_NOTES i); congruence).
  assert (j < 44)%nat as Hj44
    by (apply (nth_error_Some GUITAR_NOTES j); congruence).
  pose proof table_entries_apart as T.
  rewrite forallb_forall in T.
  specialize (T i ltac:(apply in_seq; lia)).
  rewrite forallb_forall in T.
  specialize (T j ltac:(apply in_seq; lia)).
  unfold apart in T. rewrite Hi, Hj in T.
  apply orb_prop in T. destruct T as [T|T].
  - apply Nat.eqb_eq in T. subst j.
    assert (m = n) by congruence. subst m.
    replace (Qltb (frequency n * 0.05) (difference p n)) with false;
      [reflexivity|].
    symmetry. apply Qltb_ge. clear - Hp Hn1. by_sign; lra.
  - exfalso. qbool. clear - T Hmn Hp Hn1. by_sign; lra.
Qed.

End NoteTableMore.

(** ** Intervals between notes *)

Section Intervals.
Import Notes Spec Training.

Lemma nth_error_catalogued k n :
  nth_error GUITAR_NOTES k = Some n -> catalogued n k.
Proof.
  intros H.
  assert (k < List.length GUITAR_NOTES)%nat as Hk
    by (apply nth_error_Some; congruence).
  destruct (noteAt_catalogued (Z.of_nat k)) as (m & Hm & Hc); [lia|].
  rewrite Nat2Z.id in Hc. destruct Hc as [Hc1 Hc2].
  assert (m = n) by congruence. subst m. split; assumption.
Qed.

(** [calculateSemitones] of two entries of the table is the distance of
    their indices; of a note whose name is not in the table it is 0. *)
Theorem calculateSemitones_table :
  (forall i j a b,
     nth_error GUITAR_NOTES i = Some a ->
     nth_error GUITAR_NOTES j = Some b ->
     calculateSemitones a b = Z.abs (Z.of_nat j - Z.of_nat i) /\
     calculateSemitones a b = calculateSemitones b a /\
     (calculateSemitones a b = 0%Z <-> a = b)) /\
  (forall a b,
     findIndex (name a) = None ->
     calculateSemitones a b = 0%Z /\ calculateSemitones b a = 0%Z).
Proof.
  split.
  - intros i j a b Ha Hb.
    destruct (nth_error_catalogued i a Ha) as [_ Hia].
    destruct (nth_error_catalogued j b Hb) as [_ Hjb].
    unfold calculateSemitones. rewrite Hia, Hjb.
    split; [reflexivity|]. split; [lia|]. split.
    + intros H. assert (i = j) by lia. subst j. congruence.
    + intros ->. assert (Some i = Some j) as E by congruence.
      injection E as ->. lia.
  - intros a b H. unfold calculateSemitones. rewrite H.
    split; [reflexivity|]. destruct (findIndex (name b)); reflexivity.
Qed.

Lemma calculateSemitones_table_witness :
  calculateSemitones C4 E4 = 4%Z /\ calculateSemitones E4 C4 = 4%Z /\
  calculateSemitones (mkNote "H9" 1 "h9.mp3") C4 = 0%Z.
Proof.
  destruct calculateSemitones_table as [Htable Hunknown].
  destruct (Htable 20%nat 24%nat C4 E4 eq_refl eq_refl) as (H1 & H2 & _).
  split; [exact H1|]. split; [rewrite <- H2; exact H1|].
  apply (Hunknown (mkNote "H9" 1 "h9.mp3") C4). reflexivity.
Defined.

(** With [maxInterval = 0] the reference note itself is returned. *)
Theorem getRandomNoteWithinInterval_zero (k : nat) (ref : Note) (r : Q) :
  nth_error GUITAR_NOTES k = Some ref -> 0 <= r -> r < 1 ->
  getRandomNoteWithinInterval ref 0 r = Some ref.
Proof.
  intros Hk H0 H1. pose proof (nth_error_catalogued k ref Hk) as Hc.
  destruct (getRandomNoteWithinInterval_catalogued ref k 0 r Hc
              ltac:(lia) H0 H1) as (n & kn & -> & [Hn _] & Hd).
  assert (kn = k) by lia. subst kn. congruence.
Qed.

Lemma getRandomNoteWithinInterval_zero_witness :
  getRandomNoteWithinInterval E4 0 (7 # 10) = Some E4.
Proof.
  apply (getRandomNoteWithinInterval_zero 24 E4 (7 # 10)).
  - reflexivity.
  - unfold Qle. cbn. lia.
  - reflexivity.
Defined.

Lemma Qfloor_exact (j n : Z) :
  (0 < n)%Z -> Qfloor (inject_Z j / inject_Z n * inject_Z n) = j.
Proof.
  intros Hn. rewrite <- (Qfloor_Z j) at 2. apply Qfloor_comp.
  field. intros H. apply (inject_Z_injective n 0%Z) in H. lia.
Qed.

(** Every table note within [maxInterval] indices of the reference is
    the result for some draw: nothing inside the window is unreachable. *)
Theorem getRandomNoteWithinInterval_reaches
    (kref k : nat) (ref target : Note) (bound : Z) :
  nth_error GUITAR_NOTES kref = Some ref ->
  nth_error GUITAR_NOTES k = Some target ->
  (Z.abs (Z.of_nat kref - Z.of_nat k) <= bound)%Z ->
  exists r, 0 <= r /\ r < 1 /\
            getRandomNoteWithinInterval ref bound r = Some target.
Proof.
  intros Href Hk Hd.
  assert (kref < List.length GUITAR_NOTES)%nat as Hlr
    by (apply nth_error_Some; congruence).
  assert (k < List.length GUITAR_NOTES)%nat as Hlk
    by (apply nth_error_Some; congruence).
  destruct (nth_error_catalogued kref ref Href) as [_ Hi].
  unfold getRandomNoteWithinInterval. rewrite Hi.
  set (len := Z.of_nat (List.length GUITAR_NOTES)) in *.
  set (minIndex := Z.max 0 (Z.of_nat kref - bound)).
  set (maxIndex := Z.min (len - 1) (Z.of_nat kref + bound)).
  assert (minIndex <= Z.of_nat k <= maxIndex)%Z
    by (unfold minIndex, maxIndex, len; lia).
  set (count := (maxIndex - minIndex + 1)%Z).
  set (j := (Z.of_nat k - minIndex)%Z).
  assert (0 < count)%Z by (unfold count; lia).
  assert (0 <= j < count)%Z by (unfold j, count; lia).
  assert (0 < inject_Z count)
    by (change 0 with (inject_Z 0); rewrite <- Zlt_Qlt; lia).
  exists (inject_Z j / inject_Z count). split; [|split].
  - apply Qle_shift_div_l; [assumption|]. rewrite Qmult_0_l.
    change 0 with (inject_Z 0). rewrite <- Zle_Qle. lia.
  - apply Qlt_shift_div_r; [assumption|]. rewrite Qmult_1_l.
    rewrite <- Zlt_Qlt. lia.
  - rewrite Qfloor_exact by assumption.
    replace (minIndex + j)%Z with (Z.of_nat k) by (unfold j; lia).
    unfold noteAt. destruct (Z.of_nat k <? 0)%Z eqn:E;
      [apply Z.ltb_lt in E; lia|].
    rewrite Nat2Z.id. exact Hk.
Qed.

Lemma getRandomNoteWithinInterval_reaches_witness :
  exists r, 0 <= r /\ r < 1 /\
            getRandomNoteWithinInterval C4 5 r = Some E4.
Proof.
  apply (getRandomNoteWithinInterval_reaches 20 24 C4 E4 5).
  - reflexivity.
  - reflexivity.
  - cbn. lia.
Defined.

(** With [notesPerTurn] at most 1, also zero or negative, the generated
    sequence still holds exactly one note. *)
Theorem generateNewSequence_single (settings : Settings) (rand : nat -> Q) :
  (notesPerTurn settings <= 1)%Z ->
  0 <= rand 0%nat -> rand 0%nat < 1 ->
  exists n, In n GUITAR_NOTES /\
            generateNewSequence settings rand = Some [n].
Proof.
  intros HL H0 H1. unfold generateNewSequence.
  destruct (getRandomNote_catalogued _ H0 H1) as (n & k & -> & [Hn _]).
  replace (Z.to_nat (notesPerTurn settings - 1)) with 0%nat by lia.
  exists n. split; [eapply nth_error_In, Hn|reflexivity].
Qed.

Lemma generateNewSequence_single_witness :
  exists n, In n GUITAR_NOTES /\
            generateNewSequence (mkSettings 0 5 3 true true 10 0.01)
                                (fun _ => 1 # 2) = Some [n].
Proof.
  apply (generateNewSequence_single (mkSettings 0 5 3 true true 10 0.01)
           (fun _ => 1 # 2)).
  - cbn. lia.
  - unfold Qle. cbn. lia.
  - reflexivity.
Defined.

(** Neighbours of a generated sequence are at most [maxInterval]
    semitones apart, as [calculateSemitones] measures them. *)
Theorem generateNewSequence_semitones (settings : Settings) (rand : nat -> Q) :
  (1 <= notesPerTurn settings)%Z ->
  (0 <= maxInterval settings)%Z ->
  (forall k, 0 <= rand k /\ rand k < 1) ->
  exists notes,
    generateNewSequence settings rand = Some notes /\
    forall k a b,
      nth_error notes k = Some a -> nth_error notes (S k) = Some b ->
      (calculateSemitones a b <= maxInterval settings)%Z.
Proof.
  intros HL HM Hr.
  destruct (generateNewSequence_returns settings rand HL HM Hr)
    as (notes & Hg & _ & _ & Hadj).
  exists notes. split; [exact Hg|]. intros k a b Ha Hb.
  destruct (Hadj k a b Ha Hb) as (ia & ib & [_ Hia] & [_ Hib] & Hd).
  unfold calculateSemitones. rewrite Hia, Hib. lia.
Qed.

Lemma generateNewSequence_semitones_witness :
  exists notes,
    generateNewSequence (mkSettings 3 2 3 true true 10 0.01)
                        (fun k => 1 # Pos.of_succ_nat (S k)) = Some notes /\
    forall k a b,
      nth_error notes k = Some a -> nth_error notes (S k) = Some b ->
      (calculateSemitones a b <= 2)%Z.
Proof.
  apply (generateNewSequence_semitones (mkSettings 3 2 3 true true 10 0.01)
           (fun k => 1 # Pos.of_succ_nat (S k))).
  - cbn. lia.
  - cbn. lia.
  - intros k. split.
    + unfold Qle. cbn. lia.
    + unfold Qlt. cbn. lia.
Defined.

End Intervals.

(** ** The detection session, continued *)

Section SessionMore.
Import Notes AudioUtils Spec.

(** [startPitchDetection] never fails to listen: in every environment it
    installs a timer, registers the callback and empties the window.  A
    denied permission gives the simulated loop; otherwise Android gets the
    enhanced loop, the Web the Web loop (the simulated one without Web
    Audio or a microphone stream) and every other platform the native
    loop. *)
Theorem startPitchDetection_listens (env : Env) (s : AudioUtils.t) :
  let s' := startPitchDetection env s in
  listening s' = true /\
  onPitchDetected s' = true /\
  detectionHistory s' = [] /\
  (permissionGranted env = false ->
   pitchDetectionInterval s' = Some (SimulatedLoop "")) /\
  (permissionGranted env = true -> OS env = android ->
   mobileRecordingInterval s' = Some EnhancedLoop) /\
  (permissionGranted env = true -> OS env <> android -> OS env <> web ->
   mobileRecordingInterval s' = Some NativeLoop) /\
  (permissionGranted env = true -> OS env = web ->
   pitchDetectionInterval s' =
     Some (if webAudioSupported env && getUserMediaOk env
           then WebLoop else SimulatedLoop "")).
Proof.
  unfold startPitchDetection, startWebPitchDetection.
  destruct env as [os granted supported media mode]. cbn [permissionGranted
    OS webAudioSupported getUserMediaOk].
  destruct s as [p m]. destruct p;
    destruct granted, os, supported, media; cbn;
    repeat split; intros; try reflexivity; try discriminate;
    try congruence.
Qed.

Lemma startPitchDetection_listens_witness :
  pitchDetectionInterval (startPitchDetection deniedWebEnv initial)
  = Some (SimulatedLoop "") /\
  pitchDetectionInterval (startPitchDetection webEnv initial) = Some WebLoop.
Proof.
  split.
  - apply (startPitchDetection_listens deniedWebEnv initial). reflexivity.
  - apply (proj2 (proj2 (proj2 (proj2 (proj2 (proj2
             (startPitchDetection_listens webEnv initial))))))); reflexivity.
Defined.

(** After [stopPitchDetection] nothing listens and the window is empty;
    a tick of the Web, resumed, native or enhanced callback that still
    fires calls nobody and changes nothing. *)
Theorem stopPitchDetection_silences (s : AudioUtils.t) (i : TickInput) :
  let s' := stopPitchDetection s in
  listening s' = false /\
  detectionHistory s' = [] /\
  tick WebLoop s' i = (s', []) /\
  tick ResumedWebLoop s' i = (s', []) /\
  tick NativeLoop s' i = (s', []) /\
  tick EnhancedLoop s' i = (s', []).
Proof. cbn. repeat split; reflexivity. Qed.

(** A pause followed by a resume, on a strategy that can be resumed,
    listens again and keeps the callback, the threshold, the window and
    its size; on the Web the timer then runs the callback of
    [resumePitchDetection], not the one of [startWebPitchDetection]. *)
Theorem pause_resume_round_trip (env : Env) (s : AudioUtils.t) :
  listening s = true -> resumable env s = true ->
  let s' := resumePitchDetection env (pausePitchDetection s) in
  listening s' = true /\
  isPitchDetectionPaused s' = false /\
  pitchDetectionWasRunning s' = false /\
  onPitchDetected s' = onPitchDetected s /\
  AudioUtils.volumeThreshold s' = AudioUtils.volumeThreshold s /\
  detectionHistory s' = detectionHistory s /\
  historySize s' = historySize s /\
  (OS env = web -> pitchDetectionInterval s' = Some ResumedWebLoop).
Proof.
  intros Hl Hr. destruct s as [p m]. unfold resumable in Hr.
  cbn in Hl, Hr. unfold pausePitchDetection, resumePitchDetection.
  destruct p, m; try discriminate Hl; cbn;
    destruct (OS env); try discriminate Hr; cbn; try rewrite Hr; cbn;
    repeat split; try reflexivity; try discriminate.
Qed.

Lemma pause_resume_round_trip_witness :
  let s := heard 440 3 in
  let s' := resumePitchDetection webEnv (pausePitchDetection s) in
  listening s' = true /\
  isPitchDetectionPaused s' = false /\
  pitchDetectionWasRunning s' = false /\
  onPitchDetected s' = onPitchDetected s /\
  AudioUtils.volumeThreshold s' = AudioUtils.volumeThreshold s /\
  detectionHistory s' = detectionHistory s /\
  historySize s' = historySize s /\
  (OS webEnv = web -> pitchDetectionInterval s' = Some ResumedWebLoop).
Proof.
  apply (pause_resume_round_trip webEnv (heard 440 3)); reflexivity.
Defined.

(** [resumePitchDetection] is idempotent: a second call changes nothing. *)
Lemma resumePitchDetection_idempotent (env : Env) (s : AudioUtils.t) :
  resumePitchDetection env (resumePitchDetection env s)
  = resumePitchDetection env s.
Proof.
  unfold resumePitchDetection.
  destruct (negb (isPitchDetectionPaused s) ||
            negb (pitchDetectionWasRunning s)) eqn:E.
  - rewrite E. reflexivity.
  - cbn [isPitchDetectionPaused set_flags negb orb]. reflexivity.
Qed.

End SessionMore.

(** ** The detection loops, continued *)

Section LoopsMore.
Import Notes AudioUtils Spec SpecMore.

Lemma lenQ_pos (A : Type) (l : list A) :
  l <> [] -> 0 < inject_Z (Z.of_nat (List.length l)).
Proof.
  intros H. change 0 with (inject_Z 0). rewrite <- Zlt_Qlt.
  destruct l; [congruence|cbn; lia].
Qed.

Lemma lenQ_cons (A : Type) (x : A) (l : list A) :
  inject_Z (Z.of_nat (List.length (x :: l)))
  == inject_Z (Z.of_nat (List.length l)) + 1.
Proof.
  cbn [List.length]. rewrite Nat2Z.inj_succ, <- Z.add_1_r, inject_Z_plus.
  reflexivity.
Qed.

Lemma fold_sum_bounds lo hi (l : list Q) :
  (forall x, In x l -> lo < x /\ x < hi) ->
  forall acc,
    acc + lo * inject_Z (Z.of_nat (List.length l)) <= fold_left Qplus l acc /\
    fold_left Qplus l acc <= acc + hi * inject_Z (Z.of_nat (List.length l)) /\
    (l <> [] ->
     acc + lo * inject_Z (Z.of_nat (List.length l)) < fold_left Qplus l acc /\
     fold_left Qplus l acc < acc + hi * inject_Z (Z.of_nat (List.length l))).
Proof.
  induction l as [|x l IH]; intros Hall acc.
  - cbn. change (inject_Z 0) with 0.
    split; [lra|]. split; [lra|]. intros H. congruence.
  - destruct (Hall x (or_introl eq_refl)) as [Hx1 Hx2].
    destruct (IH (fun y Hy => Hall y (or_intror Hy)) (acc + x))
      as (H1 & H2 & _).
    pose proof (lenQ_cons Q x l) as E.
    cbn [fold_left]. rewrite E, !Qmult_plus_distr_r, !Qmult_1_r.
    split; [lra|]. split; [lra|]. intros _. split; lra.
Qed.

(** The mean of samples that all lie strictly between two bounds lies
    strictly between them. *)
Lemma average_between lo hi (l : list Q) :
  l <> [] -> (forall x, In x l -> lo < x /\ x < hi) ->
  lo < average l /\ average l < hi.
Proof.
  intros Hne Hall. pose proof (lenQ_pos Q l Hne) as Hlen.
  destruct (fold_sum_bounds lo hi l Hall 0) as (_ & _ & H).
  destruct (H Hne) as [H1 H2]. unfold average, sum. split.
  - apply Qlt_shift_div_l; [exact Hlen|]. lra.
  - apply Qlt_shift_div_r; [exact Hlen|]. lra.
Qed.

Lemma validPitches_inRange s i x :
  In x (validPitches s i) -> inRange s x = true.
Proof. unfold validPitches. intros H. apply filter_In in H. apply H. Qed.

Lemma average_validPitches_inRange s i :
  validPitches s i <> [] -> inRange s (average (validPitches s i)) = true.
Proof.
  intros Hne.
  destruct (average_between (minFrequency s) (maxFrequency s)
              (validPitches s i) Hne) as [H1 H2].
  - intros x Hx. apply validPitches_inRange in Hx. unfold inRange in Hx.
    apply andb_prop in Hx. destruct Hx. qbool. auto.
  - unfold inRange. apply andb_true_intro. split; apply Qltb_lt; assumption.
Qed.

(** Above the threshold, a frame on which at least one detector result
    lies in the instrument range always pushes the mean of those results:
    the second range test of the Web callbacks never rejects it. *)
Theorem web_ticks_push_valid_mean (s : AudioUtils.t) (i : TickInput) :
  webReady s = true ->
  AudioUtils.volumeThreshold s < rms i ->
  validPitches s i <> [] ->
  detectionHistory (fst (webTick s i)) =
    pushHistory (historySize s) (detectionHistory s)
                (average (validPitches s i)) /\
  detectionHistory (fst (resumedWebTick s i)) =
    pushHistory (historySize s) (detectionHistory s)
                (average (validPitches s i)).
Proof.
  intros Hr Hv Hne. unfold webReady in Hr.
  pose proof (average_validPitches_inRange s i Hne) as Hin.
  assert ((0 <? List.length (validPitches s i))%nat = true) as Hlen
    by (apply Nat.ltb_lt; destruct (validPitches s i);
        [congruence|cbn; lia]).
  assert (Qltb (AudioUtils.volumeThreshold s) (rms i) = true) as Hlt
    by (apply Qltb_lt; exact Hv).
  assert (Qleb (AudioUtils.volumeThreshold s) (rms i) = true) as Hle
    by (apply Qleb_le; lra).
  split.
  - unfold webTick. rewrite Hr, Hlt, Hlen, Hin. cbn [negb].
    repeat match goal with
    | |- context [if ?b then _ else _] => destruct b
    | |- context [match findClosestNote ?f with _ => _ end] =>
        destruct (findClosestNote f)
    end; reflexivity.
  - apply andb_prop in Hr. destruct Hr as [Hr _].
    unfold resumedWebTick. rewrite Hr, Hle, Hlen, Hin. cbn [negb].
    repeat match goal with
    | |- context [if ?b then _ else _] => destruct b
    | |- context [match findClosestNote ?f with _ => _ end] =>
        destruct (findClosestNote f)
    end; reflexivity.
Qed.

Lemma web_ticks_push_valid_mean_witness :
  detectionHistory (fst (webTick (heard 440 1) (frame 0.02 (Some 442))))
  = pushHistory 5 [440] (average [442]) /\
  detectionHistory (fst (resumedWebTick (heard 440 1)
                                        (frame 0.02 (Some 442))))
  = pushHistory 5 [440] (average [442]).
Proof.
  apply (web_ticks_push_valid_mean (heard 440 1) (frame 0.02 (Some 442))).
  - reflexivity.
  - reflexivity.
  - vm_compute. discriminate.
Defined.

Ltac open_tick H :=
  repeat match type of H with
  | context [if ?b then _ else _] => destruct b eqn:?
  | context [match findClosestNote ?f with _ => _ end] =>
      destruct (findClosestNote f) eqn:?
  | context [match detectionHistory ?s with _ => _ end] =>
      destruct (detectionHistory s) eqn:?
  end.

Ltac close_emission H :=
  cbn [snd fst app In] in H;
  repeat match type of H with
  | _ \/ _ => destruct H as [H|H]
  | False => destruct H
  | (_, _) = (_, _) => inversion H; subst; clear H
  end.

(** A loop hands a note to the callback only from a window that holds
    enough samples and whose variance is below the bound of that loop, and
    the note is the one [findClosestNote] gives for the mean of that
    window; the volume is the one of the tick. *)
Theorem locked_note_needs_stable_window
    (tm : Timer) (s : AudioUtils.t) (i : TickInput)
    (n : Note) (v : Q) (minCount : nat) (bound : Q) :
  lockRule tm = Some (minCount, bound) ->
  In (Some n, v) (snd (tick tm s i)) ->
  let h := detectionHistory (fst (tick tm s i)) in
  (minCount <= List.length h)%nat /\
  calculateVariance h (average h) < bound /\
  findClosestNote (average h) = Some n /\
  v = reportedVolume tm i.
Proof.
  intros Hrule H.
  destruct tm; cbn [lockRule] in Hrule; try discriminate;
    injection Hrule as <- <-; cbn [tick reportedVolume] in *;
    unfold webTick, resumedWebTick, nativeTick, enhancedTick, emit in *;
    cbv zeta in *; open_tick H; close_emission H;
    cbn [fst detectionHistory set_history];
    repeat match goal with
    | E : _ && _ = true |- _ => apply andb_prop in E; destruct E
    | E : (_ <=? _)%nat = true |- _ => apply Nat.leb_le in E
    end; qbool; auto.
Qed.

Lemma locked_note_needs_stable_window_witness :
  let s := heard 440 2 in
  let i := frame 0.02 (Some 440) in
  let h := detectionHistory (fst (tick WebLoop s i)) in
  (3 <= List.length h)%nat /\
  calculateVariance h (average h) < 5 /\
  findClosestNote (average h) = Some (mkNote "A4" 440.00 "a4.mp3") /\
  0.02 = reportedVolume WebLoop i.
Proof.
  apply (locked_note_needs_stable_window WebLoop (heard 440 2)
           (frame 0.02 (Some 440)) (mkNote "A4" 440.00 "a4.mp3") 0.02 3 5).
  - reflexivity.
  - vm_compute. left. reflexivity.
Defined.

(** Every call of the callback by a loop with a window carries the
    volume of the tick; the loop of [resumePitchDetection] calls it at most
    twice per tick, the other loops at most once. *)
Theorem tick_reports_tick_volume
    (tm : Timer) (s : AudioUtils.t) (i : TickInput) (minCount : nat) (bound : Q) :
  lockRule tm = Some (minCount, bound) ->
  (forall e, In e (snd (tick tm s i)) -> snd e = reportedVolume tm i) /\
  (List.length (snd (tick tm s i)) <=
   match tm with ResumedWebLoop => 2 | _ => 1 end)%nat.
Proof.
  intros Hrule.
  destruct tm; cbn [lockRule] in Hrule; try discriminate;
    cbn [tick reportedVolume];
    unfold webTick, resumedWebTick, nativeTick, enhancedTick, emit;
    cbv zeta;
    repeat match goal with
    | |- context [if ?b then _ else _] => destruct b
    | |- context [match findClosestNote ?f with _ => _ end] =>
        destruct (findClosestNote f)
    | |- context [match detectionHistory ?s with _ => _ end] =>
        destruct (detectionHistory s)
    end;
    cbn [snd app List.length];
    (split; [intros e He; cbn [In] in He;
             repeat match type of He with
             | _ \/ _ => destruct He as [He|He]
             | False => destruct He
             end; subst e; reflexivity
            | lia]).
Qed.

Lemma tick_reports_tick_volume_witness :
  lockRule ResumedWebLoop = Some (3%nat, 5) /\
  Forall (fun e => snd e = 0.02)
    (snd (tick ResumedWebLoop
            (resumePitchDetection webEnv (pausePitchDetection (heard 440 3)))
            (frame 0.02 (Some 440)))) /\
  (List.length
     (snd (tick ResumedWebLoop
             (resumePitchDetection webEnv
                (pausePitchDetection (heard 440%Q 3)))
             (frame 0.02%Q (Some 440%Q)))) <= 2)%nat.
Proof.
  split; [reflexivity|].
  destruct (tick_reports_tick_volume ResumedWebLoop
              (resumePitchDetection webEnv (pausePitchDetection (heard 440 3)))
              (frame 0.02 (Some 440)) 3 5 eq_refl) as [Hvol Hlen].
  split; [apply Forall_forall; exact Hvol | exact Hlen].
Defined.

(** At a volume equal to the threshold the two Web callbacks disagree:
    the one of [startWebPitchDetection] treats the frame as silence
    (reports no note and clears the window), the one of
    [resumePitchDetection] analyses it and pushes the mean of the valid
    results. *)
Theorem gate_at_threshold (s : AudioUtils.t) (i : TickInput) :
  webReady s = true -> onPitchDetected s = true ->
  rms i == AudioUtils.volumeThreshold s ->
  validPitches s i <> [] ->
  snd (webTick s i) = [(None, rms i)] /\
  detectionHistory (fst (webTick s i)) = [] /\
  detectionHistory (fst (resumedWebTick s i)) =
    pushHistory (historySize s) (detectionHistory s)
                (average (validPitches s i)).
Proof.
  intros Hr Hc Heq Hne. unfold webReady in Hr.
  pose proof (average_validPitches_inRange s i Hne) as Hin.
  assert ((0 <? List.length (validPitches s i))%nat = true) as Hlen
    by (apply Nat.ltb_lt; destruct (validPitches s i);
        [congruence|cbn; lia]).
  assert (Qltb (AudioUtils.volumeThreshold s) (rms i) = false) as Hlt
    by (apply Qltb_ge; lra).
  assert (Qleb (AudioUtils.volumeThreshold s) (rms i) = true) as Hle
    by (apply Qleb_le; lra).
  split; [|split].
  - unfold webTick, emit. rewrite Hr, Hlt, Hc. reflexivity.
  - unfold webTick. rewrite Hr, Hlt. cbn [negb fst].
    destruct (detectionHistory s) eqn:E; [exact E|reflexivity].
  - apply andb_prop in Hr. destruct Hr as [Hr _].
    unfold resumedWebTick. rewrite Hr, Hle, Hlen, Hin. cbn [negb].
    repeat match goal with
    | |- context [if ?b then _ else _] => destruct b
    | |- context [match findClosestNote ?f with _ => _ end] =>
        destruct (findClosestNote f)
    end; reflexivity.
Qed.

Lemma gate_at_threshold_witness :
  let s := heard 440 2 in
  let i := frame 0.01 (Some 440) in
  snd (webTick s i) = [(None, 0.01)] /\
  detectionHistory (fst (webTick s i)) = [] /\
  detectionHistory (fst (resumedWebTick s i)) =
    pushHistory 5 [440; 440] (average [440]).
Proof.
  apply (gate_at_threshold (heard 440 2) (frame 0.01 (Some 440))).
  - reflexivity.
  - reflexivity.
  - reflexivity.
  - vm_compute. discriminate.
Defined.

Lemma fold_sum_repeat (x : Q) (n : nat) :
  forall acc,
    fold_left Qplus (repeat x n) acc == acc + x * inject_Z (Z.of_nat n).
Proof.
  induction n as [|n IH]; intros acc.
  - cbn. change (inject_Z 0) with 0. ring.
  - cbn [repeat fold_left]. rewrite IH.
    rewrite Nat2Z.inj_succ, <- Z.add_1_r, inject_Z_plus. ring.
Qed.

Lemma average_repeat (x : Q) (n : nat) :
  (0 < n)%nat -> average (repeat x n) == x.
Proof.
  intros Hn. unfold average, sum. rewrite fold_sum_repeat, repeat_length.
  field. intros H. apply (inject_Z_injective (Z.of_nat n) 0%Z) in H. lia.
Qed.

Lemma calculateVariance_repeat (x mean : Q) (n : nat) :
  mean == x -> calculateVariance (repeat x n) mean == 0.
Proof.
  intros Hm. unfold calculateVariance. rewrite repeat_length.
  destruct (n <? 2)%nat eqn:E; [reflexivity|].
  apply Nat.ltb_ge in E.
  rewrite map_repeat, repeat_length. unfold sum.
  rewrite fold_sum_repeat. cbv zeta. rewrite Hm.
  field. intros H. apply (inject_Z_injective (Z.of_nat n) 0%Z) in H. lia.
Qed.

(** A window of identical samples passes the variance test of every
    loop, and its mean is that sample. *)
Lemma steady_window_is_stable (x bound : Q) (n : nat) :
  (0 < n)%nat -> 0 < bound ->
  average (repeat x n) == x /\
  Qltb (calculateVariance (repeat x n) (average (repeat x n))) bound = true.
Proof.
  intros Hn Hb. pose proof (average_repeat x n Hn) as Ha.
  split; [exact Ha|]. apply Qltb_lt.
  rewrite (calculateVariance_repeat x _ n Ha). exact Hb.
Qed.

Lemma Qltb_compat x x' y y' :
  x == x' -> y == y' -> Qltb x y = Qltb x' y'.
Proof.
  intros Hx Hy.
  destruct (Qltb x y) eqn:E, (Qltb x' y') eqn:E'; try reflexivity;
    qbool; lra.
Qed.

Lemma Qleb_compat x x' y y' :
  x == x' -> y == y' -> Qleb x y = Qleb x' y'.
Proof.
  intros Hx Hy.
  destruct (Qleb x y) eqn:E, (Qleb x' y') eqn:E'; try reflexivity;
    qbool; lra.
Qed.

Lemma difference_compat f g n : f == g -> difference f n == difference g n.
Proof. intros H. unfold difference. rewrite H. reflexivity. Qed.

Lemma fold_scan_compat f g rest :
  f == g ->
  forall best best',
    fst best = fst best' -> snd best == snd best' ->
    fst (fold_left (scan_step f) rest best)
      = fst (fold_left (scan_step g) rest best') /\
    snd (fold_left (scan_step f) rest best)
      == snd (fold_left (scan_step g) rest best').
Proof.
  intros Hfg. induction rest as [|n rest IH]; intros best best' H1 H2;
    cbn [fold_left]; [auto|].
  apply IH; unfold scan_step;
    rewrite (Qltb_compat _ _ _ _ (difference_compat f g n Hfg) H2);
    destruct (Qltb (difference g n) (snd best')); cbn [fst snd]; auto.
  apply difference_compat, Hfg.
Qed.

(** [findClosestNote] gives the same answer on equal rationals. *)
Lemma findClosestNote_compat f g :
  f == g -> findClosestNote f = findClosestNote g.
Proof.
  intros Hfg. unfold findClosestNote, findClosestIn.
  rewrite (Qleb_compat f g 0 0 Hfg (Qeq_refl 0)).
  destruct (Qleb g 0); [reflexivity|].
  cbn [GUITAR_NOTES]. unfold scan.
  match goal with
  | |- context [fold_left (scan_step f) ?rest (?n0, difference f ?n0)] =>
      destruct (fold_scan_compat f g rest Hfg
                  (n0, difference f n0) (n0, difference g n0)
                  eq_refl (difference_compat f g n0 Hfg)) as [H1 H2];
      destruct (fold_left (scan_step f) rest (n0, difference f n0))
        as [c d];
      destruct (fold_left (scan_step g) rest (n0, difference g n0))
        as [c' d']
  end.
  cbn [fst snd] in H1, H2. subst c'.
  rewrite (Qltb_compat _ _ _ _ (Qeq_refl (frequency c * 0.05)) H2).
  reflexivity.
Qed.

(** The open-gate path of the callback of [startWebPitchDetection]. *)
Lemma webTick_open s i :
  webReady s = true -> onPitchDetected s = true ->
  AudioUtils.volumeThreshold s < rms i ->
  validPitches s i <> [] ->
  let h := pushHistory (historySize s) (detectionHistory s)
                       (average (validPitches s i)) in
  webTick s i =
    (set_history s h,
     if Qltb (calculateVariance h (average h)) 5 &&
        (3 <=? List.length h)%nat
     then match findClosestNote (average h) with
          | Some detectedNote => [(Some detectedNote, rms i)]
          | None => []
          end
     else [(None, rms i)]).
Proof.
  intros Hr Hc Hv Hne h. unfold webReady in Hr.
  pose proof (average_validPitches_inRange s i Hne) as Hin.
  assert ((0 <? List.length (validPitches s i))%nat = true) as Hlen
    by (apply Nat.ltb_lt; destruct (validPitches s i);
        [congruence|cbn; lia]).
  assert (Qltb (AudioUtils.volumeThreshold s) (rms i) = true) as Hlt
    by (apply Qltb_lt; exact Hv).
  unfold webTick, emit. rewrite Hr, Hlt, Hlen, Hin. cbn [negb].
  cbn [set_history onPitchDetected detectionHistory]. rewrite Hc.
  fold h.
  destruct (Qltb (calculateVariance h (average h)) 5 &&
            (3 <=? List.length h)%nat); [|reflexivity].
  destruct (findClosestNote (average h)); reflexivity.
Qed.

(** Helper for the next theorem: in exact arithmetic the mean of three
    equal pitches is the pitch. *)
Lemma steady_pitch_locks (p : Q) (n : Note) :
  80 < p -> p < 1200 ->
  findClosestNote p = Some n ->
  snd (webTick (heard p 2) (frame 0.02 (Some p))) = [(Some n, 0.02)].
Proof.
  intros Hlo Hhi Hn.
  set (i := frame 0.02 (Some p)).
  set (s0 := startPitchDetection webEnv initial).
  assert (forall s, minFrequency s = 80 -> maxFrequency s = 1200 ->
                    validPitches s i = [p]) as Hvalid.
  { intros s Hmin Hmax. unfold validPitches, inRange.
    cbn [flat_map pitch1 pitch2 pitch3 i frame app filter].
    rewrite Hmin, Hmax.
    replace (Qltb 80 p) with true by (symmetry; apply Qltb_lt; exact Hlo).
    replace (Qltb p 1200) with true by (symmetry; apply Qltb_lt; exact Hhi).
    reflexivity. }
  set (a := average [p]).
  assert (a == p) as Ha by (apply (average_repeat p 1); lia).
  assert (webTick s0 i = (set_history s0 [a], [(None, 0.02)])) as E1.
  { rewrite webTick_open; try reflexivity.
    - rewrite (Hvalid s0) by reflexivity. reflexivity.
    - rewrite (Hvalid s0) by reflexivity. discriminate. }
  set (s1 := set_history s0 [a]) in *.
  assert (webTick s1 i = (set_history s1 [a; a], [(None, 0.02)])) as E2.
  { rewrite webTick_open; try reflexivity.
    - rewrite (Hvalid s1) by reflexivity. fold a.
      change (pushHistory (historySize s1) (detectionHistory s1) a)
        with [a; a].
      cbn [List.length Nat.leb]. rewrite andb_false_r. reflexivity.
    - rewrite (Hvalid s1) by reflexivity. discriminate. }
  set (s2 := set_history s1 [a; a]) in *.
  assert (heard p 2 = s2) as ->.
  { unfold heard. cbn [repeat run]. fold i s0. cbn [tick].
    rewrite E1. fold s1. rewrite E2. reflexivity. }
  rewrite webTick_open; try reflexivity.
  2:{ rewrite (Hvalid s2) by reflexivity. discriminate. }
  rewrite (Hvalid s2) by reflexivity. fold a. cbn [snd].
  change (pushHistory (historySize s2) (detectionHistory s2) a)
    with (repeat a 3).
  destruct (steady_window_is_stable a 5 3 ltac:(lia) ltac:(reflexivity))
    as [Havg Hstable].
  rewrite Hstable. cbn [repeat List.length Nat.leb andb].
  rewrite (findClosestNote_compat _ p) by (rewrite Havg; exact Ha).
  rewrite Hn. reflexivity.
Qed.

(** From a fresh start on the Web, the third consecutive frame above the
    threshold that carries the same pitch, within 2% of the frequency of a
    table note, hands that note to the callback with the volume of the
    frame.  The margin between the 2% and the next entry of the table, and
    the tolerance of 5%, is far wider than any rounding of the mean. *)
Theorem steady_pitch_locks_note (p : Q) (n : Note) :
  In n GUITAR_NOTES ->
  Qabs (p - frequency n) <= 0.02 * frequency n ->
  snd (webTick (heard p 2) (frame 0.02 (Some p))) = [(Some n, 0.02)].
Proof.
  intros Hn Hp. destruct (table_frequency_bounds n Hn) as [Hn1 Hn2].
  apply steady_pitch_locks.
  - destruct (Qabs_cases (p - frequency n)) as [[S A]|[S A]];
      rewrite A in Hp; lra.
  - destruct (Qabs_cases (p - frequency n)) as [[S A]|[S A]];
      rewrite A in Hp; lra.
  - apply findClosestNote_near; assumption.
Qed.

Lemma steady_pitch_locks_note_witness :
  snd (webTick (heard 445 2) (frame 0.02 (Some 445)))
  = [(Some (mkNote "A4" 440.00 "a4.mp3"), 0.02)].
Proof.
  apply (steady_pitch_locks_note 445 (mkNote "A4" 440.00 "a4.mp3")).
  - apply (nth_error_In _ 29). reflexivity.
  - vm_compute. discriminate.
Defined.

(** The simulated loop hands over only notes whose name differs from
    the last one it handed over, and remembers that name; the note carries
    the dummy frequency 440, and its name and file are those of a note of
    the table; the volume is the threshold plus at most 0.05. *)
Theorem simulatedTick_emits_new_table_names
    (lastNote : string) (s : AudioUtils.t) (i : TickInput)
    (n : Note) (v : Q) :
  0 <= draw i 1%nat -> draw i 1%nat < 1 ->
  0 <= draw i 2%nat -> draw i 2%nat < 1 ->
  In (Some n, v) (snd (simulatedTick lastNote s i)) ->
  name n <> lastNote /\
  fst (simulatedTick lastNote s i) = name n /\
  frequency n = 440 /\
  v = AudioUtils.volumeThreshold s + draw i 3%nat * 0.05 /\
  exists m, In m GUITAR_NOTES /\ name m = name n /\
            audioFile m = audioFile n.
Proof.
  intros Ha0 Ha1 Hb0 Hb1 H.
  pose proof (floor_of_draw (draw i 1%nat) 7 Ha0 Ha1 ltac:(lia)) as Hk.
  pose proof (floor_of_draw (draw i 2%nat) 2 Hb0 Hb1 ltac:(lia)) as Ho.
  change (inject_Z 7) with 7 in Hk. change (inject_Z 2) with 2 in Ho.
  unfold simulatedTick, emit in *.
  destruct (Qltb 0.8 (draw i 0%nat));
    [|destruct (onPitchDetected s); cbn in H;
      repeat (destruct H as [H|H]; [discriminate H|]); destruct H].
  remember (Qfloor (draw i 1%nat * 7)) as k eqn:Ek.
  remember (Qfloor (draw i 2%nat * 2)) as o eqn:Eo.
  clear Ek Eo.
  assert (k = 0 \/ k = 1 \/ k = 2 \/ k = 3 \/ k = 4 \/ k = 5 \/ k = 6)%Z
    as Hkc by lia.
  assert (o = 0 \/ o = 1)%Z as Hoc by lia.
  cbv zeta in *.
  repeat (destruct Hkc as [Hkc|Hkc]; try subst k);
    repeat (destruct Hoc as [Hoc|Hoc]; try subst o);
    cbn [Z.to_nat Pos.to_nat Pos.iter_op Nat.add nth simulatedNoteNames
         Z.add Pos.add Pos.succ octaveDigit Z.eqb Pos.eqb String.append] in *;
    match type of H with
    | context [String.eqb ?a lastNote] =>
        destruct (String.eqb a lastNote) eqn:E;
        [destruct H|apply String.eqb_neq in E]
    end;
    destruct (onPitchDetected s); cbn [snd In] in H;
    try (destruct H as [H|[]]; injection H as <- <-);
    try destruct H;
    cbn [name frequency audioFile fst];
    (split; [exact E|]); (split; [reflexivity|]); (split; [reflexivity|]);
    (split; [reflexivity|]);
    match goal with
    | |- exists m, In m GUITAR_NOTES /\ name m = ?nm /\ audioFile m = ?af =>
        assert (existsb (fun m => String.eqb (name m) nm &&
                                  String.eqb (audioFile m) af)
                        GUITAR_NOTES = true) as Hex
          by (vm_compute; reflexivity);
        apply existsb_exists in Hex; destruct Hex as (m & Hm & Em);
        apply andb_prop in Em; destruct Em as [E1 E2];
        apply String.eqb_eq in E1; apply String.eqb_eq in E2;
        exists m; auto
    end.
Qed.

Lemma simulatedTick_emits_new_table_names_witness :
  let s := startPitchDetection deniedWebEnv initial in
  let i := mkInput 0 None None None
             (fun k => match k with
                       | 0%nat => 9 # 10 | 1%nat => 1 # 2
                       | 2%nat => 3 # 4 | _ => 1 # 5
                       end) in
  name (mkNote "F4" 440 "f4.mp3") <> ""%string /\
  fst (simulatedTick "" s i) = "F4"%string.
Proof.
  intros s i.
  destruct (simulatedTick_emits_new_table_names "" s i
              (mkNote "F4" 440 "f4.mp3") (0.01 + (1 # 5) * 0.05))
    as (H1 & H2 & _).
  - unfold Qle. cbn. lia.
  - reflexivity.
  - unfold Qle. cbn. lia.
  - reflexivity.
  - vm_compute. left. reflexivity.
  - split; [exact H1|exact H2].
Defined.

End LoopsMore.

(** ** Playback, continued *)

Section PlaybackMore.
Import Notes AudioUtils Spec SpecMore Playback.

Variable env : Env.
Variable soundFails : nat -> bool.

Lemma neverThrows_bind {A B} (m : M A) (k : A -> M B) :
  neverThrows m -> (forall a, neverThrows (k a)) -> neverThrows (bind m k).
Proof.
  intros Hm Hk w. destruct (Hm w) as (a & w1 & E).
  destruct (Hk a w1) as (b & w2 & E2).
  exists b, w2. unfold bind. rewrite E. exact E2.
Qed.

Lemma neverThrows_tryCatch {A} (body handler : M A) :
  neverThrows handler -> neverThrows (tryCatch body handler).
Proof.
  intros Hh w. unfold tryCatch.
  destruct (body w) as [[a|] w1]; [eauto|apply Hh].
Qed.

Lemma neverThrows_tryFinally {A} (body : M A) (fin : M unit) :
  neverThrows body -> neverThrows fin -> neverThrows (tryFinally body fin).
Proof.
  intros Hb Hf w. unfold tryFinally.
  destruct (Hb w) as (a & w1 & E). rewrite E.
  destruct (Hf w1) as (u & w2 & E2). rewrite E2. eauto.
Qed.

Lemma neverThrows_record e : neverThrows (record e).
Proof. intros w. unfold record. eauto. Qed.

Lemma neverThrows_onSession f : neverThrows (onSession f).
Proof. intros w. unfold onSession. eauto. Qed.

Lemma neverThrows_pause : neverThrows pause.
Proof.
  apply neverThrows_bind; [apply neverThrows_record|].
  intros _. apply neverThrows_onSession.
Qed.

Lemma neverThrows_resume : neverThrows (resume env).
Proof.
  apply neverThrows_bind; [apply neverThrows_record|].
  intros _. apply neverThrows_onSession.
Qed.

Lemma neverThrows_playNote note : neverThrows (playNote env soundFails note).
Proof. apply neverThrows_tryCatch. intros w. exists tt, w. reflexivity. Qed.

Lemma neverThrows_playSequence notes delay :
  neverThrows (playSequence env soundFails notes delay).
Proof. apply neverThrows_tryCatch. intros w. exists tt, w. reflexivity. Qed.

(** No playback routine lets an exception escape, whichever sounds fail
    and whatever the state of the session: not [playNote] and
    [playSequence], which catch, and not the demonstration, which only
    has a [finally], nor the success figure. *)
Theorem playback_never_throws :
  (forall note, neverThrows (playNote env soundFails note)) /\
  (forall notes delay, neverThrows (playSequence env soundFails notes delay)) /\
  (forall notes,
     neverThrows (playCurrentSequenceWithNotes env soundFails notes)) /\
  neverThrows (playSuccessSound env soundFails).
Proof.
  split; [exact neverThrows_playNote|].
  split; [exact neverThrows_playSequence|]. split.
  - intros [|note rest]; [intros w; exists tt, w; reflexivity|].
    unfold playCurrentSequenceWithNotes.
    apply neverThrows_bind; [apply neverThrows_record|]. intros _.
    apply neverThrows_bind; [apply neverThrows_pause|]. intros _.
    apply neverThrows_tryFinally.
    + repeat first
        [ apply neverThrows_playSequence
        | apply neverThrows_record
        | apply neverThrows_bind; [|intros _] ].
    + apply neverThrows_bind; [apply neverThrows_resume|]. intros _.
      apply neverThrows_record.
  - unfold playSuccessSound. apply neverThrows_tryCatch.
    apply neverThrows_resume.
Qed.

Lemma soundsOf_app a b : soundsOf (a ++ b) = soundsOf a ++ soundsOf b.
Proof. apply flat_map_app. Qed.

Lemma playNote_sounds note w :
  exists w',
    playNote env soundFails note w = (Returned tt, w') /\
    soundsOf (trace w') = soundsOf (trace w) ++ [audioFile note] /\
    plays w' = S (plays w).
Proof.
  destruct w as [s tr k].
  unfold playNote, tryCatch, tryFinally, bind, ensureInitialized, getSession,
    init, when, pause, resume, record, onSession, playSound, ret, bind.
  cbn [session trace plays].
  destruct (isInitialized s), (audioModeOk env); cbn;
    destruct (isPitchDetectionPaused s); cbn;
    destruct (soundFails k);
    cbn; eexists; (split; [reflexivity|]); cbn [trace plays];
    unfold soundsOf; rewrite ?flat_map_app; cbn; rewrite ?app_nil_r;
    split; reflexivity.
Qed.

Lemma playEach_sounds notes delay :
  forall w, exists w',
    playEach env soundFails notes delay w = (Returned tt, w') /\
    soundsOf (trace w') = soundsOf (trace w) ++ map audioFile notes /\
    plays w' = (plays w + List.length notes)%nat.
Proof.
  induction notes as [|note rest IH]; intros w; cbn [playEach].
  - exists w. unfold ret. cbn. rewrite app_nil_r, Nat.add_0_r. auto.
  - destruct (playNote_sounds note w) as (w1 & E1 & S1 & P1).
    unfold bind at 1. rewrite E1.
    assert (exists w2,
              when (match rest with [] => false | _ => true end) (wait delay)
                   w1 = (Returned tt, w2) /\
              soundsOf (trace w2) = soundsOf (trace w1) /\
              plays w2 = plays w1) as (w2 & E2 & S2 & P2).
    { destruct rest; unfold when, wait, record, ret; cbn;
        eexists; (split; [reflexivity|]); cbn [trace plays];
        unfold soundsOf; rewrite ?flat_map_app; cbn; rewrite ?app_nil_r;
        auto. }
    unfold bind at 1. rewrite E2.
    destruct (IH w2) as (w3 & E3 & S3 & P3).
    exists w3. rewrite E3. split; [reflexivity|]. split.
    + rewrite S3, S2, S1, <- app_assoc. reflexivity.
    + rewrite P3, P2, P1. cbn. lia.
Qed.

Lemma playSequence_sounds notes delay w :
  exists w',
    playSequence env soundFails notes delay w = (Returned tt, w') /\
    soundsOf (trace w') = soundsOf (trace w) ++ map audioFile notes /\
    plays w' = (plays w + List.length notes)%nat.
Proof.
  destruct w as [s tr k].
  destruct (neverThrows_playSequence notes delay (mkWorld s tr k))
    as ([] & w' & E).
  exists w'. split; [exact E|]. revert E.
  unfold playSequence, tryCatch, tryFinally, bind at 1, ensureInitialized,
    bind at 1, getSession at 1.
  cbn [session trace plays].
  assert (forall s0 tr0,
            soundsOf tr0 = soundsOf tr ->
            forall w0,
              match
                (s1 <- getSession ;;
                 let wasPitchDetectionPaused := isPitchDetectionPaused s1 in
                 when (negb wasPitchDetectionPaused) pause ;;
                 tryFinally
                   (playEach env soundFails notes delay)
                   (when (negb wasPitchDetectionPaused) (resume env)))
                  (mkWorld s0 tr0 k)
              with
              | (Returned a, w1) => (Returned a, w1)
              | (Thrown, w1) => ret tt w1
              end = (Returned tt, w0) ->
              soundsOf (trace w0) = soundsOf tr ++ map audioFile notes /\
              plays w0 = (k + List.length notes)%nat) as Hbody.
  { intros s0 tr0 Htr w0.
    unfold bind at 1, getSession at 1. cbn [session].
    unfold bind at 1, when at 1, pause, bind at 1, record at 1,
      onSession at 1, ret at 1, tryFinally.
    destruct (isPitchDetectionPaused s0); cbn [negb session trace plays].
    - destruct (playEach_sounds notes delay (mkWorld s0 tr0 k))
        as (w1 & E1 & S1 & P1).
      rewrite E1. unfold when, ret. intros [= <-].
      cbn [trace plays] in *. rewrite S1, Htr. auto.
    - destruct (playEach_sounds notes delay
                  (mkWorld (pausePitchDetection s0) (tr0 ++ [PauseCalled]) k))
        as (w1 & E1 & S1 & P1).
      rewrite E1. unfold when, resume, bind, record, onSession.
      intros [= <-]. cbn [trace plays] in *.
      rewrite soundsOf_app, S1, soundsOf_app, Htr. cbn.
      rewrite !app_nil_r. auto. }
  destruct (isInitialized s).
  - unfold ret at 1. apply Hbody. reflexivity.
  - unfold init. destruct (audioModeOk env).
    + unfold bind at 1, onSession at 1, bind at 1, ret at 1, ret at 1.
      cbn [session trace plays]. apply Hbody. reflexivity.
    + unfold bind at 1, ret at 1, ret at 1. apply Hbody. reflexivity.
Qed.

(** [playSequence] hands every note of the sequence to the sound
    manager exactly once and in order, also after a sound has failed. *)
Theorem playSequence_attempts_every_note notes delay w :
  exists w',
    playSequence env soundFails notes delay w = (Returned tt, w') /\
    soundsOf (trace w') = soundsOf (trace w) ++ map audioFile notes /\
    plays w' = (plays w + List.length notes)%nat.
Proof. apply playSequence_sounds. Qed.

Lemma three_times_sounds notes w :
  exists w',
    (playSequence env soundFails notes 1000 ;; wait 1500 ;;
     playSequence env soundFails notes 1000 ;; wait 1500 ;;
     playSequence env soundFails notes 1000) w = (Returned tt, w') /\
    soundsOf (trace w') =
      soundsOf (trace w) ++ map audioFile (notes ++ notes ++ notes).
Proof.
  destruct (playSequence_sounds notes 1000 w)
    as (w1 & E1 & S1 & _).
  unfold bind at 1. rewrite E1.
  unfold bind at 1, wait at 1, record at 1. cbn beta iota.
  unfold bind at 1.
  match goal with |- context [playSequence env soundFails notes 1000 ?w] =>
    destruct (playSequence_sounds notes 1000 w)
      as (w2 & E2 & S2 & _)
  end.
  rewrite E2.
  unfold bind at 1, wait at 1, record at 1. cbn beta iota.
  match goal with |- context [playSequence env soundFails notes 1000 ?w] =>
    destruct (playSequence_sounds notes 1000 w)
      as (w3 & E3 & S3 & _)
  end.
  rewrite E3. exists w3. split; [reflexivity|].
  cbn [trace] in *.
  rewrite S3, soundsOf_app, S2, soundsOf_app, S1.
  cbn [soundsOf flat_map app]. rewrite !app_nil_r, !map_app, <- !app_assoc.
  reflexivity.
Qed.

(** A demonstration hands the sequence to the sound manager three
    times over, note by note, whichever sounds fail; an empty sequence plays
    nothing. *)
Theorem demonstration_plays_three_times notes s :
  exists w',
    playCurrentSequenceWithNotes env soundFails notes (start s)
    = (Returned tt, w') /\
    soundsOf (trace w') = map audioFile (notes ++ notes ++ notes).
Proof.
  destruct notes as [|note rest]; [eexists; split; reflexivity|].
  unfold playCurrentSequenceWithNotes, start.
  unfold bind at 1, record at 1. cbn [session trace plays].
  unfold bind at 1, pause at 1, bind at 1, record at 1, onSession at 1.
  cbn [session trace plays]. unfold tryFinally.
  match goal with |- context [_ ;; _ ;; _ ;; _ ;; _] =>
    match goal with |- context [let (_, _) := _ ?w in _] =>
      destruct (three_times_sounds (note :: rest) w) as (w3 & E3 & S3)
    end
  end.
  rewrite E3. unfold bind, resume, record, onSession.
  eexists. split; [reflexivity|]. cbn [trace].
  rewrite !soundsOf_app, S3. cbn [trace soundsOf flat_map app].
  rewrite !app_nil_r. reflexivity.
Qed.

(** The success figure hands C4, E4, G4 and C5 to the sound manager, in
    that order, whichever sounds fail; when detection was listening on a
    strategy that can be resumed, it is listening again afterwards. *)
Theorem playSuccessSound_plays_and_resumes s :
  exists w',
    playSuccessSound env soundFails (start s) = (Returned tt, w') /\
    soundsOf (trace w') = ["c4.mp3"; "e4.mp3"; "g4.mp3"; "c5.mp3"]%string /\
    (listening s = true -> isPitchDetectionPaused s = false ->
     resumable env s = true ->
     listening (session w') = true /\
     isPitchDetectionPaused (session w') = false).
Proof.
  assert (forall k note w,
            nth k successNotes None = Some note ->
            playSuccessNote env soundFails k w
            = playNote env soundFails note w) as Hk
    by (intros k note w H; unfold playSuccessNote; rewrite H; reflexivity).
  unfold playSuccessSound, tryCatch, tryFinally, start.
  unfold bind at 1, pause at 1, bind at 1, record at 1, onSession at 1.
  cbn [session trace plays].
  set (w0 := mkWorld (pausePitchDetection s) _ _).
  unfold bind at 1. rewrite (Hk 0%nat C4) by reflexivity.
  destruct (playNote_sounds C4 w0) as (w1 & E1 & S1 & _). rewrite E1.
  unfold bind at 1, wait at 1, record at 1.
  unfold bind at 1. rewrite (Hk 1%nat E4) by reflexivity.
  match goal with |- context [playNote env soundFails E4 ?w] =>
    destruct (playNote_sounds E4 w) as (w2 & E2 & S2 & _) end.
  rewrite E2.
  unfold bind at 1, wait at 1, record at 1.
  unfold bind at 1.
  rewrite (Hk 2%nat (mkNote "G4" 392.00 "g4.mp3")) by reflexivity.
  match goal with |- context [playNote env soundFails ?n ?w] =>
    destruct (playNote_sounds n w) as (w3 & E3 & S3 & _) end.
  rewrite E3.
  unfold bind at 1, wait at 1, record at 1.
  unfold bind at 1.
  rewrite (Hk 3%nat (mkNote "C5" 523.25 "c5.mp3")) by reflexivity.
  match goal with |- context [playNote env soundFails ?n ?w] =>
    destruct (playNote_sounds n w) as (w4 & E4' & S4 & _) end.
  rewrite E4'.
  unfold wait, record, resume, bind, record, onSession.
  eexists. split; [reflexivity|].
  cbn [fst snd session trace plays] in *. split.
  - rewrite !soundsOf_app, S4, soundsOf_app, S3, soundsOf_app, S2,
      soundsOf_app, S1.
    reflexivity.
  - intros Hl Hp Hr.
    assert (isPitchDetectionPaused (session w0) = true) as Hp0.
    { destruct s as [p m]. cbn in Hl |- *.
      destruct p, m; try discriminate Hl; reflexivity. }
    destruct (playNote_paused env soundFails C4 w0 Hp0)
      as (s1 & tr1 & k1 & H1 & F1).
    rewrite F1 in E1. injection E1 as <-. cbn [session trace] in *.
    set (w1' := mkWorld s1 _ _) in *.
    assert (isPitchDetectionPaused (session w1') = true) as Hp1
      by (cbn; rewrite (initOnly_paused _ _ H1); exact Hp0).
    destruct (playNote_paused env soundFails E4 w1' Hp1)
      as (s2 & tr2 & k2 & H2 & F2).
    rewrite F2 in E2. injection E2 as <-. cbn [session trace] in *.
    set (w2' := mkWorld s2 _ _) in *.
    assert (isPitchDetectionPaused (session w2') = true) as Hp2
      by (cbn; rewrite (initOnly_paused _ _ H2); exact Hp1).
    destruct (playNote_paused env soundFails
                (mkNote "G4" 392.00 "g4.mp3") w2' Hp2)
      as (s3 & tr3 & k3 & H3 & F3).
    rewrite F3 in E3. injection E3 as <-. cbn [session trace] in *.
    set (w3' := mkWorld s3 _ _) in *.
    assert (isPitchDetectionPaused (session w3') = true) as Hp3
      by (cbn; rewrite (initOnly_paused _ _ H3); exact Hp2).
    destruct (playNote_paused env soundFails
                (mkNote "C5" 523.25 "c5.mp3") w3' Hp3)
      as (s4 & tr4 & k4 & H4 & F4).
    rewrite F4 in E4'. injection E4' as <-. cbn [session] in *.
    apply (resume_after_pause env s); try assumption.
    eapply initOnly_trans; [exact H1|].
    eapply initOnly_trans; [exact H2|].
    eapply initOnly_trans; [exact H3|exact H4].
Qed.

End PlaybackMore.

Section PlaybackWitnesses.
Import Notes AudioUtils Spec SpecMore Playback.

Lemma demonstration_resumes_witness :
  exists s' tr k,
    playCurrentSequenceWithNotes iosEnv (fun n => Nat.even n) [C4; E4]
      (start (startPitchDetection iosEnv initial))
    = (Returned tt, mkWorld s' tr k) /\
    listening s' = true /\
    isPitchDetectionPaused s' = false.
Proof.
  apply (demonstration_resumes iosEnv (fun n => Nat.even n) [C4; E4]
           (startPitchDetection iosEnv initial)); reflexivity.
Defined.

Lemma playSuccessSound_plays_and_resumes_witness :
  exists w',
    playSuccessSound iosEnv (fun _ => true)
      (start (startPitchDetection iosEnv initial)) = (Returned tt, w') /\
    soundsOf (trace w') = ["c4.mp3"; "e4.mp3"; "g4.mp3"; "c5.mp3"]%string /\
    listening (session w') = true /\
    isPitchDetectionPaused (session w') = false.
Proof.
  destruct (playSuccessSound_plays_and_resumes iosEnv (fun _ => true)
              (startPitchDetection iosEnv initial)) as (w' & E & S & H).
  exists w'. split; [exact E|]. split; [exact S|].
  apply H; reflexivity.
Defined.

(** Below the threshold the callbacks of [startWebPitchDetection] and of
    [startNativePitchDetection] report no note with the volume of the tick
    and leave the window empty, whatever it held. *)
Theorem silence_clears_window (s : AudioUtils.t) (i : TickInput) :
  onPitchDetected s = true ->
  (webReady s = true -> rms i < AudioUtils.volumeThreshold s ->
   snd (webTick s i) = [(None, rms i)] /\
   detectionHistory (fst (webTick s i)) = []) /\
  (isMobileListening s = true ->
   draw i 0%nat * 0.1 < AudioUtils.volumeThreshold s ->
   snd (nativeTick s i) = [(None, draw i 0%nat * 0.1)] /\
   detectionHistory (fst (nativeTick s i)) = []).
Proof.
  intros Hc. split.
  - intros Hr Hv. unfold webReady in Hr.
    apply andb_prop in Hr. destruct Hr as [Hr Hp].
    apply andb_prop in Hr. destruct Hr as [Ha Hr].
    apply webTick_below_threshold; assumption.
  - intros Hm Hv. apply nativeTick_below_threshold; assumption.
Qed.

Lemma silence_clears_window_witness :
  snd (webTick (heard 440 3) (frame 0.005 (Some 440))) = [(None, 0.005)] /\
  detectionHistory (fst (webTick (heard 440 3) (frame 0.005 (Some 440)))) = [].
Proof.
  apply (silence_clears_window (heard 440 3) (frame 0.005 (Some 440)));
    reflexivity.
Defined.

End PlaybackWitnesses.
(** ** The trial state machine, continued *)

Section TrialMore.
Import Notes Spec Training.

Variable settings : Settings.

(** A correct note before the last position only extends [notesPlayed]. *)
Lemma detect_advance notes dn np c tc sp cs d expected :
  sameValue dn (Some d) = false ->
  nth_error notes (List.length np) = Some expected ->
  name (content d) = name expected ->
  (S (List.length np) < List.length notes)%nat ->
  fst (detect settings (mkState notes dn np c tc sp false cs) (Some d))
  = mkState notes (Some d) (np ++ [List.length np]) c tc sp false cs.
Proof.
  intros Hs He Hn Hlast.
  set (st := mkState notes dn np c tc sp false cs).
  pose proof (matchesExpected_true st (content d) expected He Hn) as Hm.
  rewrite (detect_fst settings st (Some d) Hs),
          (detect_match settings st d eq_refl Hs Hm).
  cbn [notesPlayed currentNotes st].
  destruct (Z.of_nat (List.length np) =? Z.of_nat (List.length notes) - 1)%Z
    eqn:E; [apply Z.eqb_eq in E; lia|].
  rewrite app_nil_r, applyActions_app, applyActions_flash. reflexivity.
Qed.

Lemma detect_repetition notes dn np c tc sp cs d expected :
  sameValue dn (Some d) = false ->
  nth_error notes (List.length np) = Some expected ->
  name (content d) = name expected ->
  S (List.length np) = List.length notes ->
  (c + 1 < repetitionsRequired settings)%Z ->
  detect settings (mkState notes dn np c tc sp false cs) (Some d)
  = (mkState notes (Some d) [] (c + 1) tc sp false cs,
     (if showSuccessIndicator settings then [ShowSuccessFlash] else []) ++
     [SetNotesPlayed (np ++ [List.length np]);
      SetCorrectSequencesPlayed (c + 1);
      SetNotesPlayed []]).
Proof.
  intros Hs He Hn Hlast Hrep.
  set (st := mkState notes dn np c tc sp false cs).
  pose proof (matchesExpected_true st (content d) expected He Hn) as Hm.
  pose proof (detect_match settings st d eq_refl Hs Hm) as Ha.
  pose proof (detect_fst settings st (Some d) Hs) as Hf.
  destruct (detect settings st (Some d)) as [st' acts].
  cbn [fst snd] in *. subst acts.
  cbn [notesPlayed currentNotes st] in Hf |- *.
  replace (Z.of_nat (List.length np) =? Z.of_nat (List.length notes) - 1)%Z
    with true in * by (symmetry; apply Z.eqb_eq; lia).
  unfold handleSequenceCompleted in *.
  cbn [setDetectedNote correctSequencesPlayed st] in *.
  replace (repetitionsRequired settings <=? c + 1)%Z with false in *
    by (symmetry; apply Z.leb_gt; exact Hrep).
  rewrite applyActions_app, applyActions_flash in Hf. cbn in Hf.
  subst st'. reflexivity.
Qed.

(** Completing a repetition short of the required count resets
    [notesPlayed] to empty and counts one repetition; nothing else of the
    trial changes and no sound or timer is started.  The note has to
    arrive as another value than the stored one: the same object again
    runs nothing and counts nothing. *)
Theorem repetition_counts_and_resets notes dn np c tc sp cs d expected :
  nth_error notes (List.length np) = Some expected ->
  name (content d) = name expected ->
  S (List.length np) = List.length notes ->
  (c + 1 < repetitionsRequired settings)%Z ->
  detect settings (mkState notes dn np c tc sp false cs) (Some d)
  = if sameValue dn (Some d)
    then (mkState notes dn np c tc sp false cs, [])
    else
      (mkState notes (Some d) [] (c + 1) tc sp false cs,
       (if showSuccessIndicator settings then [ShowSuccessFlash] else []) ++
       [SetNotesPlayed (np ++ [List.length np]);
        SetCorrectSequencesPlayed (c + 1);
        SetNotesPlayed []]).
Proof.
  intros He Hn Hlast Hrep. destruct (sameValue dn (Some d)) eqn:Hs.
  - apply detect_same. exact Hs.
  - apply (detect_repetition notes dn np c tc sp cs d expected); assumption.
Qed.

(** The last note of the last required repetition: the count reaches the
    requirement, progress stays full, and the trial either finishes (a
    budget that is reached) or moves the sequence counter on. *)
Lemma detect_completes notes dn np c tc sp cs d expected :
  sameValue dn (Some d) = false ->
  nth_error notes (List.length np) = Some expected ->
  name (content d) = name expected ->
  S (List.length np) = List.length notes ->
  (repetitionsRequired settings <= c + 1)%Z ->
  fst (detect settings (mkState notes dn np c tc sp false cs) (Some d))
  = if ((0 <? totalSequences settings) &&
        (totalSequences settings <=? cs))%Z
    then mkState notes (Some d) (np ++ [List.length np]) (c + 1)
                 true false false cs
    else mkState notes (Some d) (np ++ [List.length np]) (c + 1)
                 tc false false (cs + 1).
Proof.
  intros Hs He Hn Hlast Hrep.
  set (st := mkState notes dn np c tc sp false cs).
  pose proof (matchesExpected_true st (content d) expected He Hn) as Hm.
  rewrite (detect_fst settings st (Some d) Hs),
          (detect_match settings st d eq_refl Hs Hm).
  cbn [notesPlayed currentNotes st].
  replace (Z.of_nat (List.length np) =? Z.of_nat (List.length notes) - 1)%Z
    with true by (symmetry; apply Z.eqb_eq; lia).
  unfold handleSequenceCompleted, handleTrainingStepComplete. subst st.
  cbn [setDetectedNote correctSequencesPlayed currentSequence].
  replace (repetitionsRequired settings <=? c + 1)%Z with true
    by (symmetry; apply Z.leb_le; exact Hrep).
  rewrite applyActions_app, applyActions_flash.
  destruct ((0 <? totalSequences settings) &&
            (totalSequences settings <=? cs))%Z; reflexivity.
Qed.

(** The names still to be heard with [k] positions played. *)
Lemma names_to_hear (notes : list Note) (rest : list string) :
  forall k expected,
    nth_error notes k = Some expected ->
    map name (skipn k notes) ++ rest
    = name expected :: (map name (skipn (S k) notes) ++ rest).
Proof.
  induction notes as [|x notes IH]; intros [|k] expected He;
    try discriminate.
  - cbn in He. injection He as ->. reflexivity.
  - cbn [nth_error] in He. exact (IH k expected He).
Qed.

Lemma feed_until_complete notes tc sp cs events :
  forall k more dn,
    (k < List.length notes)%nat ->
    changing dn events = true ->
    heardNames events
      = map name (skipn k notes) ++
        List.concat (repeat (map name notes) more) ->
    (1 + Z.of_nat more <= repetitionsRequired settings)%Z ->
    completedFrom settings notes tc cs
      (fst (feed settings
              (mkState notes dn (seq 0 k)
                 (repetitionsRequired settings - 1 - Z.of_nat more)
                 tc sp false cs)
              events)).
Proof.
  induction events as [|e events IH]; intros k more dn Hk Hch Hnames Hmore.
  - exfalso. destruct (nth_error notes k) as [expected|] eqn:He.
    + rewrite (names_to_hear notes _ k expected He) in Hnames.
      discriminate.
    + apply nth_error_None in He. lia.
  - cbn [changing] in Hch. apply andb_prop in Hch. destruct Hch as [Hs Hch].
    apply negb_true_iff in Hs. cbn [feed].
    destruct e as [d|].
    + destruct (nth_error notes k) as [expected|] eqn:He;
        [|apply nth_error_None in He; lia].
      rewrite (names_to_hear notes _ k expected He) in Hnames.
      cbn [heardNames flat_map app] in Hnames.
      injection Hnames as Hn Hrest. fold (heardNames events) in Hrest.
      change (match notes with [] => [] | _ :: l => skipn k l end)
        with (skipn (S k) notes) in Hrest.
      assert (nth_error notes (List.length (seq 0 k)) = Some expected)
        as He' by (rewrite length_seq; exact He).
      assert (seq 0 k ++ [List.length (seq 0 k)] = seq 0 (S k)) as Hseq
        by (rewrite length_seq, seq_S; reflexivity).
      destruct (Nat.eq_dec (S k) (List.length notes)) as [Hlast|Hlast].
      * (* the last position *)
        rewrite skipn_all2 in Hrest by lia. cbn [map app] in Hrest.
        destruct more as [|more].
        -- (* of the last repetition *)
           pose proof (detect_completes notes dn (seq 0 k)
                         (repetitionsRequired settings - 1 - Z.of_nat 0)
                         tc sp cs d expected Hs He' Hn
                         ltac:(rewrite length_seq; exact Hlast)
                         ltac:(lia)) as Hd.
           destruct (detect settings _ (Some d)) as [st1 acts1].
           cbn [fst] in Hd. rewrite Hseq in Hd.
           replace (repetitionsRequired settings - 1 - Z.of_nat 0 + 1)%Z
             with (repetitionsRequired settings) in Hd by lia.
           destruct (feed_complete_state settings events st1) as [x Ex].
           { subst st1.
             destruct ((0 <? totalSequences settings) &&
                       (totalSequences settings <=? cs))%Z;
               cbn [notesPlayed currentNotes]; rewrite length_seq;
               exact Hlast. }
           rewrite Ex. cbn [fst]. subst st1. unfold completedFrom.
           rewrite Hlast.
           destruct ((0 <? totalSequences settings) &&
                     (totalSequences settings <=? cs))%Z;
             cbn; repeat split; reflexivity.
        -- (* of an earlier repetition *)
           rewrite (detect_repetition notes dn (seq 0 k)
                      (repetitionsRequired settings - 1 - Z.of_nat (S more))
                      tc sp cs d expected Hs He' Hn
                      ltac:(rewrite length_seq; exact Hlast)
                      ltac:(lia)).
           specialize (IH 0%nat more (Some d) ltac:(lia) Hch).
           cbn [skipn seq] in IH.
           replace (repetitionsRequired settings - 1 - Z.of_nat (S more) + 1)%Z
             with (repetitionsRequired settings - 1 - Z.of_nat more)%Z by lia.
           specialize (IH Hrest ltac:(lia)).
           destruct (feed settings _ events) as [st2 acts2]. exact IH.
      * (* before the last position *)
        pose proof (detect_advance notes dn (seq 0 k)
                      (repetitionsRequired settings - 1 - Z.of_nat more)
                      tc sp cs d expected Hs He' Hn
                      ltac:(rewrite length_seq; lia)) as Hd.
        destruct (detect settings _ (Some d)) as [st1 acts1].
        cbn [fst] in Hd. rewrite Hseq in Hd. subst st1.
        specialize (IH (S k) more (Some d) ltac:(lia) Hch Hrest Hmore).
        destruct (feed settings _ events) as [st2 acts2]. exact IH.
    + (* silence: only the stored note changes *)
      rewrite (detect_changed settings
                 (mkState notes dn (seq 0 k)
                    (repetitionsRequired settings - 1 - Z.of_nat more)
                    tc sp false cs) None Hs).
      cbn [detectionEffect setDetectedNote detectedNote applyActions
           fold_left currentNotes notesPlayed correctSequencesPlayed
           isTrainingComplete sequenceInProgress isInitializing
           currentSequence].
      specialize (IH k more None Hk Hch Hnames Hmore).
      destruct (feed settings _ events) as [st2 acts2]. exact IH.
Qed.

(** Hearing the notes of the sequence in order, as many times as
    [repetitionsRequired] asks, completes the trial, from any start of a
    trial: whatever note is stored, whatever the sequence counter.  Each
    event has to deliver another value than the one before it (another
    note object, or a note after a silence); silences may come anywhere in
    between.  Then the count equals the requirement, every position is
    played, the screen is complete when the budget of sequences is
    reached, and otherwise the sequence counter has moved on by one. *)
Theorem required_repetitions_complete_trial
    (notes : list Note) (dn : option NoteObject) (tc sp : bool) (cs : Z)
    (events : list (option NoteObject)) :
  notes <> [] ->
  (1 <= repetitionsRequired settings)%Z ->
  changing dn events = true ->
  heardNames events
    = List.concat (repeat (map name notes)
                     (Z.to_nat (repetitionsRequired settings))) ->
  let st := fst (feed settings (mkState notes dn [] 0 tc sp false cs)
                   events) in
  correctSequencesPlayed st = repetitionsRequired settings /\
  notesPlayed st = seq 0 (List.length notes) /\
  currentNotes st = notes /\
  isTrainingComplete st
    = (((0 <? totalSequences settings) &&
        (totalSequences settings <=? cs))%Z || tc) /\
  currentSequence st
    = (if ((0 <? totalSequences settings) &&
           (totalSequences settings <=? cs))%Z then cs else cs + 1)%Z.
Proof.
  intros Hne HR Hch Hnames st. subst st.
  pose proof (feed_until_complete notes tc sp cs events 0
                (Z.to_nat (repetitionsRequired settings - 1)) dn) as H.
  cbn [seq skipn] in H.
  replace (repetitionsRequired settings - 1
           - Z.of_nat (Z.to_nat (repetitionsRequired settings - 1)))%Z
    with 0%Z in H by lia.
  apply H.
  - destruct notes; [congruence|cbn; lia].
  - exact Hch.
  - rewrite Hnames.
    replace (Z.to_nat (repetitionsRequired settings))
      with (S (Z.to_nat (repetitionsRequired settings - 1))) by lia.
    reflexivity.
  - lia.
Qed.

End TrialMore.

Section TrialWitnesses.
Import Notes Spec Training.

Lemma repetition_counts_and_resets_witness :
  detect trialSettings
         (mkState [C4; E4] (Some heardC4) [0%nat] 0 false false false 1)
         (Some heardE4)
  = (mkState [C4; E4] (Some heardE4) [] 1 false false false 1,
     [ShowSuccessFlash; SetNotesPlayed [0; 1]%nat;
      SetCorrectSequencesPlayed 1; SetNotesPlayed []]).
Proof.
  apply (repetition_counts_and_resets trialSettings [C4; E4] (Some heardC4)
           [0%nat] 0 false false 1 heardE4 E4); reflexivity.
Defined.

(** A one-note sequence asked for twice: the table's C4, a silence, and
    the same C4 again complete the trial. *)
Lemma required_repetitions_complete_trial_witness :
  let st := fst (feed trialSettings (awaiting [C4])
                   [Some heardC4; None; Some heardC4]) in
  correctSequencesPlayed st = 2%Z /\
  notesPlayed st = [0%nat] /\
  currentNotes st = [C4] /\
  isTrainingComplete st = true /\
  currentSequence st = 1%Z.
Proof.
  apply (required_repetitions_complete_trial trialSettings [C4] None
           false false 1 [Some heardC4; None; Some heardC4]).
  - discriminate.
  - cbn. lia.
  - reflexivity.
  - reflexivity.
Defined.

End TrialWitnesses.

(** ** The settings screen *)

Section SettingsMore.
Import AppContext SettingsScreen.

Variable parseInt : string -> option Z.
Hypothesis parseInt_empty : parseInt "" = None.

Lemma handleNumberChange_acceptable value current min max :
  acceptable parseInt min max current ->
  acceptable parseInt min max
    (handleNumberChange parseInt value current min (Some max)).
Proof.
  intros Hc. unfold handleNumberChange.
  destruct (String.eqb value "") eqn:E.
  - apply String.eqb_eq in E. left. exact E.
  - destruct (parseInt value) as [n|] eqn:Ep; [|exact Hc].
    destruct ((min <=? n)%Z && (n <=? max)%Z) eqn:Er; [|exact Hc].
    apply andb_prop in Er. destruct Er as [E1 E2].
    apply Z.leb_le in E1. apply Z.leb_le in E2.
    right. exists n. split; [exact Ep|lia].
Qed.

Lemma applyEdit_acceptable f e :
  acceptableForm parseInt f -> acceptableForm parseInt (applyEdit parseInt f e).
Proof.
  intros (H1 & H2 & H3 & H4).
  destruct e; unfold acceptableForm; cbn;
    repeat split; try assumption;
    apply handleNumberChange_acceptable; assumption.
Qed.

Lemma edits_acceptable edits :
  forall f,
    acceptableForm parseInt f ->
    acceptableForm parseInt (fold_left (applyEdit parseInt) edits f).
Proof.
  induction edits as [|e edits IH]; intros f H; cbn [fold_left];
    [exact H|].
  apply IH, applyEdit_acceptable, H.
Qed.

Lemma parsedOr_range min max text fallback :
  acceptable parseInt min max text ->
  (min <= fallback <= max)%Z ->
  (min <= parsedOr parseInt text fallback <= max)%Z.
Proof.
  intros [->|(n & Hn & Hr)] Hf; unfold parsedOr.
  - rewrite parseInt_empty. exact Hf.
  - rewrite Hn. destruct n; assumption.
Qed.

Lemma saved_ranges (f : Form) (edits : list Edit) (prev : AppSettings) :
  acceptableForm parseInt f ->
  forall s,
    s = updateSettings prev
          (handleStart parseInt (fold_left (applyEdit parseInt) edits f)) ->
    (1 <= notesPerTurn s <= 5)%Z /\
    (1 <= maxInterval s <= 12)%Z /\
    (1 <= repetitionsRequired s <= 10)%Z /\
    (0 <= totalSequences s <= 100)%Z /\
    showNotes s = showNotes prev.
Proof.
  intros Hf s ->.
  destruct (edits_acceptable edits f Hf) as (H1 & H2 & H3 & H4).
  cbn. repeat split;
    try (apply (parsedOr_range 1 5); [assumption|lia]);
    try (apply (parsedOr_range 1 12); [assumption|lia]);
    try (apply (parsedOr_range 1 10); [assumption|lia]);
    try (apply (parsedOr_range 0 100); [assumption|lia]).
Qed.

(** Whatever is typed into the form, starting from texts that are empty
    or in range, the settings that [handleStart] saves are in range:
    1 to 5 notes, an interval of 1 to 12, 1 to 10 repetitions and 0 to 100
    sequences; [showNotes] is left as it was. *)
Theorem handleStart_saves_settings_in_range
    (f : Form) (edits : list Edit) (prev : AppSettings) :
  acceptableForm parseInt f ->
  let s := updateSettings prev
             (handleStart parseInt (fold_left (applyEdit parseInt) edits f)) in
  (1 <= notesPerTurn s <= 5)%Z /\
  (1 <= maxInterval s <= 12)%Z /\
  (1 <= repetitionsRequired s <= 10)%Z /\
  (0 <= totalSequences s <= 100)%Z /\
  showNotes s = showNotes prev.
Proof.
  intros Hf s. apply (saved_ranges f edits prev Hf s). reflexivity.
Qed.

(** With settings saved by the settings screen the training screen
    always obtains a sequence, of the saved length. *)
Theorem saved_settings_generate_a_sequence
    (f : Form) (edits : list Edit) (prev : AppSettings) (rand : nat -> Q) :
  acceptableForm parseInt f ->
  (forall k, 0 <= rand k /\ rand k < 1) ->
  let s := updateSettings prev
             (handleStart parseInt (fold_left (applyEdit parseInt) edits f)) in
  exists notes,
    Training.generateNewSequence (forTraining s) rand = Some notes /\
    Z.of_nat (List.length notes) = notesPerTurn s /\
    (1 <= List.length notes <= 5)%nat.
Proof.
  intros Hf Hr s. remember s as s' eqn:Es. subst s.
  destruct (saved_ranges f edits prev Hf s' Es) as (H1 & H2 & _).
  destruct (generateNewSequence_returns (forTraining s') rand)
    as (notes & Hg & Hl & _).
  - cbn. lia.
  - cbn. lia.
  - exact Hr.
  - exists notes. cbn in Hl. split; [exact Hg|]. split; lia.
Qed.

End SettingsMore.

Section SettingsWitnesses.
Import AppContext SettingsScreen.

Lemma handleStart_saves_settings_in_range_witness :
  let parse := fun text => if String.eqb text "4" then Some 4%Z
                           else if String.eqb text "9" then Some 9%Z
                           else None in
  let s := updateSettings defaultSettings
             (handleStart parse
                (fold_left (applyEdit parse)
                   [TypeNotesPerTurn "4"; TypeNotesPerTurn "9";
                    TypeMaxInterval "9"; TypeTotalSequences "x"]
                   (mkForm "" "" "" "" guitar true 0.01))) in
  (1 <= notesPerTurn s <= 5)%Z /\
  (1 <= maxInterval s <= 12)%Z /\
  (1 <= repetitionsRequired s <= 10)%Z /\
  (0 <= totalSequences s <= 100)%Z /\
  showNotes s = showNotes defaultSettings.
Proof.
  intros parse.
  apply (handleStart_saves_settings_in_range parse eq_refl
           (mkForm "" "" "" "" guitar true 0.01)
           [TypeNotesPerTurn "4"; TypeNotesPerTurn "9";
            TypeMaxInterval "9"; TypeTotalSequences "x"] defaultSettings).
  repeat split; left; reflexivity.
Defined.

Lemma saved_settings_generate_a_sequence_witness :
  let parse := fun text => if String.eqb text "4" then Some 4%Z else None in
  let s := updateSettings defaultSettings
             (handleStart parse
                (fold_left (applyEdit parse) [TypeNotesPerTurn "4"]
                   (mkForm "" "" "" "" guitar true 0.01))) in
  exists notes,
    Training.generateNewSequence (forTraining s)
      (fun k => 1 # Pos.of_succ_nat (S k)) = Some notes /\
    Z.of_nat (List.length notes) = notesPerTurn s /\
    (1 <= List.length notes <= 5)%nat.
Proof.
  intros parse.
  apply (saved_settings_generate_a_sequence parse eq_refl
           (mkForm "" "" "" "" guitar true 0.01)
           [TypeNotesPerTurn "4"] defaultSettings
           (fun k => 1 # Pos.of_succ_nat (S k))).
  - repeat split; left; reflexivity.
  - intros k. split.
    + unfold Qle. cbn. lia.
    + unfold Qlt. cbn. lia.
Defined.

End SettingsWitnesses.

(** ** The sound manager *)

Section SoundManagerMore.
Import Notes AppContext SoundManager.

Lemma endsWith_refl s : endsWith s s = true.
Proof. destruct s; cbn [endsWith]; rewrite String.eqb_refl; reflexivity. Qed.

Lemma endsWith_append prefix suffix :
  endsWith (prefix ++ suffix) suffix = true.
Proof.
  induction prefix as [|c prefix IH]; cbn [String.append].
  - apply endsWith_refl.
  - cbn [endsWith]. rewrite IH. apply orb_true_r.
Qed.

Lemma getNoteFileName_table_names :
  Forall (fun n => getNoteFileName (name n) = audioFile n /\
                   getNoteFileName (audioFile n) = audioFile n)
         GUITAR_NOTES.
Proof.
  repeat (constructor; [split; vm_compute; reflexivity|]). constructor.
Qed.

(** [getNoteFileName] always yields a name that ends in [.mp3] and
    leaves such a name as it is, so applying it twice changes nothing;
    on every note of the table it yields the note's [audioFile], from the
    name as well as from the file name. *)
Theorem getNoteFileName_file_names :
  (forall noteName,
     endsWith (getNoteFileName noteName) ".mp3" = true /\
     getNoteFileName (getNoteFileName noteName) = getNoteFileName noteName) /\
  (forall n,
     In n GUITAR_NOTES ->
     getNoteFileName (name n) = audioFile n /\
     getNoteFileName (audioFile n) = audioFile n).
Proof.
  split.
  - intros noteName.
    assert (endsWith (getNoteFileName noteName) ".mp3" = true) as H.
    { unfold getNoteFileName.
      destruct (endsWith noteName ".mp3") eqn:E; [exact E|].
      apply endsWith_append. }
    split; [exact H|].
    unfold getNoteFileName at 1. rewrite H. reflexivity.
  - intros n Hn. pose proof getNoteFileName_table_names as H.
    rewrite Forall_forall in H. apply H, Hn.
Qed.

Lemma getNoteFileName_file_names_witness :
  getNoteFileName "C#3/Db3" = "c-3.mp3"%string /\
  getNoteFileName "c-3.mp3" = "c-3.mp3"%string.
Proof.
  apply (proj2 getNoteFileName_file_names
           (mkNote "C#3/Db3" 138.59 "c-3.mp3")).
  apply (nth_error_In _ 9). reflexivity.
Defined.

Lemma synth_samples_of_table :
  Forall (fun n => getSpecificSoundAsset synth (audioFile n) = audioFile n /\
                   getSpecificSoundAsset synth (name n) = audioFile n)
         GUITAR_NOTES.
Proof.
  repeat (constructor; [split; vm_compute; reflexivity|]). constructor.
Qed.

(** With the synth instrument every note of the table is loaded from its
    own sample and a file that is not among the samples from the C4
    sample; with the guitar instrument every note is loaded from the synth
    C4 sample. *)
Theorem getSpecificSoundAsset_samples :
  (forall n,
     In n GUITAR_NOTES ->
     getSpecificSoundAsset synth (audioFile n) = audioFile n /\
     getSpecificSoundAsset synth (name n) = audioFile n) /\
  (forall noteName,
     ~ In (getNoteFileName noteName) synthSamples ->
     getSpecificSoundAsset synth noteName = "c4.mp3"%string) /\
  (forall noteName,
     getSpecificSoundAsset guitar noteName = "c4.mp3"%string).
Proof.
  split; [|split].
  - intros n Hn. pose proof synth_samples_of_table as H.
    rewrite Forall_forall in H. apply H, Hn.
  - intros noteName Hout. unfold getSpecificSoundAsset.
    destruct (existsb (String.eqb (getNoteFileName noteName)) synthSamples)
      eqn:E; [|reflexivity].
    apply existsb_exists in E. destruct E as (x & Hx & Ex).
    apply String.eqb_eq in Ex. subst x. contradiction.
  - reflexivity.
Qed.

Lemma getSpecificSoundAsset_samples_witness :
  getSpecificSoundAsset synth "F#4/Gb4" = "f-4.mp3"%string /\
  getSpecificSoundAsset synth "d2.mp3" = "c4.mp3"%string /\
  getSpecificSoundAsset guitar "F#4/Gb4" = "c4.mp3"%string.
Proof.
  destruct getSpecificSoundAsset_samples as (Htable & Hother & Hguitar).
  split; [|split].
  - apply (Htable (mkNote "F#4/Gb4" 369.99 "f-4.mp3")).
    apply (nth_error_In _ 26). reflexivity.
  - apply (Hother "d2.mp3"%string). vm_compute.
    intros H. repeat (destruct H as [H|H]; [discriminate H|]). exact H.
  - apply Hguitar.
Defined.

End SoundManagerMore.

(** ** The sound cache *)

Section SoundCache.
Import SoundManager.

Lemma cached_In key cache :
  cached key cache = true <-> In key (map fst cache).
Proof.
  unfold cached. rewrite existsb_exists, in_map_iff. split.
  - intros (e & He & E). apply String.eqb_eq in E. eauto.
  - intros (e & E & He). exists e. split; [exact He|].
    apply String.eqb_eq, E.
Qed.

Lemma deleteKey_In key cache e :
  In e (deleteKey key cache) <-> In e cache /\ fst e <> key.
Proof.
  unfold deleteKey. rewrite filter_In. split; intros [H1 H2]; split; auto.
  - intros E. apply String.eqb_eq in E. rewrite E in H2. discriminate.
  - apply negb_true_iff, String.eqb_neq, H2.
Qed.

Lemma deleteKey_absent key cache :
  ~ In key (map fst cache) -> deleteKey key cache = cache.
Proof.
  induction cache as [|e cache IH]; intros H; [reflexivity|].
  cbn [deleteKey filter]. fold (deleteKey key cache).
  destruct (String.eqb (fst e) key) eqn:E.
  - apply String.eqb_eq in E. exfalso. apply H. left. exact E.
  - cbn [negb]. rewrite IH; [reflexivity|].
    intros Hin. apply H. right. exact Hin.
Qed.

Lemma deleteKey_length key cache :
  NoDup (map fst cache) -> In key (map fst cache) ->
  S (List.length (deleteKey key cache)) = List.length cache.
Proof.
  induction cache as [|e cache IH]; intros Hnd Hin; [destruct Hin|].
  cbn [map] in Hnd. inversion Hnd as [|k ks Hnotin Hnd']; subst.
  cbn [deleteKey filter]. fold (deleteKey key cache).
  destruct (String.eqb (fst e) key) eqn:E.
  - apply String.eqb_eq in E. subst key. cbn [negb].
    rewrite (deleteKey_absent _ _ Hnotin). reflexivity.
  - apply String.eqb_neq in E. cbn [negb List.length].
    rewrite IH; [reflexivity|exact Hnd'|].
    destruct Hin as [Hin|Hin]; [contradiction|exact Hin].
Qed.

Lemma deleteKey_NoDup key cache :
  NoDup (map fst cache) -> NoDup (map fst (deleteKey key cache)).
Proof.
  induction cache as [|e cache IH]; intros Hnd; [constructor|].
  cbn [map] in Hnd. inversion Hnd as [|k ks Hnotin Hnd']; subst.
  cbn [deleteKey filter]. fold (deleteKey key cache).
  destruct (negb (String.eqb (fst e) key)); [|apply IH, Hnd'].
  cbn [map]. constructor; [|apply IH, Hnd'].
  intros Hin. apply Hnotin. apply in_map_iff in Hin.
  destruct Hin as (x & Ex & Hx). apply deleteKey_In in Hx.
  apply in_map_iff. exists x. tauto.
Qed.

Lemma delete_all keys :
  forall cache,
    NoDup keys -> incl keys (map fst cache) -> NoDup (map fst cache) ->
    let result := fold_left (fun c key => deleteKey key c) keys cache in
    (List.length result + List.length keys = List.length cache)%nat /\
    NoDup (map fst result) /\
    (forall e, In e result <-> In e cache /\ ~ In (fst e) keys).
Proof.
  induction keys as [|key keys IH]; intros cache Hk Hincl Hnd; cbn zeta.
  - cbn. split; [lia|]. split; [exact Hnd|]. intros e. tauto.
  - inversion Hk as [|k ks Hnotin Hk']; subst. cbn [fold_left].
    destruct (IH (deleteKey key cache) Hk') as (Hlen & Hnd' & Hin).
    + intros x Hx. apply in_map_iff.
      assert (In x (map fst cache)) as Hxc
        by (apply Hincl; right; exact Hx).
      apply in_map_iff in Hxc. destruct Hxc as (e & Ee & He).
      exists e. split; [exact Ee|]. apply deleteKey_In. split; [exact He|].
      intros E. apply Hnotin. congruence.
    + apply deleteKey_NoDup, Hnd.
    + cbn zeta in *. split; [|split; [exact Hnd'|]].
      * pose proof (deleteKey_length key cache Hnd
                      (Hincl key (or_introl eq_refl))).
        cbn [List.length]. lia.
      * intros e. rewrite Hin, deleteKey_In. cbn [In]. split.
        -- intros [[H1 H2] H3]. split; [exact H1|].
           intros [E|H4]; [apply H2; symmetry; exact E|apply H3, H4].
        -- intros [H1 H2]. split; [split; [exact H1|]|].
           ++ intros E. apply H2. left. symmetry. exact E.
           ++ intros H3. apply H2. right. exact H3.
Qed.

Lemma insertByLastUsed_perm entry sorted :
  Permutation (insertByLastUsed entry sorted) (entry :: sorted).
Proof.
  induction sorted as [|e rest IH]; cbn [insertByLastUsed]; [reflexivity|].
  destruct (snd entry <=? snd e)%Z; [reflexivity|].
  rewrite IH. apply perm_swap.
Qed.

Lemma sortByLastUsed_perm cache : Permutation (sortByLastUsed cache) cache.
Proof.
  induction cache as [|e cache IH]; cbn; [reflexivity|].
  rewrite insertByLastUsed_perm. constructor. exact IH.
Qed.

Lemma insertByLastUsed_sorted entry sorted :
  oldestFirst sorted -> oldestFirst (insertByLastUsed entry sorted).
Proof.
  unfold oldestFirst.
  induction sorted as [|e rest IH]; intros Hs; cbn [insertByLastUsed].
  - constructor; constructor.
  - inversion Hs as [|x xs Hrest Hall]; subst.
    destruct (snd entry <=? snd e)%Z eqn:E.
    + apply Z.leb_le in E. constructor; [exact Hs|].
      constructor; [exact E|].
      eapply Forall_impl; [|exact Hall]. cbn. intros a Ha. lia.
    + apply Z.leb_gt in E. constructor; [apply IH, Hrest|].
      eapply Permutation_Forall;
        [symmetry; apply insertByLastUsed_perm|].
      constructor; [lia|exact Hall].
Qed.

Lemma sortByLastUsed_sorted cache : oldestFirst (sortByLastUsed cache).
Proof.
  induction cache as [|e cache IH]; cbn.
  - constructor.
  - apply insertByLastUsed_sorted, IH.
Qed.

(** The sort is stable: it leaves a cache that is in order as it is, so
    keys of equal [lastUsed] keep their places. *)
Lemma sortByLastUsed_stable cache :
  oldestFirst cache -> sortByLastUsed cache = cache.
Proof.
  unfold oldestFirst. induction cache as [|e cache IH]; intros Hs;
    [reflexivity|].
  inversion Hs as [|x xs Hrest Hall]; subst.
  cbn [sortByLastUsed fold_right].
  change (fold_right insertByLastUsed [] cache) with (sortByLastUsed cache).
  rewrite (IH Hrest). destruct cache as [|e' cache']; [reflexivity|].
  cbn [insertByLastUsed]. inversion Hall as [|y ys Hle _]; subst.
  replace (snd e <=? snd e')%Z with true
    by (symmetry; apply Z.leb_le; exact Hle).
  reflexivity.
Qed.

Lemma oldestFirst_split older newer :
  oldestFirst (older ++ newer) ->
  forall a b, In a older -> In b newer -> (snd a <= snd b)%Z.
Proof.
  unfold oldestFirst. induction older as [|x older IH]; intros Hs a b Ha Hb;
    [destruct Ha|].
  cbn [app] in Hs. inversion Hs as [|y ys Hrest Hall]; subst.
  destruct Ha as [<-|Ha].
  - rewrite Forall_forall in Hall. apply Hall, in_or_app. right. exact Hb.
  - apply IH; assumption.
Qed.

Lemma NoDup_app_left (A : Type) (l1 l2 : list A) :
  NoDup (l1 ++ l2) -> NoDup l1.
Proof.
  induction l1 as [|x l1 IH]; intros H; [constructor|].
  cbn [app] in H. inversion H as [|y ys Hnotin Hnd]; subst.
  constructor; [|apply IH, Hnd].
  intros Hin. apply Hnotin, in_or_app. left. exact Hin.
Qed.

Lemma same_key_same_entry (cache : Cache) a b :
  NoDup (map fst cache) -> In a cache -> In b cache -> fst a = fst b ->
  a = b.
Proof.
  induction cache as [|e cache IH]; intros Hnd Ha Hb E; [destruct Ha|].
  cbn [map] in Hnd. inversion Hnd as [|k ks Hnotin Hnd']; subst.
  destruct Ha as [<-|Ha], Hb as [<-|Hb]; try reflexivity.
  - exfalso. apply Hnotin. rewrite E. apply in_map, Hb.
  - exfalso. apply Hnotin. rewrite <- E. apply in_map, Ha.
  - apply IH; assumption.
Qed.

Lemma manageCacheSize_at_limit (cacheLimit : nat) (cache : Cache) :
  NoDup (map fst cache) ->
  (cacheLimit <= List.length cache)%nat ->
  let kept := manageCacheSize cacheLimit cache in
  List.length kept = (List.length cache / 2)%nat /\
  NoDup (map fst kept) /\
  incl kept cache /\
  (forall dropped survivor,
     In dropped cache -> ~ In dropped kept -> In survivor kept ->
     (snd dropped <= snd survivor)%Z).
Proof.
  intros Hnd Hfull kept. subst kept. unfold manageCacheSize.
  replace (cacheLimit <=? List.length cache)%nat with true
    by (symmetry; apply Nat.leb_le; exact Hfull).
  set (count := ((List.length cache + 1) / 2)%nat).
  set (sorted := sortByLastUsed cache).
  pose proof (sortByLastUsed_perm cache) as Hperm. fold sorted in Hperm.
  pose proof (sortByLastUsed_sorted cache) as Hsorted. fold sorted in Hsorted.
  pose proof (firstn_skipn count sorted) as Hsplit.
  assert (NoDup (map fst sorted)) as Hnds
    by (eapply Permutation_NoDup;
        [apply Permutation_map; symmetry; exact Hperm|exact Hnd]).
  assert (List.length sorted = List.length cache) as Hlens
    by (apply Permutation_length, Hperm).
  assert (count <= List.length cache)%nat as Hcount.
  { unfold count. destruct (List.length cache) as [|n]; [reflexivity|].
    apply Nat.Div0.div_le_upper_bound. lia. }
  assert (NoDup (victims cache)) as Hv1.
  { unfold victims. fold count sorted.
    rewrite <- Hsplit, map_app in Hnds. eapply NoDup_app_left, Hnds. }
  assert (incl (victims cache) (map fst cache)) as Hv2.
  { unfold victims. fold count sorted. intros k Hk.
    apply in_map_iff in Hk. destruct Hk as (e & E & He).
    apply in_map_iff. exists e. split; [exact E|].
    eapply Permutation_in; [exact Hperm|].
    rewrite <- Hsplit. apply in_or_app. left. exact He. }
  assert (List.length (victims cache) = count) as Hv3.
  { unfold victims. fold count sorted.
    rewrite length_map, length_firstn, Hlens. lia. }
  destruct (delete_all (victims cache) cache Hv1 Hv2 Hnd)
    as (Hlen & Hnd' & Hin).
  cbn zeta in *. split; [|split; [exact Hnd'|split]].
  - rewrite Hv3 in Hlen. unfold count in *.
    pose proof (Nat.div_mod_eq (List.length cache + 1) 2).
    pose proof (Nat.div_mod_eq (List.length cache) 2).
    pose proof (Nat.mod_upper_bound (List.length cache + 1) 2).
    pose proof (Nat.mod_upper_bound (List.length cache) 2).
    lia.
  - intros e He. apply Hin in He. apply He.
  - intros dropped survivor Hd Hnot Hs.
    apply (oldestFirst_split (firstn count sorted) (skipn count sorted));
      [rewrite Hsplit; exact Hsorted| |].
    + assert (In (fst dropped) (victims cache)) as Hk.
      { destruct (in_dec string_dec (fst dropped) (victims cache))
          as [H|H]; [exact H|].
        exfalso. apply Hnot, Hin. split; assumption. }
      unfold victims in Hk. fold count sorted in Hk.
      apply in_map_iff in Hk. destruct Hk as (e & E & He).
      assert (In e cache) as Hec.
      { eapply Permutation_in; [exact Hperm|].
        rewrite <- Hsplit. apply in_or_app. left. exact He. }
      rewrite <- (same_key_same_entry cache e dropped Hnd Hec Hd E).
      exact He.
    + apply Hin in Hs. destruct Hs as [Hsc Hsk].
      assert (In survivor sorted) as Hss
        by (eapply Permutation_in; [symmetry; exact Hperm|exact Hsc]).
      rewrite <- Hsplit in Hss. apply in_app_or in Hss.
      destruct Hss as [Hss|Hss]; [|exact Hss].
      exfalso. apply Hsk. unfold victims. fold count sorted.
      apply in_map, Hss.
Qed.

(** When the cache has reached its limit, [manageCacheSize] keeps half
    of the entries (rounded down), each under its own key, and every
    entry it drops was used no later than every entry it keeps. *)
Theorem manageCacheSize_drops_least_recently_used
    (cacheLimit : nat) (cache : Cache) :
  NoDup (map fst cache) ->
  (cacheLimit <= List.length cache)%nat ->
  let kept := manageCacheSize cacheLimit cache in
  List.length kept = (List.length cache / 2)%nat /\
  NoDup (map fst kept) /\
  incl kept cache /\
  (forall dropped survivor,
     In dropped cache -> ~ In dropped kept -> In survivor kept ->
     (snd dropped <= snd survivor)%Z).
Proof. apply manageCacheSize_at_limit. Qed.

Lemma manageCacheSize_drops_least_recently_used_witness :
  let cache := [("synth_c4.mp3", 30); ("synth_e4.mp3", 10);
                ("synth_g4.mp3", 20); ("synth_c5.mp3", 40)]%string%Z in
  let kept := manageCacheSize 4 cache in
  List.length kept = (List.length cache / 2)%nat /\
  NoDup (map fst kept) /\
  incl kept cache /\
  (forall dropped survivor,
     In dropped cache -> ~ In dropped kept -> In survivor kept ->
     (snd dropped <= snd survivor)%Z).
Proof.
  apply (manageCacheSize_drops_least_recently_used 4
           [("synth_c4.mp3", 30); ("synth_e4.mp3", 10);
            ("synth_g4.mp3", 20); ("synth_c5.mp3", 40)]%string%Z).
  - repeat constructor; cbn; intros H;
      repeat (destruct H as [H|H]; [discriminate H|]); exact H.
  - cbn. lia.
Defined.

Lemma touch_keys key now cache :
  map fst (touch key now cache) = map fst cache.
Proof.
  unfold touch. rewrite map_map. apply map_ext. intros e.
  destruct (String.eqb (fst e) key) eqn:E; [|reflexivity].
  apply String.eqb_eq in E. symmetry. exact E.
Qed.

(** The sound cache never grows beyond its limit and never holds a key
    twice: [playSound] keeps both, whether the sound was cached, newly
    loaded or failed to load; a cached or newly loaded sound is in the
    cache afterwards. *)
Theorem cacheAfterPlay_within_limit
    (cacheLimit : nat) (cache : Cache) (key : string) (now : Z)
    (loaded : bool) :
  (1 <= cacheLimit)%nat ->
  NoDup (map fst cache) ->
  (List.length cache <= cacheLimit)%nat ->
  let cache' := cacheAfterPlay cacheLimit cache key now loaded in
  NoDup (map fst cache') /\
  (List.length cache' <= cacheLimit)%nat /\
  (cached key cache = true \/ loaded = true -> cached key cache' = true).
Proof.
  intros Hlimit Hnd Hlen cache'. subst cache'. unfold cacheAfterPlay.
  destruct (cached key cache) eqn:Ec.
  - split; [rewrite touch_keys; exact Hnd|]. split.
    + unfold touch. rewrite length_map. exact Hlen.
    + intros _. apply cached_In. rewrite touch_keys.
      apply cached_In, Ec.
  - assert (~ In key (map fst cache)) as Hout
      by (intros H; apply cached_In in H; congruence).
    assert (NoDup (map fst (manageCacheSize cacheLimit cache)) /\
            (List.length (manageCacheSize cacheLimit cache) < cacheLimit
             \/ List.length (manageCacheSize cacheLimit cache)
                  < List.length cache
             \/ List.length cache < cacheLimit)%nat /\
            incl (manageCacheSize cacheLimit cache) cache /\
            (List.length (manageCacheSize cacheLimit cache)
             <= List.length cache)%nat)
      as (Hnd' & Hroom & Hincl & Hle).
    { destruct (Nat.leb_spec cacheLimit (List.length cache)) as [Hfull|Hfree].
      - destruct (manageCacheSize_at_limit cacheLimit cache Hnd Hfull)
          as (Hl & Hn & Hi & _).
        cbn zeta in *.
        pose proof (Nat.div_mod_eq (List.length cache) 2).
        pose proof (Nat.mod_upper_bound (List.length cache) 2).
        repeat split; try assumption; lia.
      - unfold manageCacheSize.
        replace (cacheLimit <=? List.length cache)%nat with false
          by (symmetry; apply Nat.leb_gt; exact Hfree).
        repeat split; try assumption; try lia. apply incl_refl. }
    assert (~ In key (map fst (manageCacheSize cacheLimit cache))) as Hout'.
    { intros H. apply Hout. apply in_map_iff in H.
      destruct H as (e & E & He). apply in_map_iff. exists e.
      split; [exact E|apply Hincl, He]. }
    destruct loaded.
    + split; [|split].
      * rewrite map_app. cbn [map fst].
        apply NoDup_app; [exact Hnd'|repeat constructor; intros []|].
        intros x Hx [<-|[]]. apply Hout', Hx.
      * rewrite length_app. cbn [List.length]. lia.
      * intros _. apply cached_In. rewrite map_app. apply in_or_app.
        right. left. reflexivity.
    + split; [exact Hnd'|]. split; [lia|].
      intros [H|H]; discriminate H.
Qed.

Lemma cacheAfterPlay_within_limit_witness :
  let cache := [("synth_c4.mp3", 30); ("synth_e4.mp3", 10)]%string%Z in
  let cache' := cacheAfterPlay 2 cache "synth_g4.mp3" 50 true in
  NoDup (map fst cache') /\
  (List.length cache' <= 2)%nat /\
  (cached "synth_g4.mp3" cache = true \/ true = true ->
   cached "synth_g4.mp3" cache' = true).
Proof.
  apply (cacheAfterPlay_within_limit 2
           [("synth_c4.mp3", 30); ("synth_e4.mp3", 10)]%string%Z
           "synth_g4.mp3" 50 true).
  - lia.
  - repeat constructor; cbn; intros H;
      repeat (destruct H as [H|H]; [discriminate H|]); exact H.
  - cbn. lia.
Defined.

End SoundCache.
